(** * Image effects pipeline of the color grid generator

    Shallow embedding of [src/utils/effectsUtils.ts] (the raster effects and
    the pipeline entry point [applyEffectsToCanvas]) and of the grain pass of
    the grid component ([applyGrainEffect]), followed by the properties of
    the specification that concern them.  The handlers of the effects panel
    ([EffectsPanel.tsx]), which build the chains, and the layout and the CSS
    effects of the grid component ([ColorGrid.tsx]) are embedded too, with
    further properties of all of these.

    Conventions of the embedding.
    - A [Uint8ClampedArray] is a [list Z] of bytes; reads and writes use an
      integer index the way the source computes it (it may be negative or
      past the end: such a read gives [undefined], such a write is ignored).
    - A JavaScript number is a rational ([Fin q]) or [NaN].  The grain pass
      multiplies a random draw by the opacity, so its doubles are rounded at
      every step: there each of [+ - * /] is followed by [binary64], the
      rounding to the nearest double.  The raster effects compute with
      [+ - * /] on bytes and small integers only, and are written with exact
      operations; the two transcendental steps ([Math.pow] in the gamma
      pass, [Math.sqrt] in the Sobel pass) are only ever stored into a byte
      array, and are modelled by the byte that the exact real value rounds
      to ([pow_byte_real] and [sqrt_byte_real] relate these bytes to the
      real power and square root).  The layout of the grid is written with
      exact operations too.  Where a pass is written with exact operations,
      the properties stated of it are those that do not turn on the last
      bit of a double: thresholds are compared at whole numbers, sizes
      within a relative margin.
    - A canvas is an object of a store; [applyEffectsToCanvas] runs in that
      store and may throw a DOM exception. *)

From Stdlib Require Import Reals Lra.
From Stdlib Require Import ZArith QArith Qabs Qround Qminmax Qpower Qreals Lia Lqa.
From stdpp Require Import base list gmap strings.

Local Open Scope Z_scope.

(** ** JavaScript numbers *)

Module Num.

Inductive num : Type :=
  | NaN
  | Fin (q : Q).

Definition of_Z (z : Z) : num := Fin (inject_Z z).

Definition lift2 (f : Q → Q → Q) (a b : num) : num :=
  match a, b with
  | Fin x, Fin y => Fin (f x y)
  | _, _ => NaN
  end.

Definition add : num → num → num := lift2 Qplus.
Definition sub : num → num → num := lift2 Qminus.
Definition mul : num → num → num := lift2 Qmult.

(** [a / b]; the source divides by the literals 3, 16, 100 and 255 only. *)
Definition div : num → num → num := lift2 Qdiv.

(** [a > b]: false as soon as one side is [NaN]. *)
Definition gt (a b : num) : bool :=
  match a, b with
  | Fin x, Fin y => negb (Qle_bool x y)
  | _, _ => false
  end.

(** [Math.min] and [Math.max]: [NaN] as soon as one side is. *)
Definition min : num → num → num := lift2 Qmin.
Definition max : num → num → num := lift2 Qmax.

(** The conversion applied by every store into a [Uint8ClampedArray]
    (ECMAScript ToUint8Clamp): [NaN] becomes 0, the value is clamped to
    [0, 255] and rounded to the nearest integer, ties going to the even one. *)
Definition ToUint8Clamp (n : num) : Z :=
  match n with
  | NaN => 0
  | Fin q =>
      let clamped := Qmin 255 (Qmax 0 q) in
      let f := Qfloor clamped in
      match (clamped ?= inject_Z f + (1 # 2))%Q with
      | Lt => f
      | Gt => f + 1
      | Eq => if Z.even f then f else f + 1
      end
  end.

End Num.

Import Num.

Declare Scope num_scope.
Delimit Scope num_scope with num.
Bind Scope num_scope with num.
Infix "+" := Num.add : num_scope.
Infix "-" := Num.sub : num_scope.
Infix "*" := Num.mul : num_scope.
Infix "/" := Num.div : num_scope.
Coercion Num.of_Z : Z >-> num.

(** ** IEEE doubles *)

(** Rounding to the nearest integer, ties to the even one. *)
Definition round_half_even (q : Q) : Z :=
  let f := Qfloor q in
  match (q ?= inject_Z f + (1 # 2))%Q with
  | Lt => f
  | Gt => f + 1
  | Eq => if Z.even f then f else f + 1
  end.

(** The binary exponent of a rational other than 0: the [e] with
    [2^e <= |q| < 2^(e+1)]. *)
Definition exponent (q : Q) : Z :=
  let a := Qabs q in
  if Qle_bool 1 a then Z.log2 (Qfloor a)
  else - Z.log2_up (Qceiling (/ a)).

(** The double nearest to [q], ties going to the even significand: 53
    significant bits, and a spacing that never goes below [2^-1074]
    (gradual underflow).  The value is kept as a rational.  Overflow is not
    represented: past the largest double the value stays a finite rational
    of the same sign, where the code has an infinity; the grain pass, the
    one user, clamps either to the same byte before it stores it. *)
Definition binary64 (q : Q) : Q :=
  if Qeq_bool q 0 then 0
  else
    let e := Z.max (exponent q) (-1022) in
    let ulp := (2 ^ (e - 52))%Q in
    (inject_Z (round_half_even (q / ulp)) * ulp)%Q.

(** The arithmetic of JavaScript numbers: every operation is rounded. *)
Definition fadd : num → num → num := lift2 (λ x y, binary64 (x + y)).
Definition fsub : num → num → num := lift2 (λ x y, binary64 (x - y)).
Definition fmul : num → num → num := lift2 (λ x y, binary64 (x * y)).
Definition fdiv : num → num → num := lift2 (λ x y, binary64 (x / y)).

Notation "a ⊕ b" := (fadd a b) (at level 50, left associativity).
Notation "a ⊖ b" := (fsub a b) (at level 50, left associativity).
Notation "a ⊗ b" := (fmul a b) (at level 40, left associativity).
Notation "a ⊘ b" := (fdiv a b) (at level 40, left associativity).

(** ** Typed arrays *)

(** [data[i]] as a raw read: [None] is JavaScript's [undefined]. *)
Definition rdZ (data : list Z) (i : Z) : option Z :=
  if decide (0 ≤ i) then data !! Z.to_nat i else None.

(** [data[i]] used as a number: [undefined] converts to [NaN]. *)
Definition rd (data : list Z) (i : Z) : num :=
  match rdZ data i with
  | Some v => Num.of_Z v
  | None => NaN
  end.

(** [data[i] = v] for a byte [v]; an index outside the array is ignored. *)
Definition wrZ (data : list Z) (i : Z) (v : Z) : list Z :=
  if decide (0 ≤ i) then <[Z.to_nat i := v]> data else data.

(** [data[i] = n] for a number [n], converted by [ToUint8Clamp]. *)
Definition wr (data : list Z) (i : Z) (n : num) : list Z :=
  wrZ data i (ToUint8Clamp n).

(** [data.length] *)
Definition len (data : list Z) : Z := Z.of_nat (length data).

(** [new Uint8ClampedArray(n)]: [n] zero bytes. *)
Definition zeros (n : Z) : list Z := replicate (Z.to_nat n) 0.

(** ** Loops *)

(** [for (let i = lo; i < hi; i++) body] *)
Definition for_range {St : Type} (lo hi : Z) (body : Z → St → St) (s : St) : St :=
  foldl (λ s i, body i s) s (seqZ lo (hi - lo)).

(** [for (let i = 0; i < n; i += 4) body]: the index takes the values
    [0, 4, 8, ...] below [n]. *)
Definition for_step4 {St : Type} (n : Z) (body : Z → St → St) (s : St) : St :=
  foldl (λ s k, body (4 * k) s) s (seqZ 0 ((n + 3) `div` 4)).

(** ** Image data *)

Record ImageData : Type := mkImageData {
  data : list Z;
  width : Z;
  height : Z
}.

(** What the DOM guarantees of every [ImageData]: positive dimensions, four
    bytes per pixel, every byte in [0, 255]. *)
Definition bytes (l : list Z) : Prop := Forall (λ v, 0 ≤ v ≤ 255) l.

Record valid (img : ImageData) : Prop := mkValid {
  valid_width : 0 < width img;
  valid_height : 0 < height img;
  valid_length : len (data img) = width img * height img * 4;
  valid_bytes : bytes (data img)
}.

(** ** The raster effects of [effectsUtils.ts] *)

(** [applyThreshold]: the loop body for the pixel starting at byte [i]. *)
Definition threshold_pixel (threshold : Q) (i : Z) (data : list Z) : list Z :=
  let gray := ((rd data i + rd data (i + 1) + rd data (i + 2)) / 3)%num in
  let value := if Num.gt gray (Fin threshold) then 255 else 0 in
  let data := wrZ data i value in
  let data := wrZ data (i + 1) value in
  let data := wrZ data (i + 2) value in
  data.

(** The array is modified in place and wrapped in a new [ImageData]. *)
Definition applyThreshold (imageData : ImageData) (threshold : Q) : ImageData :=
  let data := for_step4 (len (data imageData)) (threshold_pixel threshold)
                (data imageData) in
  mkImageData data (width imageData) (height imageData).

(** [applyGamma].  The byte stored by
    [data[i] = Math.pow(data[i] / 255, 1 / gamma) * 255]
    for the raw read [v] of [data[i]], under exact real arithmetic.
    - [v] undefined: the power is [NaN], stored as 0.
    - [gamma = 0]: the exponent is [+Infinity]; the power of a base below 1
      is 0 and [Math.pow(1, Infinity)] is [NaN]: 0 is stored either way.
    - [gamma < 0]: the exponent is negative; the power of 0 is [+Infinity]
      and the power of a base in (0, 1] is at least 1: 255 is stored.
    - [gamma = a/b > 0]: [Math.pow(0, b/a)] is 0.  For [v > 0] the real value
      [y = 255 * (v/255)^(b/a)] satisfies [k - 1/2 <= y] exactly when
      [(2k-1)^a * 255^b <= v^b * 510^a]; the byte is the largest such [k] up
      to 255 (no tie arises: the two sides differ in parity).
    [pow_byte_real] proves that this is the byte nearest to [y]. *)
Fixpoint largest_below (fuel : nat) (test : Z → bool) : Z :=
  match fuel with
  | O => 0
  | S n => if test (Z.of_nat fuel) then Z.of_nat fuel else largest_below n test
  end.

Definition pow_byte (gamma : Q) (v : option Z) : Z :=
  match v with
  | None => 0
  | Some v =>
      let a := Qnum gamma in
      let b := Zpos (Qden gamma) in
      if a =? 0 then 0
      else if a <? 0 then 255
      else if v <=? 0 then 0
      else
        let lhs := v ^ b * 510 ^ a in
        let c := 255 ^ b in
        largest_below 255 (λ k, (2 * k - 1) ^ a * c <=? lhs)
  end.

Definition gamma_pixel (gamma : Q) (i : Z) (data : list Z) : list Z :=
  let data := wrZ data i (pow_byte gamma (rdZ data i)) in             (* Red *)
  let data := wrZ data (i + 1) (pow_byte gamma (rdZ data (i + 1))) in (* Green *)
  let data := wrZ data (i + 2) (pow_byte gamma (rdZ data (i + 2))) in (* Blue *)
  data.

Definition applyGamma (imageData : ImageData) (gamma : Q) : ImageData :=
  let data := for_step4 (len (data imageData)) (gamma_pixel gamma)
                (data imageData) in
  mkImageData data (width imageData) (height imageData).

(** [applyEdgeDetection] *)
Definition sobelX : list (list Z) := [[-1; 0; 1]; [-2; 0; 2]; [-1; 0; 1]].
Definition sobelY : list (list Z) := [[-1; -2; -1]; [0; 0; 0]; [1; 2; 1]].

(** [kernel[i][j]] *)
Definition kernel_at (kernel : list (list Z)) (i j : Z) : num :=
  match kernel !! Z.to_nat i with
  | Some row => rd row j
  | None => NaN
  end.

(** The two inner loops: the Sobel sums at pixel [(x, y)]. *)
Definition sobel_at (data : list Z) (width x y : Z) : num * num :=
  for_range (-1) 2 (λ i acc,
    for_range (-1) 2 (λ j '(pixelX, pixelY),
      let idx := ((y + i) * width + (x + j)) * 4 in
      let gray := ((rd data idx + rd data (idx + 1) + rd data (idx + 2)) / 3)%num in
      ((pixelX + gray * kernel_at sobelX (i + 1) (j + 1))%num,
       (pixelY + gray * kernel_at sobelY (i + 1) (j + 1))%num)) acc)
    (0 : num, 0 : num).

(** The byte stored for [Math.sqrt(n)] under exact real arithmetic.  With
    [m = floor (2 * sqrt q)], computed as the integer square root of
    [floor (4 * q)], the root is at least 255 when [510 <= m], lies below
    [floor + 1/2] when [m] is even and at or above it when [m] is odd, the
    tie being [4 * q = m * m].  [sqrt_byte_real] proves that this is the
    rounding of the real square root. *)
Definition sqrt_byte (n : num) : Z :=
  match n with
  | NaN => 0
  | Fin q =>
      if Qle_bool 0 q then
        let m := Z.sqrt (Qfloor (4 * q)) in
        let f := m `div` 2 in
        if 510 <=? m then 255
        else if Z.even m then f
        else if Qeq_bool (4 * q) (inject_Z (m * m)) then
               (if Z.even f then f else f + 1)
        else f + 1
      else 0
  end.

Definition edge_pixel (data : list Z) (width x y : Z) (newData : list Z) : list Z :=
  let '(pixelX, pixelY) := sobel_at data width x y in
  let magnitude := sqrt_byte (pixelX * pixelX + pixelY * pixelY)%num in
  let idx := (y * width + x) * 4 in
  let newData := wrZ newData idx magnitude in       (* Red *)
  let newData := wrZ newData (idx + 1) magnitude in (* Green *)
  let newData := wrZ newData (idx + 2) magnitude in (* Blue *)
  let newData := wrZ newData (idx + 3) 255 in       (* Alpha *)
  newData.

Definition applyEdgeDetection (imageData : ImageData) : ImageData :=
  let data := data imageData in
  let width := width imageData in
  let height := height imageData in
  let newData := zeros (len data) in
  let newData :=
    for_range 1 (height - 1) (λ y,
      for_range 1 (width - 1) (λ x, edge_pixel data width x y)) newData in
  mkImageData newData width height.

(** [applyRGBShift]; the amount is a whole number of pixels.  The source
    columns of the red and of the blue channel of column [x]: *)
Definition redX (width amount x : Z) : Z := Z.min (width - 1) (x + amount).
Definition blueX (width amount x : Z) : Z := Z.max 0 (x - amount).

Definition rgbshift_pixel (data : list Z) (width amount x y : Z)
    (newData : list Z) : list Z :=
  let idx := (y * width + x) * 4 in
  (* Red channel - shift right *)
  let redIdx := (y * width + redX width amount x) * 4 in
  let newData := wr newData idx (rd data redIdx) in
  (* Green channel - no shift *)
  let newData := wr newData (idx + 1) (rd data (idx + 1)) in
  (* Blue channel - shift left *)
  let blueIdx := (y * width + blueX width amount x) * 4 in
  let newData := wr newData (idx + 2) (rd data (blueIdx + 2)) in
  let newData := wr newData (idx + 3) (rd data (idx + 3)) in (* Alpha *)
  newData.

Definition applyRGBShift (imageData : ImageData) (amount : Z) : ImageData :=
  let data := data imageData in
  let width := width imageData in
  let height := height imageData in
  let newData := zeros (len data) in
  let newData :=
    for_range 0 height (λ y,
      for_range 0 width (λ x, rgbshift_pixel data width amount x y)) newData in
  mkImageData newData width height.

(** [applyDithering] (Floyd-Steinberg), one channel [c] of pixel [(x, y)]. *)
Definition diffuse (data : list Z) (i : Z) (error : num) (weight : Z) : list Z :=
  wr data i (Num.min 255 (Num.max 0 (rd data i + error * weight / 16)))%num.

Definition dither_channel (width height x y c : Z) (data : list Z) : list Z :=
  let idx := (y * width + x) * 4 in
  let oldPixel := rd data (idx + c) in
  let newPixel := if Num.gt oldPixel (128)%num then 255 else 0 in
  let data := wrZ data (idx + c) newPixel in
  let error := (oldPixel - newPixel)%num in
  (* Distribute error to neighboring pixels *)
  let data :=
    if decide (x + 1 < width) then
      let rightIdx := (y * width + (x + 1)) * 4 in
      diffuse data (rightIdx + c) error 7
    else data in
  if decide (y + 1 < height) then
    let data :=
      if decide (x > 0) then
        let bottomLeftIdx := ((y + 1) * width + (x - 1)) * 4 in
        diffuse data (bottomLeftIdx + c) error 3
      else data in
    let bottomIdx := ((y + 1) * width + x) * 4 in
    let data := diffuse data (bottomIdx + c) error 5 in
    if decide (x + 1 < width) then
      let bottomRightIdx := ((y + 1) * width + (x + 1)) * 4 in
      diffuse data (bottomRightIdx + c) error 1
    else data
  else data.

Definition applyDithering (imageData : ImageData) : ImageData :=
  let width := width imageData in
  let height := height imageData in
  let data :=
    for_range 0 height (λ y,
      for_range 0 width (λ x,
        for_range 0 3 (λ c, dither_channel width height x y c)))
      (data imageData) in
  mkImageData data width height.

(** ** The grain pass of the grid component *)

(** [Math.random()] is the only source of randomness; it is modelled by an
    infinite sequence [rng] of draws in [0, 1) and the number of draws
    already consumed, which each call advances by one.  The noise and the
    sums are doubles: [⊖ ⊗ ⊘ ⊕] round each result. *)
Definition Math_random (rng : nat → Q) (n : nat) : num * nat :=
  (Fin (rng n), S n).

Definition grain_pixel (rng : nat → Q) (opacity : Q) (i : Z)
    (st : list Z * nat) : list Z * nat :=
  let '(data, n) := st in
  let '(r, n) := Math_random rng n in
  let noise := (r ⊖ Fin (1 # 2)) ⊗ (Fin opacity ⊘ 100) ⊗ 255 in
  let data := wr data i (Num.max 0 (Num.min 255 (rd data i ⊕ noise))) in
  let data := wr data (i + 1) (Num.max 0 (Num.min 255 (rd data (i + 1) ⊕ noise))) in
  let data := wr data (i + 2) (Num.max 0 (Num.min 255 (rd data (i + 2) ⊕ noise))) in
  (data, n).

(** [applyGrainEffect], on the pixel array that [ctx.getImageData] hands out
    and [ctx.putImageData] writes back; the draw counter is threaded. *)
Definition applyGrainEffect (rng : nat → Q) (opacity : Q)
    (st : list Z * nat) : list Z * nat :=
  for_step4 (len st.1) (grain_pixel rng opacity) st.

(** The grain pass as the specification words it, for comparison with the
    source: a separate draw for each of the three channels of each pixel. *)
Definition grain_channel_spec (rng : nat → Q) (opacity : Q) (i : Z)
    (st : list Z * nat) : list Z * nat :=
  let '(data, n) := st in
  let '(r, n) := Math_random rng n in
  let noise := (r ⊖ Fin (1 # 2)) ⊗ (Fin opacity ⊘ 100) ⊗ 255 in
  (wr data i (Num.max 0 (Num.min 255 (rd data i ⊕ noise))), n).

Definition grain_pixel_spec (rng : nat → Q) (opacity : Q) (i : Z)
    (st : list Z * nat) : list Z * nat :=
  grain_channel_spec rng opacity (i + 2)
    (grain_channel_spec rng opacity (i + 1)
       (grain_channel_spec rng opacity i st)).

Definition grain_spec (rng : nat → Q) (opacity : Q)
    (st : list Z * nat) : list Z * nat :=
  for_step4 (len st.1) (grain_pixel_spec rng opacity) st.

(** ** Effect descriptors ([types/index.ts]) *)

Inductive EffectType : Type :=
  | Blur | Grain | Gamma | Threshold | Stippling | Halftone | EdgeDetection
  | Vignette | RgbShift | CrtScreen | LedScreen | Dithering.

Inductive Shape : Type := Circle | Square.

(** Every entry of [EffectConfig] is optional; an entry with a single field
    is represented by that field. *)
Record EffectConfig : Type := mkEffectConfig {
  cfg_blur : option Q;                 (* radius *)
  cfg_grain : option Q;                (* opacity *)
  cfg_gamma : option Q;                (* value *)
  cfg_threshold : option Q;            (* value *)
  cfg_stippling : option (Q * Q);      (* density, dotSize *)
  cfg_halftone : option (Q * Q * Shape); (* dotSize, angle, shape *)
  cfg_vignette : option Q;             (* strength *)
  cfg_rgbShift : option Z;             (* amount *)
  cfg_crtScreen : option (Q * Q);      (* scanlineIntensity, curvature *)
  cfg_ledScreen : option (Q * Q)       (* pixelSize, gap *)
}.

Definition empty_config : EffectConfig :=
  mkEffectConfig None None None None None None None None None None.

(** The [id] string [`${type}-${Date.now()}`] is kept as its two parts. *)
Record ImageEffect : Type := mkImageEffect {
  id : EffectType * Z;
  type : EffectType;
  enabled : bool;
  config : EffectConfig
}.

Definition defaultConfigs (type : EffectType) : EffectConfig :=
  match type with
  | Blur => mkEffectConfig (Some 2%Q) None None None None None None None None None
  | Grain => mkEffectConfig None (Some 30%Q) None None None None None None None None
  | Gamma => mkEffectConfig None None (Some (6 # 5)) None None None None None None None
  | Threshold => mkEffectConfig None None None (Some 128%Q) None None None None None None
  | Stippling => mkEffectConfig None None None None (Some (50%Q, 2%Q)) None None None None None
  | Halftone => mkEffectConfig None None None None None (Some (4%Q, 45%Q, Circle)) None None None None
  | EdgeDetection => empty_config
  | Vignette => mkEffectConfig None None None None None None (Some 50%Q) None None None
  | RgbShift => mkEffectConfig None None None None None None None (Some 3) None None
  | CrtScreen => mkEffectConfig None None None None None None None None (Some (30%Q, 10%Q)) None
  | LedScreen => mkEffectConfig None None None None None None None None None (Some (3%Q, 1%Q))
  | Dithering => empty_config
  end.

(** [createDefaultEffect]; [now] is the value of [Date.now()]. *)
Definition createDefaultEffect (now : Z) (type : EffectType) : ImageEffect :=
  mkImageEffect (type, now) type true (defaultConfigs type).

(** [entry?.field || dflt]: the default replaces a missing entry and a
    falsy (zero) value. *)
Definition or_default (v : option Q) (dflt : Q) : Q :=
  match v with
  | Some q => if Qeq_bool q 0 then dflt else q
  | None => dflt
  end.

Definition or_defaultZ (v : option Z) (dflt : Z) : Z :=
  match v with
  | Some z => if z =? 0 then dflt else z
  | None => dflt
  end.

(** ** The pipeline entry point *)

(** One turn of the loop over [effects] in [applyEffectsToCanvas]. *)
Definition apply_effect (processedData : ImageData) (effect : ImageEffect)
    : ImageData :=
  if negb (enabled effect) then processedData
  else
    match type effect with
    | Gamma =>
        applyGamma processedData (or_default (cfg_gamma (config effect)) 1)
    | Threshold =>
        applyThreshold processedData (or_default (cfg_threshold (config effect)) 128)
    | EdgeDetection => applyEdgeDetection processedData
    | RgbShift =>
        applyRGBShift processedData (or_defaultZ (cfg_rgbShift (config effect)) 3)
    | Dithering => applyDithering processedData
    | _ => processedData
    end.

(** *** Canvases *)

(** A canvas element: its bitmap, whether [getContext('2d')] yields a
    context, and the blur radii of its [style.filter] (the string
    [blur(r1px) blur(r2px) ...]; empty when no filter is set). *)
Record Canvas : Type := mkCanvas {
  cv_width : Z;
  cv_height : Z;
  cv_pixels : list Z;
  cv_ctx2d : bool;
  cv_filter : list Q
}.

(** The document: the canvases created so far, by reference, and whether a
    canvas created from now on supports a 2d context. *)
Record Document : Type := mkDocument {
  canvases : gmap nat Canvas;
  new_ctx2d : bool
}.

Inductive completion (A : Type) : Type :=
  | Normal (a : A)
  | Throw (name : string).
Arguments Normal {A} a.
Arguments Throw {A} name.

(** [ctx.getImageData(0, 0, canvas.width, canvas.height)]: a copy of the
    bitmap; the DOM throws an [IndexSizeError] for an empty rectangle. *)
Definition getImageData (cv : Canvas) : completion ImageData :=
  if decide (cv_width cv = 0 ∨ cv_height cv = 0) then Throw "IndexSizeError"
  else Normal (mkImageData (cv_pixels cv) (cv_width cv) (cv_height cv)).

(** [document.createElement('canvas')] followed by the assignments of
    [width] and [height]: a new object with a transparent black bitmap. *)
Definition createCanvas (w h : Z) (doc : Document) : nat * Document :=
  let r := fresh (dom (canvases doc)) in
  (r, mkDocument
        (<[r := mkCanvas w h (zeros (w * h * 4)) (new_ctx2d doc) []]> (canvases doc))
        (new_ctx2d doc)).

(** [ctx.putImageData(img, 0, 0)]: the pixels of [img] that fall inside the
    bitmap replace the bitmap's. *)
Definition putImageData (img : ImageData) (cv : Canvas) : Canvas :=
  let px (j : Z) : Z :=
    let p := j `div` 4 in
    let x := p `mod` cv_width cv in
    let y := p `div` cv_width cv in
    if decide (x < width img ∧ y < height img) then
      default 0 (rdZ (data img) ((y * width img + x) * 4 + j `mod` 4))
    else default 0 (rdZ (cv_pixels cv) j) in
  mkCanvas (cv_width cv) (cv_height cv) (px <$> seqZ 0 (len (cv_pixels cv)))
    (cv_ctx2d cv) (cv_filter cv).

(** [applyCanvasEffects]: the CSS filter of the enabled blur effects. *)
Definition canvas_filters (effects : list ImageEffect) : list Q :=
  foldl (λ filters effect,
           if negb (enabled effect) then filters
           else match type effect with
                | Blur => filters ++ [or_default (cfg_blur (config effect)) 2]
                | _ => filters
                end) [] effects.

Definition applyCanvasEffects (effects : list ImageEffect) (cv : Canvas) : Canvas :=
  let filters := canvas_filters effects in
  if decide (0 < length filters)%nat then
    mkCanvas (cv_width cv) (cv_height cv) (cv_pixels cv) (cv_ctx2d cv) filters
  else cv.

(** [applyEffectsToCanvas].  The canvas is a reference into the document. *)
Definition applyEffectsToCanvas (canvas : nat) (effects : list ImageEffect)
    (doc : Document) : completion (nat * Document) :=
  match canvases doc !! canvas with
  | None => Throw "TypeError"
  | Some cv =>
      if negb (cv_ctx2d cv) then Normal (canvas, doc)
      else
        match getImageData cv with
        | Throw e => Throw e
        | Normal imageData =>
            (* new ImageData(new Uint8ClampedArray(imageData.data), ...) *)
            let processedData :=
              mkImageData (data imageData) (width imageData) (height imageData) in
            (* Apply effects in order *)
            let processedData := foldl apply_effect processedData effects in
            (* Create new canvas with processed data *)
            let '(processedCanvas, doc) :=
              createCanvas (cv_width cv) (cv_height cv) doc in
            let doc :=
              if new_ctx2d doc then
                mkDocument
                  (alter (λ c, applyCanvasEffects effects (putImageData processedData c))
                     processedCanvas (canvases doc))
                  (new_ctx2d doc)
              else doc in
            Normal (processedCanvas, doc)
        end
  end.

(** The caller in [downloadUtils.ts]: the pipeline is only entered when some
    effect is enabled; otherwise the canvas itself is exported. *)
Definition finalCanvas (downloadCanvas : nat) (effects : list ImageEffect)
    (doc : Document) : completion (nat * Document) :=
  if existsb enabled effects then applyEffectsToCanvas downloadCanvas effects doc
  else Normal (downloadCanvas, doc).

(** ** Auxiliary definitions of the statements *)

(** The byte that [applyThreshold] gives the three colour channels of pixel
    [p] of the array [l]. *)
Definition threshold_value (t : Q) (l : list Z) (p : Z) : Z :=
  if Num.gt ((rd l (4 * p) + rd l (4 * p + 1) + rd l (4 * p + 2)) / 3)%num (Fin t)
  then 255 else 0.

(** The state of the dithering pass once the first [p] pixels (in
    row-major order) have been visited, starting from [data0]: the array
    has kept its length, the colour bytes of the visited pixels are 0 or
    255, and every alpha byte is the one of [data0]. *)
Definition dithered (data0 : list Z) (p : Z) (s : list Z) : Prop :=
  len s = len data0
  ∧ (∀ q c, 0 ≤ q < p → 0 ≤ c < 3 →
       rdZ s (4 * q + c) = Some 0 ∨ rdZ s (4 * q + c) = Some 255)
  ∧ (∀ q, rdZ s (4 * q + 3) = rdZ data0 (4 * q + 3)).

(** A buffer of one colour: every pixel has the red, green and blue bytes
    [r], [g] and [b] (the alpha bytes are free). *)
Definition uniform (img : ImageData) (r g b : Z) : Prop :=
  ∀ p, 0 ≤ p < width img * height img →
    rdZ (data img) (p * 4) = Some r
    ∧ rdZ (data img) (p * 4 + 1) = Some g
    ∧ rdZ (data img) (p * 4 + 2) = Some b.

(** Pixel [(x, y)] is at least one cell away from the border. *)
Definition interior (img : ImageData) (x y : Z) : Prop :=
  1 ≤ x < width img - 1 ∧ 1 ≤ y < height img - 1.

(** The four bytes of pixel [(x, y)] of an array of rows of [w] pixels, and
    of an image. *)
Definition pixel_of (l : list Z) (w x y : Z) : list (option Z) :=
  let idx := (y * w + x) * 4 in
  [rdZ l idx; rdZ l (idx + 1); rdZ l (idx + 2); rdZ l (idx + 3)].

Definition pixel_at (img : ImageData) (x y : Z) : list (option Z) :=
  pixel_of (data img) (width img) x y.

(** The output array of the Sobel pass on a buffer of one colour once the
    rows below [Y] are done and, in row [Y], the columns below [X]: the
    interior pixels visited so far are opaque black, every other byte is
    still zero. *)
Definition edged (img : ImageData) (Y X : Z) (s : list Z) : Prop :=
  len s = len (data img)
  ∧ ∀ x y c, 0 ≤ x < width img → 0 ≤ y < height img → 0 ≤ c < 4 →
      rdZ s ((y * width img + x) * 4 + c)
      = Some (if decide (c = 3 ∧ (1 ≤ x < width img - 1 ∧ 1 ≤ y < height img - 1)
                         ∧ (y < Y ∨ y = Y ∧ x < X))
              then 255 else 0).

(** The four source bytes of output pixel [(x, y)] of the RGB shift, and the
    output array once the rows below [Y] are done and, in row [Y], the
    columns below [X]. *)
Definition shift_sources (img : ImageData) (amount x y : Z) : list (option Z) :=
  let w := width img in
  [rdZ (data img) ((y * w + redX w amount x) * 4);
   rdZ (data img) ((y * w + x) * 4 + 1);
   rdZ (data img) ((y * w + blueX w amount x) * 4 + 2);
   rdZ (data img) ((y * w + x) * 4 + 3)].

Definition shifted (img : ImageData) (amount Y X : Z) (s : list Z) : Prop :=
  len s = len (data img)
  ∧ ∀ x y, 0 ≤ x < width img → 0 ≤ y < height img → y < Y ∨ y = Y ∧ x < X →
      pixel_of s (width img) x y = shift_sources img amount x y.

(** A column clamped to the buffer. *)
Definition clamp_col (width c : Z) : Z := Z.max 0 (Z.min (width - 1) c).

(** What the specification says of [applyRGBShift] for a shift [amount]:
    the source columns of the red and blue channels stay inside the buffer,
    and every output pixel takes its red byte from column
    [clamp (x + amount)], its blue byte from column [clamp (x - amount)] of
    the same row, and its green and alpha bytes from its own position. *)
Definition rgbshift_clamped (img : ImageData) (amount : Z) : Prop :=
  let w := width img in
  ∀ x y, 0 ≤ x < w → 0 ≤ y < height img →
    0 ≤ redX w amount x ≤ w - 1
    ∧ 0 ≤ blueX w amount x ≤ w - 1
    ∧ pixel_at (applyRGBShift img amount) x y
      = [rdZ (data img) ((y * w + clamp_col w (x + amount)) * 4);
         rdZ (data img) ((y * w + x) * 4 + 1);
         rdZ (data img) ((y * w + clamp_col w (x - amount)) * 4 + 2);
         rdZ (data img) ((y * w + x) * 4 + 3)].

(** The noise of the [k]-th draw, and the byte the grain pass stores for a
    channel read as [v] with that noise. *)
Definition grain_noise (rng : nat → Q) (opacity : Q) (k : nat) : num :=
  (Fin (rng k) ⊖ Fin (1 # 2)) ⊗ (Fin opacity ⊘ 100) ⊗ 255.

Definition grain_byte (noise : num) (v : num) : Z :=
  ToUint8Clamp (Num.max 0 (Num.min 255 (v ⊕ noise))).

(** What the specification says of the grain pass: it agrees with the pass
    that draws a separate sample for every channel. *)
Definition grain_per_channel (rng : nat → Q) (opacity : Q) (st : list Z * nat)
    : Prop :=
  applyGrainEffect rng opacity st = grain_spec rng opacity st.

(** A sequence of draws: 3/4 first, 1/4 ever after. *)
Definition sample_rng (n : nat) : Q :=
  match n with
  | O => 3 # 4
  | _ => 1 # 4
  end.

(** What the specification says of the gamma pass with parameter [g]
    followed by the pass with parameter [1 / g]: every red, green and blue
    byte comes back within 1 of the original and the alpha byte is
    untouched. *)
Definition gamma_round_trip (img : ImageData) (g : Q) : Prop :=
  let out := applyGamma (applyGamma img g) (/ g) in
  ∀ p, 0 ≤ p < width img * height img →
    rdZ (data out) (4 * p + 3) = rdZ (data img) (4 * p + 3)
    ∧ ∀ c, 0 ≤ c < 3 →
        ∃ v v', rdZ (data img) (4 * p + c) = Some v
                ∧ rdZ (data out) (4 * p + c) = Some v'
                ∧ v - 1 ≤ v' ≤ v + 1.

(** What the DOM guarantees of every canvas: a bitmap of four bytes per
    pixel.  (The width or the height may be zero.) *)
Record canvas_ok (cv : Canvas) : Prop := mkCanvasOk {
  canvas_width : 0 ≤ cv_width cv;
  canvas_height : 0 ≤ cv_height cv;
  canvas_length : len (cv_pixels cv) = cv_width cv * cv_height cv * 4
}.

(** What the specification says of an empty or all-disabled chain: the
    call hands back the very canvas it was given, in an unchanged document. *)
Definition passes_through (canvas : nat) (effects : list ImageEffect)
    (doc : Document) : Prop :=
  applyEffectsToCanvas canvas effects doc = Normal (canvas, doc).

(** What the specification says of a malformed buffer (a width or height
    that is not positive, or a length that is not width * height * 4): the
    call fails with an [InvalidBufferError]. *)
Definition malformed (cv : Canvas) : Prop :=
  cv_width cv ≤ 0 ∨ cv_height cv ≤ 0
  ∨ len (cv_pixels cv) ≠ cv_width cv * cv_height cv * 4.

Definition rejects_malformed (canvas : nat) (effects : list ImageEffect)
    (doc : Document) : Prop :=
  ∀ cv, canvases doc !! canvas = Some cv → malformed cv →
    applyEffectsToCanvas canvas effects doc = Throw "InvalidBufferError".

(** A document with one canvas of one pixel, and one with an empty canvas. *)
Definition one_pixel_doc : Document :=
  mkDocument {[ 0%nat := mkCanvas 1 1 [10; 20; 30; 255] true [] ]} true.

Definition empty_canvas_doc : Document :=
  mkDocument {[ 0%nat := mkCanvas 0 0 [] true [] ]} true.

(** Two images of the same dimensions and length. *)
Definition same_shape (a b : ImageData) : Prop :=
  width b = width a ∧ height b = height a ∧ len (data b) = len (data a).

(** Sample images: a 2x2 image, and a 3x3 image of one colour. *)
Definition sample_image : ImageData :=
  mkImageData
    [10; 20; 30; 255; 200; 200; 200; 128; 0; 90; 130; 0; 255; 127; 129; 7] 2 2.

Definition flat_image : ImageData :=
  mkImageData (concat (replicate 9 [1; 0; 0; 77])) 3 3.

(** A gamma descriptor whose config has no [gamma] entry. *)
Definition bare_gamma : ImageEffect :=
  mkImageEffect (Gamma, 0) Gamma true empty_config.

(** ** Further definitions: the effects *)

(** The kinds that [applyEffectsToCanvas] handles on the pixel array. *)
Definition raster (type : EffectType) : bool :=
  match type with
  | Gamma | Threshold | EdgeDetection | RgbShift | Dithering => true
  | _ => false
  end.

(** The byte that [newData[i] = data[j]] stores: the byte read, or 0 when
    the read is outside the array ([undefined] is stored as 0). *)
Definition copied (data : list Z) (j : Z) : Z := default 0 (rdZ data j).

(** An image whose red, green and blue bytes are all 0 or 255. *)
Definition binary (img : ImageData) : Prop :=
  ∀ p c, 0 ≤ p < width img * height img → 0 ≤ c < 3 →
    rdZ (data img) (4 * p + c) = Some 0 ∨ rdZ (data img) (4 * p + c) = Some 255.

(** The output array of [applyRGBShift] for any amount, once the rows below
    [Y] are done and, in row [Y], the columns below [X]. *)
(** The four bytes that [applyRGBShift] stores at output pixel [(x, y)], for
    any [amount]: the red and the blue byte are copied from the shifted
    columns, the green and the alpha byte from the pixel itself. *)
Definition shift_copied (img : ImageData) (amount x y : Z) : list (option Z) :=
  let w := width img in
  [Some (copied (data img) ((y * w + redX w amount x) * 4));
   rdZ (data img) ((y * w + x) * 4 + 1);
   Some (copied (data img) ((y * w + blueX w amount x) * 4 + 2));
   rdZ (data img) ((y * w + x) * 4 + 3)].

Definition shifting (img : ImageData) (amount Y X : Z) (s : list Z) : Prop :=
  len s = len (data img)
  ∧ ∀ x y, 0 ≤ x < width img → 0 ≤ y < height img → y < Y ∨ y = Y ∧ x < X →
      pixel_of s (width img) x y = shift_copied img amount x y.

Definition magnitude_at (img : ImageData) (x y : Z) : Z :=
  let '(pixelX, pixelY) := sobel_at (data img) (width img) x y in
  sqrt_byte (pixelX * pixelX + pixelY * pixelY)%num.

(** The output array of [applyEdgeDetection] once the rows below [Y] are
    done and, in row [Y], the columns below [X]. *)
Definition edging (img : ImageData) (Y X : Z) (s : list Z) : Prop :=
  len s = len (data img)
  ∧ ∀ x y, 0 ≤ x < width img → 0 ≤ y < height img →
      pixel_of s (width img) x y
      = if decide ((1 ≤ x < width img - 1 ∧ 1 ≤ y < height img - 1)
                   ∧ (y < Y ∨ y = Y ∧ x < X))
        then [Some (magnitude_at img x y); Some (magnitude_at img x y);
              Some (magnitude_at img x y); Some 255]
        else [Some 0; Some 0; Some 0; Some 0].

(** ** Further definitions: the pipeline *)

(** The kinds that neither [applyEffectsToCanvas] nor [applyCanvasEffects]
    has a case for. *)
Definition ignored (type : EffectType) : bool :=
  match type with
  | Grain | Stippling | Halftone | Vignette | CrtScreen | LedScreen => true
  | _ => false
  end.

Definition is_blur (type : EffectType) : bool :=
  match type with
  | Blur => true
  | _ => false
  end.

(** The radius [effect.config.blur?.radius || 2] of every enabled blur
    descriptor, in the order of the chain. *)
Definition blur_radii (effects : list ImageEffect) : list Q :=
  (λ e, or_default (cfg_blur (config e)) 2)
    <$> List.filter (λ e, enabled e && is_blur (type e)) effects.

(** The enabled descriptors of the kinds handled on the pixel array. *)
Definition raster_chain (effects : list ImageEffect) : list ImageEffect :=
  List.filter (λ e, enabled e && raster (type e)) effects.

(** ** The effects panel ([EffectsPanel.tsx]) *)

#[global] Instance EffectType_eq_dec : EqDecision EffectType.
Proof. solve_decision. Defined.

(** The handlers of the panel: each computes a chain from the [effects] prop
    and hands it to [onEffectsChange].  [now] is the value of [Date.now()]
    inside [createDefaultEffect]. *)
Definition addEffect (now : Z) (type : EffectType) (effects : list ImageEffect)
    : list ImageEffect :=
  let newEffect := createDefaultEffect now type in
  effects ++ [newEffect].

Definition removeEffect (i : EffectType * Z) (effects : list ImageEffect)
    : list ImageEffect :=
  List.filter (λ effect, negb (bool_decide (id effect = i))) effects.

Definition toggleEffect (i : EffectType * Z) (effects : list ImageEffect)
    : list ImageEffect :=
  (λ effect,
     if bool_decide (id effect = i)
     then mkImageEffect (id effect) (type effect) (negb (enabled effect))
            (config effect)
     else effect) <$> effects.

Definition updateEffectConfig (i : EffectType * Z) (config : EffectConfig)
    (effects : list ImageEffect) : list ImageEffect :=
  (λ effect,
     if bool_decide (id effect = i)
     then mkImageEffect (id effect) (type effect) (enabled effect) config
     else effect) <$> effects.

Inductive Direction : Type := Up | Down.

(** [effects.findIndex(effect => effect.id === id)]: the first position that
    matches, -1 when there is none. *)
Fixpoint findIndex (i : EffectType * Z) (effects : list ImageEffect) : Z :=
  match effects with
  | [] => -1
  | effect :: rest =>
      if bool_decide (id effect = i) then 0
      else let k := findIndex i rest in
           if decide (k = -1) then -1 else k + 1
  end.

(** [moveEffect]: [None] when the handler returns without calling
    [onEffectsChange].  The swap reads both cells before it writes them; both
    positions are inside the array once the two guards are passed. *)
Definition moveEffect (i : EffectType * Z) (direction : Direction)
    (effects : list ImageEffect) : option (list ImageEffect) :=
  let index := findIndex i effects in
  if decide (index = -1) then None
  else
    let newIndex :=
      match direction with
      | Up => index - 1
      | Down => index + 1
      end in
    if decide (newIndex < 0 ∨ Z.of_nat (length effects) ≤ newIndex) then None
    else
      match effects !! Z.to_nat newIndex, effects !! Z.to_nat index with
      | Some a, Some b =>
          Some (<[Z.to_nat newIndex := b]> (<[Z.to_nat index := a]> effects))
      | _, _ => None
      end.

(** No descriptor of the chain has the id [i]. *)
Definition absent (i : EffectType * Z) (effects : list ImageEffect) : Prop :=
  Forall (λ e, id e ≠ i) effects.

(** ** The grid component ([ColorGrid.tsx]) *)



Definition is_vignette (type : EffectType) : bool :=
  match type with
  | Vignette => true
  | _ => false
  end.

(** [applyCSSEffects].  The container is seen through the strengths of its
    [.vignette-overlay] children, in document order: [querySelector] finds
    the first one, [remove] takes it out and [appendChild] adds the new one
    last.  The result is the canvas with its new [style.filter] and the
    overlays of the container. *)
Definition applyCSSEffects (effects : list ImageEffect) (cv : Canvas)
    (overlays : list Q) : Canvas * list Q :=
  let '(filters, hasVignette) :=
    foldl (λ '(filters, hasVignette) effect,
             if negb (enabled effect) then (filters, hasVignette)
             else match type effect with
                  | Blur =>
                      (filters ++ [or_default (cfg_blur (config effect)) 2],
                       hasVignette)
                  | Vignette => (filters, true)
                  | _ => (filters, hasVignette)
                  end) ([], false) effects in
  let cv := mkCanvas (cv_width cv) (cv_height cv) (cv_pixels cv) (cv_ctx2d cv)
              filters in
  if hasVignette then
    match List.find (λ e, is_vignette (type e) && enabled e) effects with
    | Some vignetteEffect =>
        let strength := or_default (cfg_vignette (config vignetteEffect)) 50 in
        (cv, tail overlays ++ [strength])
    | None => (cv, overlays)
    end
  else (cv, tail overlays).

(** The strength of the overlay that the chain asks for: that of its first
    enabled vignette descriptor, 50 when it has none or 0. *)
Definition vignette_strength (effects : list ImageEffect) : option Q :=
  (λ e, or_default (cfg_vignette (config e)) 50)
    <$> List.find (λ e, is_vignette (type e) && enabled e) effects.

(** ** Sample data *)

(** A black and white image of two pixels, and a 3x3 image whose right
    column is gray (30) and whose other pixels are black. *)
Definition bw_image : ImageData :=
  mkImageData [0; 255; 255; 9; 255; 0; 0; 200] 2 1.

Definition step_image : ImageData :=
  mkImageData [0; 0; 0; 255; 0; 0; 0; 255; 30; 30; 30; 255;
               0; 0; 0; 255; 0; 0; 0; 255; 30; 30; 30; 255;
               0; 0; 0; 255; 0; 0; 0; 255; 30; 30; 30; 255] 3 3.

(** * Properties *)

(** Linear goals that mention [`div`] and [`mod`] by a literal. *)
Ltac zdiv := Z.to_euclidean_division_equations; lia.

(** ** Typed arrays *)

Lemma len_nonneg (l : list Z) : 0 ≤ len l.
Proof. unfold len. lia. Qed.

Lemma len_wrZ (l : list Z) i v : len (wrZ l i v) = len l.
Proof. unfold wrZ, len. case_decide; [by rewrite length_insert | done]. Qed.

Lemma len_wr (l : list Z) i n : len (wr l i n) = len l.
Proof. apply len_wrZ. Qed.

Lemma len_zeros n : 0 ≤ n → len (zeros n) = n.
Proof. intros. unfold len, zeros. rewrite length_replicate. lia. Qed.

Lemma rdZ_Some_range (l : list Z) i v : rdZ l i = Some v → 0 ≤ i < len l.
Proof.
  unfold rdZ, len. case_decide; [|done].
  intros H1%lookup_lt_Some. lia.
Qed.

Lemma rdZ_in_range (l : list Z) i : 0 ≤ i < len l → is_Some (rdZ l i).
Proof.
  unfold rdZ, len. intros. rewrite decide_True by lia.
  apply lookup_lt_is_Some. lia.
Qed.

Lemma rdZ_out_of_range (l : list Z) i : ¬ (0 ≤ i < len l) → rdZ l i = None.
Proof.
  unfold rdZ, len. intros. case_decide; [|done].
  apply lookup_ge_None. lia.
Qed.

Lemma rdZ_wrZ_eq (l : list Z) i v : 0 ≤ i < len l → rdZ (wrZ l i v) i = Some v.
Proof.
  unfold rdZ, wrZ, len. intros. rewrite !decide_True by lia.
  apply list_lookup_insert_eq. lia.
Qed.

Lemma rdZ_wrZ_ne (l : list Z) i j v : i ≠ j → rdZ (wrZ l i v) j = rdZ l j.
Proof.
  unfold rdZ, wrZ. intros. repeat case_decide; try done.
  apply list_lookup_insert_ne. lia.
Qed.

Lemma rdZ_wr_ne (l : list Z) i j n : i ≠ j → rdZ (wr l i n) j = rdZ l j.
Proof. apply rdZ_wrZ_ne. Qed.

Lemma rdZ_zeros n i : 0 ≤ i < n → rdZ (zeros n) i = Some 0.
Proof.
  intros. unfold rdZ, zeros. rewrite decide_True by lia.
  apply lookup_replicate_2. lia.
Qed.

Lemma rdZ_ext (l1 l2 : list Z) : (∀ i, rdZ l1 i = rdZ l2 i) → l1 = l2.
Proof.
  intros H. apply list_eq. intros n.
  specialize (H (Z.of_nat n)). unfold rdZ in H.
  rewrite !decide_True, Nat2Z.id in H by lia. done.
Qed.

Lemma rdZ_bytes (l : list Z) i v : bytes l → rdZ l i = Some v → 0 ≤ v ≤ 255.
Proof.
  unfold bytes, rdZ. intros Hb. case_decide; [|done].
  intros Hl. by eapply (Forall_lookup_1 _ _ _ _ Hb Hl).
Qed.

Lemma bytes_rdZ (l : list Z) :
  (∀ i v, rdZ l i = Some v → 0 ≤ v ≤ 255) → bytes l.
Proof.
  intros H. apply Forall_lookup_2. intros n v Hn.
  apply (H (Z.of_nat n)). unfold rdZ.
  by rewrite decide_True, Nat2Z.id by lia.
Qed.

Lemma rd_Some (l : list Z) i v : rdZ l i = Some v → rd l i = Fin (inject_Z v).
Proof. unfold rd. by intros ->. Qed.

(** ** Loops *)

Lemma for_range_nil {St : Type} lo hi (body : Z → St → St) s :
  hi ≤ lo → for_range lo hi body s = s.
Proof.
  intros. unfold for_range, seqZ.
  replace (Z.to_nat (hi - lo)) with 0%nat by lia. done.
Qed.

Lemma for_range_snoc {St : Type} lo hi (body : Z → St → St) s :
  lo ≤ hi →
  for_range lo (hi + 1) body s = body hi (for_range lo hi body s).
Proof.
  intros. unfold for_range.
  replace (hi + 1 - lo) with ((hi - lo) + 1) by lia.
  rewrite seqZ_app by lia. rewrite foldl_app.
  replace (lo + (hi - lo)) with hi by lia. done.
Qed.

(** The invariant rule of the counting loop. *)
Lemma for_range_inv {St : Type} (P : Z → St → Prop) lo hi (body : Z → St → St) s :
  lo ≤ hi →
  P lo s →
  (∀ i s, lo ≤ i < hi → P i s → P (i + 1) (body i s)) →
  P hi (for_range lo hi body s).
Proof.
  intros Hle H0 Hstep.
  assert (∀ n : nat, lo + Z.of_nat n ≤ hi →
            P (lo + Z.of_nat n) (for_range lo (lo + Z.of_nat n) body s)) as Hn.
  { induction n as [|n IH]; intros Hb.
    - rewrite Z.add_0_r, for_range_nil by lia. done.
    - replace (lo + Z.of_nat (S n)) with (lo + Z.of_nat n + 1) by lia.
      rewrite for_range_snoc by lia. apply Hstep; [lia|]. apply IH. lia. }
  specialize (Hn (Z.to_nat (hi - lo))).
  replace (lo + Z.of_nat (Z.to_nat (hi - lo))) with hi in Hn by lia.
  apply Hn. lia.
Qed.

Lemma for_step4_range {St : Type} n (body : Z → St → St) s :
  for_step4 n body s = for_range 0 ((n + 3) `div` 4) (λ k, body (4 * k)) s.
Proof. unfold for_step4, for_range. by rewrite Z.sub_0_r. Qed.

(** The invariant rule of the loop over the pixels of an array of [4 * n]
    bytes: [P k] holds when the first [k] pixels have been visited. *)
Lemma for_step4_inv {St : Type} (P : Z → St → Prop) m n (body : Z → St → St) s :
  m = 4 * n → 0 ≤ n →
  P 0 s →
  (∀ k s, 0 ≤ k < n → P k s → P (k + 1) (body (4 * k) s)) →
  P n (for_step4 m body s).
Proof.
  intros -> Hn H0 Hstep. rewrite for_step4_range.
  replace ((4 * n + 3) `div` 4) with n by zdiv.
  by apply for_range_inv.
Qed.

Lemma for_range_3 {St : Type} (body : Z → St → St) s :
  for_range (-1) 2 body s = body 1 (body 0 (body (-1) s)).
Proof. reflexivity. Qed.

Lemma for_range_0_3 {St : Type} (body : Z → St → St) s :
  for_range 0 3 body s = body 2 (body 1 (body 0 s)).
Proof. reflexivity. Qed.

Lemma rdZ_wrZ (l : list Z) i j v :
  rdZ (wrZ l i v) j = if decide (i = j ∧ 0 ≤ i < len l) then Some v else rdZ l j.
Proof.
  case_decide as H.
  - destruct H as [-> ?]. by apply rdZ_wrZ_eq.
  - destruct (decide (i = j)) as [->|]; [|by apply rdZ_wrZ_ne].
    rewrite !rdZ_out_of_range; rewrite ?len_wrZ; [done|lia..].
Qed.

(** Reads of a pixel after writes to its bytes. *)
Ltac rd_simpl :=
  rewrite ?rdZ_wrZ, ?len_wrZ; repeat case_decide; try lia; try done.

(** Position [j] of an array as a pixel and a channel. *)
Lemma pixel_channel j : j = 4 * (j `div` 4) + j `mod` 4 ∧ 0 ≤ j `mod` 4 < 4.
Proof. zdiv. Qed.

(** ** Threshold *)

Lemma Qdiv_3 (x : Q) : (x / 3 == x * (1 # 3))%Q.
Proof. field. Qed.

(** The comparison of the threshold pass, from the three bytes of a pixel. *)
Lemma gt_gray_spec (t : Q) (r g b : Z) :
  Num.gt ((of_Z r + of_Z g + of_Z b) / 3)%num (Fin t) = true
  ↔ (t < inject_Z (r + g + b) / 3)%Q.
Proof.
  unfold Num.gt, Num.div, Num.add, lift2, of_Z.
  rewrite negb_true_iff, <- not_true_iff_false, Qle_bool_iff.
  rewrite !inject_Z_plus. change (inject_Z 3) with 3%Q.
  rewrite !Qdiv_3. split; intros; lra.
Qed.

Lemma threshold_loop (t : Q) (data0 : list Z) (n : Z) :
  len data0 = 4 * n →
  let out := for_step4 (len data0) (threshold_pixel t) data0 in
  len out = len data0
  ∧ ∀ p, 0 ≤ p < n →
      rdZ out (4 * p) = Some (threshold_value t data0 p)
      ∧ rdZ out (4 * p + 1) = Some (threshold_value t data0 p)
      ∧ rdZ out (4 * p + 2) = Some (threshold_value t data0 p)
      ∧ rdZ out (4 * p + 3) = rdZ data0 (4 * p + 3).
Proof.
  intros Hlen out. pose proof (len_nonneg data0).
  cut (len out = len data0
       ∧ (∀ j, 4 * n ≤ j → rdZ out j = rdZ data0 j)
       ∧ (∀ p, 0 ≤ p < n →
            rdZ out (4 * p) = Some (threshold_value t data0 p)
            ∧ rdZ out (4 * p + 1) = Some (threshold_value t data0 p)
            ∧ rdZ out (4 * p + 2) = Some (threshold_value t data0 p)
            ∧ rdZ out (4 * p + 3) = rdZ data0 (4 * p + 3))); [tauto|].
  subst out.
  apply (for_step4_inv (λ k s,
    len s = len data0
    ∧ (∀ j, 4 * k ≤ j → rdZ s j = rdZ data0 j)
    ∧ (∀ p, 0 ≤ p < k →
         rdZ s (4 * p) = Some (threshold_value t data0 p)
         ∧ rdZ s (4 * p + 1) = Some (threshold_value t data0 p)
         ∧ rdZ s (4 * p + 2) = Some (threshold_value t data0 p)
         ∧ rdZ s (4 * p + 3) = rdZ data0 (4 * p + 3))) _ n); [done|lia| |].
  - repeat split; intros; try done; lia.
  - intros k s Hk (Hl & Hrest & Hdone).
    assert (threshold_value t s k = threshold_value t data0 k) as Hv.
    { unfold threshold_value, rd. by rewrite !Hrest by lia. }
    unfold threshold_pixel. fold (threshold_value t s k). rewrite Hv.
    set (v := threshold_value t data0 k).
    split; [by rewrite !len_wrZ|]. split.
    + intros j Hj. rd_simpl. apply Hrest. lia.
    + intros p Hp. destruct (decide (p = k)) as [->|].
      * repeat split; rd_simpl. apply Hrest. lia.
      * destruct (Hdone p) as (?&?&?&?); [lia|].
        repeat split; rd_simpl.
Qed.

Lemma threshold_value_fixed t (l : list Z) p v :
  (v = 0 ∧ (0 <= t)%Q ∨ v = 255 ∧ (t < 255)%Q) →
  rdZ l (4 * p) = Some v → rdZ l (4 * p + 1) = Some v →
  rdZ l (4 * p + 2) = Some v →
  threshold_value t l p = v.
Proof.
  intros Hv H0 H1 H2. unfold threshold_value.
  rewrite (rd_Some _ _ _ H0), (rd_Some _ _ _ H1), (rd_Some _ _ _ H2).
  fold (of_Z v).
  destruct (Num.gt _ _) eqn:E.
  - apply gt_gray_spec in E. destruct Hv as [[-> Ht]|[-> _]]; [|done].
    change (inject_Z (0 + 0 + 0)) with 0%Q in E. rewrite Qdiv_3 in E.
    exfalso. lra.
  - apply not_true_iff_false in E. rewrite gt_gray_spec in E.
    destruct Hv as [[-> _]|[-> Hv]]; [done|].
    change (inject_Z (255 + 255 + 255)) with 765%Q in E.
    rewrite Qdiv_3 in E. exfalso. lra.
Qed.

(** The value of a pixel whose three reads are bytes. *)
Lemma threshold_value_bytes t (l : list Z) p r g b :
  rdZ l (4 * p) = Some r → rdZ l (4 * p + 1) = Some g →
  rdZ l (4 * p + 2) = Some b →
  threshold_value t l p
  = if Qlt_le_dec t (inject_Z (r + g + b) / 3) then 255 else 0.
Proof.
  intros H0 H1 H2. unfold threshold_value.
  rewrite (rd_Some _ _ _ H0), (rd_Some _ _ _ H1), (rd_Some _ _ _ H2).
  fold (of_Z r) (of_Z g) (of_Z b).
  destruct (Num.gt _ _) eqn:E.
  - apply gt_gray_spec in E. destruct (Qlt_le_dec _ _); [done|lra].
  - apply not_true_iff_false in E. rewrite gt_gray_spec in E.
    destruct (Qlt_le_dec _ _); [done|done].
Qed.

(** C3.  On a valid buffer and for a threshold in [0, 255], [applyThreshold]
    leaves every alpha byte as it was and sets the red, green and blue bytes
    of every pixel to one and the same value, 0 or 255; a second pass with
    the same threshold returns the very same buffer.  For a whole-number
    threshold [T] the value is 255 exactly when the sum of the three bytes
    is above [3 * T], that is when the luminance (R+G+B)/3 is strictly above
    the threshold.  (The code compares the quotient rounded to a double,
    the embedding the exact quotient; the two comparisons agree for every
    whole-number threshold, so the formula is stated for these.) *)
Theorem applyThreshold_idempotent (img : ImageData) (t : Q) :
  valid img → (0 <= t)%Q → (t <= 255)%Q →
  let once := applyThreshold img t in
  (∀ p, 0 ≤ p < width img * height img →
     ∃ r g b a v,
       rdZ (data img) (4 * p) = Some r ∧ rdZ (data img) (4 * p + 1) = Some g
       ∧ rdZ (data img) (4 * p + 2) = Some b ∧ rdZ (data img) (4 * p + 3) = Some a
       ∧ (v = 0 ∨ v = 255)
       ∧ rdZ (data once) (4 * p) = Some v ∧ rdZ (data once) (4 * p + 1) = Some v
       ∧ rdZ (data once) (4 * p + 2) = Some v ∧ rdZ (data once) (4 * p + 3) = Some a
       ∧ ∀ T : Z, (t == inject_Z T)%Q →
           v = if decide (3 * T < r + g + b) then 255 else 0)
  ∧ applyThreshold once t = once.
Proof.
  intros [Hw Hh Hlen Hb] Ht0 Ht1 once.
  set (n := width img * height img).
  assert (len (data img) = 4 * n) as Hlen4 by (subst n; lia).
  destruct (threshold_loop t (data img) n Hlen4) as [Hl1 H1].
  assert (∀ p, 0 ≤ p < n →
     ∃ r g b a,
       rdZ (data img) (4 * p) = Some r ∧ rdZ (data img) (4 * p + 1) = Some g
       ∧ rdZ (data img) (4 * p + 2) = Some b ∧ rdZ (data img) (4 * p + 3) = Some a
       ∧ (0 ≤ r + g + b ≤ 765)
       ∧ threshold_value t (data img) p
         = if Qlt_le_dec t (inject_Z (r + g + b) / 3) then 255 else 0) as Hpix.
  { intros p Hp.
    destruct (rdZ_in_range (data img) (4 * p)) as [r Hr]; [lia|].
    destruct (rdZ_in_range (data img) (4 * p + 1)) as [g Hg]; [lia|].
    destruct (rdZ_in_range (data img) (4 * p + 2)) as [b Hbl]; [lia|].
    destruct (rdZ_in_range (data img) (4 * p + 3)) as [a Ha]; [lia|].
    exists r, g, b, a. repeat split; try done.
    - pose proof (rdZ_bytes _ _ _ Hb Hr). pose proof (rdZ_bytes _ _ _ Hb Hg).
      pose proof (rdZ_bytes _ _ _ Hb Hbl). lia.
    - pose proof (rdZ_bytes _ _ _ Hb Hr). pose proof (rdZ_bytes _ _ _ Hb Hg).
      pose proof (rdZ_bytes _ _ _ Hb Hbl). lia.
    - by apply threshold_value_bytes. }
  split.
  - intros p Hp. destruct (Hpix p Hp) as (r & g & b & a & Hr & Hg & Hbl & Ha & _ & Hv).
    destruct (H1 p Hp) as (E0 & E1 & E2 & E3).
    exists r, g, b, a, (threshold_value t (data img) p).
    split; [done|]. split; [done|]. split; [done|]. split; [done|].
    split; [rewrite Hv; destruct (Qlt_le_dec _ _); auto|].
    split; [done|]. split; [done|]. split; [done|].
    split; [rewrite <- Ha; exact E3|].
    intros T ET. rewrite Hv.
    assert (inject_Z (r + g + b) / 3 == inject_Z (r + g + b) * (1 # 3))%Q as E3'
      by apply Qdiv_3.
    destruct (Qlt_le_dec _ _) as [Hlt|Hle]; case_decide as Hd; try done; exfalso.
    + apply Hd. rewrite ET, E3' in Hlt.
      assert (inject_Z (3 * T) < inject_Z (r + g + b))%Q as Hz
        by (rewrite inject_Z_mult; change (inject_Z 3) with 3%Q; lra).
      by rewrite <- Zlt_Qlt in Hz.
    + rewrite ET, E3' in Hle.
      assert (inject_Z (r + g + b) <= inject_Z (3 * T))%Q as Hz
        by (rewrite inject_Z_mult; change (inject_Z 3) with 3%Q; lra).
      rewrite <- Zle_Qle in Hz. lia.
  - subst once. unfold applyThreshold at 1. cbn [data width height].
    unfold applyThreshold. f_equal.
    set (d1 := for_step4 (len (data img)) (threshold_pixel t) (data img)) in *.
    assert (len d1 = 4 * n) as Hlen1 by lia.
    destruct (threshold_loop t d1 n Hlen1) as [Hl2 H2]. cbn zeta in Hl2, H2.
    apply rdZ_ext. intros j.
    cbn [data].
    destruct (decide (0 ≤ j < 4 * n)) as [Hj|Hj];
      [|rewrite !rdZ_out_of_range; [done|lia..]].
    destruct (pixel_channel j) as [Ej Hc].
    set (p := j `div` 4) in *. set (c := j `mod` 4) in *.
    assert (0 ≤ p < n) as Hp by lia.
    destruct (H1 p Hp) as (E0 & E1 & E2 & E3).
    destruct (H2 p Hp) as (F0 & F1 & F2 & F3).
    assert (threshold_value t d1 p = threshold_value t (data img) p) as Hfix.
    { apply threshold_value_fixed; try done.
      destruct (Hpix p Hp) as (r & g & b & a & _ & _ & _ & _ & Hrange & ->).
      destruct (Qlt_le_dec _ _) as [Hlt|Hle]; [right|left]; split; try done.
      assert (inject_Z (r + g + b) <= inject_Z 765)%Q as Hq
        by (rewrite <- Zle_Qle; lia).
      change (inject_Z 765) with 765%Q in Hq. rewrite Qdiv_3 in Hlt. lra. }
    rewrite Hfix in *.
    assert (c = 0 ∨ c = 1 ∨ c = 2 ∨ c = 3) as Hcases by lia.
    rewrite Ej. destruct Hcases as [-> | [-> | [-> | ->]]];
      rewrite ?Z.add_0_r; congruence.
Qed.

(** The hypotheses of C3 hold of the sample image and the threshold 128. *)
Lemma applyThreshold_idempotent_witness :
  applyThreshold (applyThreshold sample_image 128) 128
  = applyThreshold sample_image 128.
Proof.
  refine (proj2 (applyThreshold_idempotent sample_image 128 _ _ _)).
  - split; [reflexivity | reflexivity | reflexivity | ].
    unfold bytes. repeat constructor; lia.
  - discriminate.
  - discriminate.
Defined.

(** ** Dithering *)

Lemma len_diffuse (l : list Z) i e k : len (diffuse l i e k) = len l.
Proof. apply len_wr. Qed.

Lemma rdZ_diffuse_ne (l : list Z) i j e k :
  i ≠ j → rdZ (diffuse l i e k) j = rdZ l j.
Proof. apply rdZ_wr_ne. Qed.

Lemma len_dither_channel w h x y c (s : list Z) :
  len (dither_channel w h x y c s) = len s.
Proof.
  unfold dither_channel. repeat case_decide;
    rewrite ?len_diffuse, ?len_wrZ; done.
Qed.

(** The error is only ever diffused forward: one step of the pass for
    channel [c] of pixel [(x, y)] leaves alone every byte of another channel
    and every byte of a pixel that comes earlier in row-major order. *)
Lemma dither_channel_frame w h x y c (s : list Z) j :
  0 ≤ x < w → 0 ≤ c < 3 →
  j `mod` 4 ≠ c ∨ j `div` 4 < y * w + x →
  rdZ (dither_channel w h x y c s) j = rdZ s j.
Proof.
  intros Hx Hc Hj.
  assert (∀ q, y * w + x ≤ q → j ≠ q * 4 + c) as Hne.
  { intros q Hq ->. destruct Hj as [Hj|Hj].
    - apply Hj. zdiv.
    - assert ((q * 4 + c) `div` 4 = q) as E by zdiv. lia. }
  unfold dither_channel. repeat case_decide;
    rewrite ?rdZ_diffuse_ne, ?rdZ_wrZ_ne; try done;
    match goal with
    | |- (?e * 4 + c) ≠ j => intros Heq; apply (Hne e); [lia | done]
    end.
Qed.

(** The byte of the visited channel is binarised and stays so. *)
Lemma dither_channel_set w h x y c (s : list Z) :
  0 ≤ x < w → 0 ≤ y → 0 ≤ c < 3 →
  (y * w + x) * 4 + c < len s →
  let r := rdZ (dither_channel w h x y c s) ((y * w + x) * 4 + c) in
  r = Some 0 ∨ r = Some 255.
Proof.
  intros Hx Hy Hc Hin.
  assert (0 ≤ y * w) by nia.
  unfold dither_channel. cbn zeta.
  repeat case_decide;
    rewrite ?rdZ_diffuse_ne by lia;
    (rewrite rdZ_wrZ_eq by lia);
    destruct (Num.gt _ _); auto.
Qed.

Lemma dither_pixel w h x y data0 (s : list Z) :
  0 ≤ x < w → 0 ≤ y < h →
  len data0 = w * h * 4 →
  dithered data0 (y * w + x) s →
  dithered data0 (y * w + x + 1)
    (for_range 0 3 (λ c, dither_channel w h x y c) s).
Proof.
  intros Hx Hy Hlen (Hl & Hbin & Ha).
  rewrite for_range_0_3.
  assert (0 ≤ y * w) by nia.
  assert (y * w + x < w * h) by nia.
  set (s0 := dither_channel w h x y 0 s).
  set (s1 := dither_channel w h x y 1 s0).
  set (s2 := dither_channel w h x y 2 s1).
  assert (len s0 = len s) as L0 by apply len_dither_channel.
  assert (len s1 = len s) as L1
    by (subst s1; by rewrite len_dither_channel).
  assert (len s2 = len s) as L2
    by (subst s2; by rewrite len_dither_channel).
  split; [lia|]. split.
  - intros q c Hq Hc. destruct (decide (q = y * w + x)) as [->|Hne].
    + assert (c = 0 ∨ c = 1 ∨ c = 2) as [-> | [-> | ->]] by lia.
      * subst s2 s1.
        rewrite !dither_channel_frame by (try lia; left; zdiv).
        replace (4 * (y * w + x) + 0) with ((y * w + x) * 4 + 0) by lia.
        apply dither_channel_set; lia.
      * subst s2.
        rewrite !dither_channel_frame by (try lia; left; zdiv).
        replace (4 * (y * w + x) + 1) with ((y * w + x) * 4 + 1) by lia.
        apply dither_channel_set; lia.
      * replace (4 * (y * w + x) + 2) with ((y * w + x) * 4 + 2) by lia.
        apply dither_channel_set; lia.
    + subst s2 s1 s0.
      rewrite !dither_channel_frame
        by (try lia; right;
            assert ((4 * q + c) `div` 4 = q) as -> by zdiv; lia).
      apply Hbin; lia.
  - intros q. subst s2 s1 s0.
    rewrite !dither_channel_frame by (try lia; left; zdiv).
    apply Ha.
Qed.

Lemma dither_loop w h data0 :
  0 < w → 0 < h → len data0 = w * h * 4 →
  dithered data0 (w * h)
    (for_range 0 h (λ y,
       for_range 0 w (λ x,
         for_range 0 3 (λ c, dither_channel w h x y c))) data0).
Proof.
  intros Hw Hh Hlen.
  replace (w * h) with (h * w) by lia.
  apply (for_range_inv (λ y s, dithered data0 (y * w) s)); [lia| |].
  - repeat split; intros; try done; lia.
  - intros y s Hy Hs.
    replace ((y + 1) * w) with (y * w + w) by lia.
    apply (for_range_inv (λ x s, dithered data0 (y * w + x) s)); [lia| |].
    + by rewrite Z.add_0_r.
    + intros x s' Hx Hs'.
      replace (y * w + (x + 1)) with (y * w + x + 1) by lia.
      apply dither_pixel; try done; lia.
Qed.

(** C8.  On a valid buffer [applyDithering] keeps the dimensions and leaves
    every red, green and blue byte at exactly 0 or 255 and every alpha byte
    as it was.  The reason is stated too: a step of the pass on pixel
    [(x, y)] changes no byte of a pixel that was visited before it. *)
Theorem applyDithering_binary (img : ImageData) :
  valid img →
  let out := applyDithering img in
  width out = width img ∧ height out = height img
  ∧ len (data out) = len (data img)
  ∧ (∀ p, 0 ≤ p < width img * height img →
       (∀ c, 0 ≤ c < 3 →
          rdZ (data out) (4 * p + c) = Some 0
          ∨ rdZ (data out) (4 * p + c) = Some 255)
       ∧ rdZ (data out) (4 * p + 3) = rdZ (data img) (4 * p + 3))
  ∧ (∀ x y c s j,
       0 ≤ x < width img → 0 ≤ c < 3 →
       j `div` 4 < y * width img + x →
       rdZ (dither_channel (width img) (height img) x y c s) j = rdZ s j).
Proof.
  intros [Hw Hh Hlen Hb] out.
  destruct (dither_loop (width img) (height img) (data img) Hw Hh Hlen)
    as (Hl & Hbin & Ha).
  split; [done|]. split; [done|]. split; [done|]. split.
  - intros p Hp. split; [|apply Ha].
    intros c Hc. by apply Hbin.
  - intros. apply dither_channel_frame; auto.
Qed.

(** The hypothesis of C8 holds of the sample image; its second pixel has the
    red byte 200 and the alpha byte 128. *)
Lemma applyDithering_binary_witness :
  (rdZ (data (applyDithering sample_image)) (4 * 1 + 0) = Some 0
   ∨ rdZ (data (applyDithering sample_image)) (4 * 1 + 0) = Some 255)
  ∧ rdZ (data (applyDithering sample_image)) (4 * 1 + 3) = Some 128.
Proof.
  assert (valid sample_image) as Hv.
  { split; [reflexivity | reflexivity | reflexivity | ].
    unfold bytes. repeat constructor; lia. }
  assert (0 ≤ 1 < width sample_image * height sample_image) as Hp
    by (split; [lia | reflexivity]).
  assert (0 ≤ 0 < 3) as Hc by lia.
  destruct (proj1 (proj2 (proj2 (proj2 (applyDithering_binary sample_image Hv))))
              1 Hp) as [Hrgb Ha].
  split; [exact (Hrgb 0 Hc) | exact Ha].
Defined.

(** ** Edge detection *)

(** Row-major pixel numbers determine the coordinates. *)
Lemma pixel_index_inj w x y x' y' :
  0 ≤ x < w → 0 ≤ x' < w → y * w + x = y' * w + x' → x = x' ∧ y = y'.
Proof. intros. assert (y = y') by nia. subst. lia. Qed.

Lemma sqrt_byte_0 (q : Q) : q == 0 → sqrt_byte (Fin q) = 0.
Proof.
  intros Hq. unfold sqrt_byte.
  assert (Qle_bool 0 q = true) as -> by (apply Qle_bool_iff; lra).
  assert (Qfloor (4 * q) = 0) as ->.
  { rewrite (Qfloor_comp (4 * q) 0); [done|]. rewrite Hq. ring. }
  reflexivity.
Qed.

Lemma Q2R_inject_Z z : Q2R (inject_Z z) = IZR z.
Proof. unfold Q2R, inject_Z. cbn. Lra.lra. Qed.

Lemma sq_le_inv (x y : R) : (0 <= y)%R → (x * x <= y * y)%R → (x <= y)%R.
Proof.
  intros Hy H. destruct (Rle_lt_dec x y) as [|Hlt]; [done|].
  assert (y * y < x * x)%R; [|Lra.lra].
  apply Rmult_le_0_lt_compat; Lra.lra.
Qed.

Lemma sq_lt_inv (x y : R) : (0 <= y)%R → (x * x < y * y)%R → (x < y)%R.
Proof.
  intros Hy H. destruct (Rlt_le_dec x y) as [|Hle]; [done|].
  assert (y * y <= x * x)%R; [|Lra.lra].
  apply Rmult_le_compat; Lra.lra.
Qed.

(** [sqrt_byte] is the byte nearest to the real square root that the source
    computes with [Math.sqrt], 255 when the root is 255 or more, the even
    neighbour when the root lies half-way between two integers. *)
Lemma sqrt_byte_real (q : Q) :
  (0 <= q)%Q →
  let s := sqrt (Q2R q) in
  let k := sqrt_byte (Fin q) in
  0 ≤ k ≤ 255
  ∧ ((255 <= s)%R → k = 255)
  ∧ ((s < 255)%R →
     (IZR k - 1 / 2 <= s <= IZR k + 1 / 2)%R
     ∧ ((s = IZR k - 1 / 2 ∨ s = IZR k + 1 / 2)%R → Z.even k = true)).
Proof.
  intros Hq s k.
  assert (0 <= Q2R q)%R as Hq' by (rewrite <- RMicromega.Q2R_0; by apply Qle_Rle).
  assert (0 <= s)%R as Hs by apply sqrt_pos.
  assert (s * s = Q2R q)%R as Ess by (by apply sqrt_sqrt).
  set (N := Qfloor (4 * q)). set (m := Z.sqrt N).
  assert (0 ≤ N) as HN.
  { subst N. change 0 with (Qfloor 0). apply Qfloor_resp_le. lra. }
  pose proof (Z.sqrt_spec N HN) as Hm. fold m in Hm. cbn zeta in Hm.
  assert (0 ≤ m) as Hm0 by apply Z.sqrt_nonneg.
  assert (IZR N <= 4 * Q2R q < IZR N + 1)%R as [HNl HNu].
  { pose proof (Qfloor_le (4 * q)) as H1. pose proof (Qlt_floor (4 * q)) as H2.
    fold N in H1, H2. apply Qle_Rle in H1. apply Qlt_Rlt in H2.
    rewrite Q2R_inject_Z, Q2R_mult in *. rewrite plus_IZR in H2.
    change (Q2R 4) with (4 * / 1)%R in *. Lra.lra. }
  assert (IZR m <= 2 * s < IZR m + 1)%R as [Hml Hmu].
  { assert (IZR (m * m) <= IZR N)%R as H1 by (apply IZR_le; lia).
    assert (IZR N + 1 <= IZR ((m + 1) * (m + 1)))%R as H2
      by (rewrite <- (plus_IZR N 1); apply IZR_le; lia).
    rewrite mult_IZR in H1, H2. rewrite plus_IZR in H2.
    assert (0 <= IZR m)%R by (apply IZR_le; lia).
    split.
    - apply sq_le_inv; [Lra.lra|]. Lra.nra.
    - apply sq_lt_inv; [Lra.lra|]. Lra.nra. }
  assert (Qle_bool 0 q = true) as Hqb by (by apply Qle_bool_iff).
  subst k. unfold sqrt_byte. rewrite Hqb. fold N m.
  destruct (Z.leb_spec 510 m) as [Hbig|Hsmall].
  { assert (510 <= IZR m)%R by (apply IZR_le; lia).
    split; [lia|]. split; [done|]. intros. exfalso. Lra.lra. }
  assert (IZR m <= 509)%R as Hm509 by (apply IZR_le; lia).
  destruct (Z.even m) eqn:Hev.
  - apply Z.even_spec in Hev as [f ->].
    replace ((2 * f) `div` 2) with f by zdiv.
    rewrite mult_IZR in *.
    assert (IZR f <= 254)%R by (apply IZR_le; lia).
    split; [lia|]. split; [intros; exfalso; Lra.lra|].
    intros _. split; [Lra.lra|]. intros [?|?]; exfalso; Lra.lra.
  - assert (Z.odd m = true) as Hodd by (by rewrite <- Z.negb_even, Hev).
    apply Z.odd_spec in Hodd as [f ->].
    replace ((2 * f + 1) `div` 2) with f by zdiv.
    rewrite plus_IZR, mult_IZR in *.
    assert (IZR f <= 254)%R by (apply IZR_le; lia).
    assert (0 <= IZR f)%R by (apply IZR_le; lia).
    destruct (Qeq_bool (4 * q) (inject_Z ((2 * f + 1) * (2 * f + 1)))) eqn:Etie.
    + apply Qeq_bool_iff, Qeq_eqR in Etie.
      rewrite Q2R_inject_Z, Q2R_mult, mult_IZR, plus_IZR, mult_IZR in Etie.
      change (Q2R 4) with (4 * / 1)%R in Etie.
      assert (2 * s = 2 * IZR f + 1)%R as Es.
      { apply Rle_antisym; [|Lra.lra].
        apply sq_le_inv; [Lra.lra|]. Lra.nra. }
      destruct (Z.even f) eqn:Hf.
      * split; [lia|]. split; [intros; exfalso; Lra.lra|].
        intros _. split; [Lra.lra|done].
      * split; [lia|]. split; [intros; exfalso; Lra.lra|].
        intros _. rewrite plus_IZR. split; [Lra.lra|]. intros _.
        by rewrite Z.even_add, Hf.
    + assert (2 * s ≠ 2 * IZR f + 1)%R as Hne.
      { intros Es. apply not_true_iff_false in Etie. apply Etie.
        apply Qeq_bool_iff, eqR_Qeq.
        rewrite Q2R_inject_Z, Q2R_mult, mult_IZR, plus_IZR, mult_IZR.
        change (Q2R 4) with (4 * / 1)%R. Lra.nra. }
      split; [lia|]. split; [intros; exfalso; Lra.lra|].
      intros _. rewrite plus_IZR. split; [Lra.lra|]. intros [?|?]; exfalso; Lra.lra.
Qed.

(** Decisions on coordinates, after the reads have been rewritten. *)
Ltac coords := repeat case_decide; try done; exfalso; unfold interior in *; intuition lia.

Section flat.
Variable img : ImageData.
Variables r g b : Z.
Hypothesis Hvalid : valid img.
Hypothesis Hflat : uniform img r g b.

Lemma flat_gray x y i j :
  interior img x y → -1 ≤ i ≤ 1 → -1 ≤ j ≤ 1 →
  let idx := ((y + i) * width img + (x + j)) * 4 in
  ((rd (data img) idx + rd (data img) (idx + 1) + rd (data img) (idx + 2)) / 3)%num
  = ((of_Z r + of_Z g + of_Z b) / 3)%num.
Proof.
  intros [Hx Hy] Hi Hj idx.
  destruct (Hflat ((y + i) * width img + (x + j))) as (H0 & H1 & H2); [nia|].
  subst idx. unfold rd. by rewrite H0, H1, H2.
Qed.

(** On a buffer of one colour both Sobel sums vanish. *)
Lemma flat_sobel x y :
  interior img x y →
  ∃ qx qy, sobel_at (data img) (width img) x y = (Fin qx, Fin qy)
           ∧ qx == 0 ∧ qy == 0.
Proof.
  intros Hin. unfold sobel_at. rewrite for_range_3.
  rewrite !(for_range_3 (λ j '(pixelX, pixelY), _)).
  cbn beta iota.
  rewrite !flat_gray by (done || lia).
  unfold of_Z, Num.div, Num.add, Num.mul, lift2. cbn [kernel_at].
  eexists _, _. split; [reflexivity|].
  split; cbn; field.
Qed.

Lemma flat_edge_pixel x y (s : list Z) :
  interior img x y →
  edge_pixel (data img) (width img) x y s
  = let idx := (y * width img + x) * 4 in
    wrZ (wrZ (wrZ (wrZ s idx 0) (idx + 1) 0) (idx + 2) 0) (idx + 3) 255.
Proof.
  intros Hin. unfold edge_pixel.
  destruct (flat_sobel x y Hin) as (qx & qy & -> & Hqx & Hqy).
  unfold Num.mul, Num.add, lift2.
  rewrite sqrt_byte_0; [done|]. rewrite Hqx, Hqy. ring.
Qed.

Lemma flat_edge_step x y (s : list Z) :
  interior img x y → edged img y x s →
  edged img y (x + 1) (edge_pixel (data img) (width img) x y s).
Proof.
  intros Hin [Hl Hs]. rewrite flat_edge_pixel by done. cbn zeta.
  pose proof Hin as [Hx Hy]. destruct Hvalid as [Hw Hh Hlen _].
  assert (0 ≤ y * width img + x < width img * height img) as Hp by nia.
  split; [by rewrite !len_wrZ|].
  intros x' y' c Hx' Hy' Hc.
  destruct (decide (x' = x ∧ y' = y)) as [[-> ->]|Hne].
  - rd_simpl; rewrite ?Hs by lia; coords.
  - assert (y' * width img + x' ≠ y * width img + x) as Hne'.
    { intros E. apply pixel_index_inj in E; [tauto|lia..]. }
    rewrite !rdZ_wrZ_ne by lia. rewrite Hs by lia. coords.
Qed.

Lemma flat_edge_row y (s : list Z) :
  1 ≤ y < height img - 1 → edged img y 0 s →
  edged img (y + 1) 0
    (for_range 1 (width img - 1)
       (λ x, edge_pixel (data img) (width img) x y) s).
Proof.
  intros Hy Hs.
  assert (∀ X s, width img - 1 ≤ X → edged img y X s → edged img (y + 1) 0 s)
    as Hend.
  { intros X s' HX [Hl' Hs']. split; [done|]. intros x' y' c ? ? ?.
    rewrite Hs' by done. coords. }
  assert (∀ s, edged img y 0 s → edged img y 1 s) as Hstart.
  { intros s' [Hl' Hs']. split; [done|]. intros x' y' c ? ? ?.
    rewrite Hs' by done. coords. }
  destruct (decide (1 ≤ width img - 1)) as [Hw1|Hw1].
  - apply (Hend (width img - 1)); [lia|].
    apply (for_range_inv (λ x s, edged img y x s)); [lia|by apply Hstart|].
    intros x s' Hx Hs'. apply flat_edge_step; [|done].
    unfold interior. lia.
  - rewrite for_range_nil by lia. apply (Hend 0); [lia|done].
Qed.

Lemma flat_edge_loop :
  edged img (height img - 1) 0
    (for_range 1 (height img - 1) (λ y,
       for_range 1 (width img - 1)
         (λ x, edge_pixel (data img) (width img) x y))
       (zeros (len (data img)))).
Proof.
  destruct Hvalid as [Hw Hh Hlen _].
  assert (∀ Y, Y ≤ 1 → edged img Y 0 (zeros (len (data img)))) as Hzero.
  { intros Y HY. split; [apply len_zeros, len_nonneg|].
    intros x y c Hx Hy Hc. rewrite rdZ_zeros by nia. coords. }
  destruct (decide (1 ≤ height img - 1)) as [Hh1|Hh1].
  - apply (for_range_inv (λ y s, edged img y 0 s)); [lia|by apply Hzero|].
    intros y s Hy Hs. by apply flat_edge_row.
  - rewrite for_range_nil by lia.
    destruct (Hzero 1) as [Hl Hs]; [lia|]. split; [done|].
    intros x y c ? ? ?. rewrite Hs by done. coords.
Qed.

End flat.

(** C7.  On a valid buffer of one colour, [applyEdgeDetection] gives every
    interior pixel the bytes 0, 0, 0 (no edge) and the alpha 255, and leaves
    the four bytes of every border pixel at zero. *)
Theorem applyEdgeDetection_uniform (img : ImageData) (r g b : Z) :
  valid img → uniform img r g b →
  let out := applyEdgeDetection img in
  width out = width img ∧ height out = height img
  ∧ ∀ x y, 0 ≤ x < width img → 0 ≤ y < height img →
      (interior img x y →
         pixel_at out x y = [Some 0; Some 0; Some 0; Some 255])
      ∧ (¬ interior img x y →
         pixel_at out x y = [Some 0; Some 0; Some 0; Some 0]).
Proof.
  intros Hvalid Hflat out.
  split; [done|]. split; [done|].
  intros x y Hx Hy.
  destruct (flat_edge_loop img r g b Hvalid Hflat) as [_ Hs].
  assert (∀ c, 0 ≤ c < 4 →
            rdZ (data out) ((y * width img + x) * 4 + c)
            = Some (if decide (c = 3 ∧ interior img x y) then 255 else 0)) as Hc.
  { intros c Hc. subst out. unfold applyEdgeDetection. cbn [data].
    rewrite Hs by done. coords. }
  unfold pixel_at, pixel_of. subst out. cbn [width applyEdgeDetection].
  pose proof (Hc 0) as H0. pose proof (Hc 1) as H1.
  pose proof (Hc 2) as H2. pose proof (Hc 3) as H3.
  rewrite Z.add_0_r in H0.
  rewrite H0, H1, H2, H3 by lia. clear.
  rewrite !(decide_False (P := _ = 3 ∧ _)) by (intros [? _]; lia).
  split; intros Hi; [rewrite decide_True by done | rewrite decide_False by tauto];
    done.
Qed.

(** The hypotheses of C7 hold of a 3x3 buffer filled with one colour; its
    centre is the one interior pixel. *)
Lemma applyEdgeDetection_uniform_witness :
  pixel_at (applyEdgeDetection flat_image) 1 1
  = [Some 0; Some 0; Some 0; Some 255].
Proof.
  assert (valid flat_image) as Hv.
  { split; [reflexivity | reflexivity | reflexivity | ].
    unfold bytes. repeat constructor; lia. }
  assert (uniform flat_image 1 0 0) as Hu.
  { intros p Hp. change (width flat_image * height flat_image) with 9 in Hp.
    assert (p = 0 ∨ p = 1 ∨ p = 2 ∨ p = 3 ∨ p = 4 ∨ p = 5 ∨ p = 6 ∨ p = 7 ∨ p = 8)
      as Hcases by lia.
    repeat (destruct Hcases as [-> | Hcases]; [by vm_compute|]).
    subst p. by vm_compute. }
  refine (proj1 (proj2 (proj2 (applyEdgeDetection_uniform flat_image 1 0 0 Hv Hu))
                   1 1 _ _) _).
  - split; [lia | reflexivity].
  - split; [lia | reflexivity].
  - split; split; [lia | reflexivity | lia | reflexivity].
Defined.

(** ** RGB shift *)

(** Storing a byte read from an array gives that byte back. *)
Lemma ToUint8Clamp_byte v : 0 ≤ v ≤ 255 → ToUint8Clamp (of_Z v) = v.
Proof.
  intros Hv. unfold ToUint8Clamp, of_Z.
  assert (Qmin 255 (Qmax 0 (inject_Z v)) == inject_Z v) as E.
  { assert (0 <= inject_Z v)%Q by (change 0%Q with (inject_Z 0); rewrite <- Zle_Qle; lia).
    assert (inject_Z v <= 255)%Q
      by (change 255%Q with (inject_Z 255); rewrite <- Zle_Qle; lia).
    rewrite Q.max_r by done. by rewrite Q.min_r. }
  cbn zeta. rewrite (Qfloor_comp _ _ E), Qfloor_Z.
  rewrite (Qcompare_comp _ _ E _ _ (Qeq_refl _)).
  generalize (inject_Z v). intros q.
  destruct (Qcompare_spec q (q + (1 # 2))); [exfalso; lra | done | exfalso; lra].
Qed.

Lemma wr_rd_byte (data s : list Z) i j v :
  bytes data → rdZ data j = Some v → wr s i (rd data j) = wrZ s i v.
Proof.
  intros Hb Hj. unfold wr, rd. rewrite Hj.
  by rewrite ToUint8Clamp_byte by (by eapply rdZ_bytes).
Qed.

Section shift.
Variable img : ImageData.
Variable amount : Z.
Hypothesis Hvalid : valid img.
Hypothesis Hamount : 0 ≤ amount.

Lemma shift_columns x :
  0 ≤ x < width img →
  0 ≤ redX (width img) amount x ≤ width img - 1
  ∧ 0 ≤ blueX (width img) amount x ≤ width img - 1.
Proof. unfold redX, blueX. lia. Qed.

Lemma shift_step x y (s : list Z) :
  0 ≤ x < width img → 0 ≤ y < height img → shifted img amount y x s →
  shifted img amount y (x + 1)
    (rgbshift_pixel (data img) (width img) amount x y s).
Proof.
  intros Hx Hy [Hl Hs].
  destruct Hvalid as [Hw Hh Hlen Hb].
  destruct (shift_columns x Hx) as [Hred Hblue].
  set (w := width img) in *.
  assert (0 ≤ y * w ∧ y * w + w ≤ w * height img) as Hrow by nia.
  destruct (rdZ_in_range (data img) ((y * w + redX w amount x) * 4))
    as [vr Hvr]; [lia|].
  destruct (rdZ_in_range (data img) ((y * w + x) * 4 + 1)) as [vg Hvg]; [lia|].
  destruct (rdZ_in_range (data img) ((y * w + blueX w amount x) * 4 + 2))
    as [vb Hvb]; [lia|].
  destruct (rdZ_in_range (data img) ((y * w + x) * 4 + 3)) as [va Hva]; [lia|].
  unfold rgbshift_pixel. cbn zeta.
  rewrite (wr_rd_byte _ _ _ _ _ Hb Hvr), (wr_rd_byte _ _ _ _ _ Hb Hvg),
    (wr_rd_byte _ _ _ _ _ Hb Hvb), (wr_rd_byte _ _ _ _ _ Hb Hva).
  split; [by rewrite !len_wrZ|].
  intros x' y' Hx' Hy' Hvis.
  destruct (decide (x' = x ∧ y' = y)) as [[-> ->]|Hne].
  - unfold pixel_of, shift_sources. fold w. rewrite Hvr, Hvg, Hvb, Hva.
    cbn zeta. repeat f_equal; rd_simpl.
  - assert (y' * w + x' ≠ y * w + x) as Hne'.
    { intros E. apply pixel_index_inj in E; [tauto|lia..]. }
    rewrite <- Hs by (try done; lia). unfold pixel_of. cbn zeta.
    by rewrite !rdZ_wrZ_ne by lia.
Qed.

Lemma shift_loop :
  shifted img amount (height img) 0
    (for_range 0 (height img) (λ y,
       for_range 0 (width img)
         (λ x, rgbshift_pixel (data img) (width img) amount x y))
       (zeros (len (data img)))).
Proof.
  destruct Hvalid as [Hw Hh Hlen Hb].
  apply (for_range_inv (λ y s, shifted img amount y 0 s)); [lia| |].
  - split; [apply len_zeros, len_nonneg|]. intros; lia.
  - intros y s Hy Hs.
    assert (shifted img amount y (width img)
              (for_range 0 (width img)
                 (λ x, rgbshift_pixel (data img) (width img) amount x y) s))
      as [Hl Hrow].
    { apply (for_range_inv (λ x s, shifted img amount y x s)); [lia|done|].
      intros x s' Hx Hs'. by apply shift_step. }
    split; [done|]. intros x' y' ? ? ?. apply Hrow; lia.
Qed.

Lemma shift_pixels x y :
  0 ≤ x < width img → 0 ≤ y < height img →
  pixel_at (applyRGBShift img amount) x y = shift_sources img amount x y.
Proof.
  intros Hx Hy. destruct shift_loop as [_ Hs].
  apply (Hs x y); [done|done|lia].
Qed.

End shift.

(** C5, as amended.  On a valid buffer and for a shift amount that is not
    negative (however large), the source columns of [applyRGBShift] stay in
    [0, width - 1], and every output pixel takes its red byte from column
    [clamp (x + amount)] and its blue byte from column [clamp (x - amount)]
    of its own row, the green and alpha bytes being those of its own
    position. *)
Theorem applyRGBShift_clamped (img : ImageData) (amount : Z) :
  valid img → 0 ≤ amount → rgbshift_clamped img amount.
Proof.
  intros Hvalid Hamount x y Hx Hy.
  destruct (shift_columns img amount Hamount x Hx) as [Hred Hblue].
  split; [done|]. split; [done|].
  rewrite shift_pixels by done.
  unfold shift_sources, clamp_col, redX, blueX in *. cbn zeta.
  by rewrite (Z.max_r 0 (Z.min _ _)), (Z.min_r _ (x - amount)) by lia.
Qed.

(** The hypotheses of the amended C5 hold of the sample image shifted by
    3; its pixel (1, 0) takes red from the last column and blue from the
    first. *)
Lemma applyRGBShift_clamped_witness :
  pixel_at (applyRGBShift sample_image 3) 1 0
  = [Some 200; Some 200; Some 30; Some 128].
Proof.
  assert (valid sample_image) as Hv.
  { split; [reflexivity | reflexivity | reflexivity | ].
    unfold bytes. repeat constructor; lia. }
  assert (0 ≤ 3) as Ha by lia.
  assert (0 ≤ 1 < width sample_image) as Hx by (split; [lia | reflexivity]).
  assert (0 ≤ 0 < height sample_image) as Hy by (split; [lia | reflexivity]).
  exact (proj2 (proj2 (applyRGBShift_clamped sample_image 3 Hv Ha 1 0 Hx Hy))).
Defined.

(** C5 fails as stated: with the amount -1 the red channel of the first
    column is read from column -1, outside the buffer. *)
Lemma applyRGBShift_negative_amount :
  ¬ rgbshift_clamped (mkImageData [10; 20; 30; 40; 50; 60; 70; 80] 2 1) (-1).
Proof.
  intros H. destruct (H 0 0) as [Hred _]; [cbn; lia | cbn; lia |].
  vm_compute in Hred. destruct Hred as [Hred _]. by apply Hred.
Qed.

(** What the code stores there: the read outside the array is [undefined]
    and 0 is stored, where the clamped column would give 10 and 30. *)
Example negative_shift_pixels :
  let img := mkImageData [10; 20; 30; 40; 50; 60; 70; 80] 2 1 in
  pixel_at (applyRGBShift img (-1)) 0 0 = [Some 0; Some 20; Some 70; Some 40]
  ∧ pixel_at (applyRGBShift img (-1)) 1 0 = [Some 10; Some 60; Some 0; Some 80].
Proof. by vm_compute. Qed.

(** ** Grain *)

(** Every stored byte is a byte. *)
Lemma ToUint8Clamp_range n : 0 ≤ ToUint8Clamp n ≤ 255.
Proof.
  destruct n as [|q]; [done|]. unfold ToUint8Clamp. cbn zeta.
  set (c := Qmin 255 (Qmax 0 q)).
  assert (0 <= c)%Q as H0 by (apply Q.min_glb; [done|apply Q.le_max_l]).
  assert (c <= 255)%Q as H255 by apply Q.le_min_l.
  pose proof (Qfloor_resp_le _ _ H0) as Hf0.
  pose proof (Qfloor_resp_le _ _ H255) as Hf255.
  change (Qfloor 0) with 0 in Hf0. change (Qfloor 255) with 255 in Hf255.
  assert (Qfloor c = 255 → (c < inject_Z (Qfloor c) + (1 # 2))%Q) as Htop.
  { intros ->. change (inject_Z 255) with 255%Q. lra. }
  destruct (Qcompare_spec c (inject_Z (Qfloor c) + (1 # 2))) as [E|E|E].
  - destruct (Z.even _); [lia|].
    destruct (decide (Qfloor c = 255)) as [Ht|]; [|lia].
    apply Htop in Ht. exfalso. revert E Ht.
    generalize (inject_Z (Qfloor c)). intros. lra.
  - lia.
  - destruct (decide (Qfloor c = 255)) as [Ht|]; [|lia].
    apply Htop in Ht. exfalso. revert E Ht.
    generalize (inject_Z (Qfloor c)). intros. lra.
Qed.

Lemma grain_pixel_eq rng opacity i (s : list Z) (k : nat) :
  grain_pixel rng opacity i (s, k)
  = (let noise := grain_noise rng opacity k in
     let s := wrZ s i (grain_byte noise (rd s i)) in
     let s := wrZ s (i + 1) (grain_byte noise (rd s (i + 1))) in
     let s := wrZ s (i + 2) (grain_byte noise (rd s (i + 2))) in
     s, S k).
Proof. reflexivity. Qed.

Lemma grain_loop rng opacity (data0 : list Z) (k0 : nat) (n : Z) :
  len data0 = 4 * n →
  let out := applyGrainEffect rng opacity (data0, k0) in
  out.2 = (k0 + Z.to_nat n)%nat
  ∧ len out.1 = len data0
  ∧ ∀ p, 0 ≤ p < n →
      let noise := grain_noise rng opacity (k0 + Z.to_nat p) in
      rdZ out.1 (4 * p) = Some (grain_byte noise (rd data0 (4 * p)))
      ∧ rdZ out.1 (4 * p + 1) = Some (grain_byte noise (rd data0 (4 * p + 1)))
      ∧ rdZ out.1 (4 * p + 2) = Some (grain_byte noise (rd data0 (4 * p + 2)))
      ∧ rdZ out.1 (4 * p + 3) = rdZ data0 (4 * p + 3).
Proof.
  intros Hlen out. pose proof (len_nonneg data0).
  cut (out.2 = (k0 + Z.to_nat n)%nat
       ∧ len out.1 = len data0
       ∧ (∀ j, 4 * n ≤ j → rdZ out.1 j = rdZ data0 j)
       ∧ ∀ p, 0 ≤ p < n →
           let noise := grain_noise rng opacity (k0 + Z.to_nat p) in
           rdZ out.1 (4 * p) = Some (grain_byte noise (rd data0 (4 * p)))
           ∧ rdZ out.1 (4 * p + 1) = Some (grain_byte noise (rd data0 (4 * p + 1)))
           ∧ rdZ out.1 (4 * p + 2) = Some (grain_byte noise (rd data0 (4 * p + 2)))
           ∧ rdZ out.1 (4 * p + 3) = rdZ data0 (4 * p + 3)); [tauto|].
  subst out. unfold applyGrainEffect. cbn [fst].
  apply (for_step4_inv (λ k (st : list Z * nat),
    st.2 = (k0 + Z.to_nat k)%nat
    ∧ len st.1 = len data0
    ∧ (∀ j, 4 * k ≤ j → rdZ st.1 j = rdZ data0 j)
    ∧ ∀ p, 0 ≤ p < k →
        let noise := grain_noise rng opacity (k0 + Z.to_nat p) in
        rdZ st.1 (4 * p) = Some (grain_byte noise (rd data0 (4 * p)))
        ∧ rdZ st.1 (4 * p + 1) = Some (grain_byte noise (rd data0 (4 * p + 1)))
        ∧ rdZ st.1 (4 * p + 2) = Some (grain_byte noise (rd data0 (4 * p + 2)))
        ∧ rdZ st.1 (4 * p + 3) = rdZ data0 (4 * p + 3)) _ n); [done|lia| |].
  - cbn. repeat split; intros; try done; lia.
  - intros k [s m] Hk (Hm & Hl & Hrest & Hdone). cbn [fst snd] in *.
    rewrite grain_pixel_eq. cbn zeta. cbn [fst snd]. subst m.
    set (noise := grain_noise rng opacity (k0 + Z.to_nat k)).
    assert (rd s (4 * k) = rd data0 (4 * k)) as E0
      by (unfold rd; by rewrite Hrest by lia).
    assert (∀ v, rd (wrZ s (4 * k) v) (4 * k + 1) = rd data0 (4 * k + 1)) as E1
      by (intros; unfold rd; rewrite rdZ_wrZ_ne by lia; by rewrite Hrest by lia).
    assert (∀ v v', rd (wrZ (wrZ s (4 * k) v) (4 * k + 1) v') (4 * k + 2)
                    = rd data0 (4 * k + 2)) as E2
      by (intros; unfold rd; rewrite !rdZ_wrZ_ne by lia; by rewrite Hrest by lia).
    rewrite E0, E1, E2.
    split; [lia|]. split; [by rewrite !len_wrZ|]. split.
    + intros j Hj. rd_simpl. apply Hrest. lia.
    + intros p Hp. cbn zeta. destruct (decide (p = k)) as [->|].
      * fold noise. repeat split; rd_simpl. apply Hrest. lia.
      * destruct (Hdone p) as (?&?&?&?); [lia|].
        repeat split; rd_simpl.
Qed.

(** C4, as amended.  On an array of [n] pixels the grain pass consumes
    exactly one draw of the random source per pixel; the one noise term
    [(random - 0.5) * (opacity / 100) * 255] of a pixel, computed in doubles
    ([grain_noise]), is added to its red, green and blue bytes alike, each
    sum being a double that is clamped to [0, 255] before it is stored
    ([grain_byte]), and the alpha byte is left as it was. *)
Theorem applyGrainEffect_one_draw_per_pixel rng opacity (data0 : list Z)
    (k0 : nat) (n : Z) :
  len data0 = 4 * n →
  let out := applyGrainEffect rng opacity (data0, k0) in
  out.2 = (k0 + Z.to_nat n)%nat
  ∧ len out.1 = len data0
  ∧ ∀ p, 0 ≤ p < n →
      let noise := grain_noise rng opacity (k0 + Z.to_nat p) in
      rdZ out.1 (4 * p + 3) = rdZ data0 (4 * p + 3)
      ∧ ∀ c, 0 ≤ c < 3 →
          let byte := grain_byte noise (rd data0 (4 * p + c)) in
          rdZ out.1 (4 * p + c) = Some byte ∧ 0 ≤ byte ≤ 255.
Proof.
  intros Hlen out.
  destruct (grain_loop rng opacity data0 k0 n Hlen) as (Hk & Hl & Hp).
  split; [done|]. split; [done|].
  intros p Hpn noise. destruct (Hp p Hpn) as (H0 & H1 & H2 & H3).
  split; [done|]. intros c Hc byte.
  split; [|apply ToUint8Clamp_range].
  assert (c = 0 ∨ c = 1 ∨ c = 2) as [-> | [-> | ->]] by lia;
    subst byte; rewrite ?Z.add_0_r; done.
Qed.

(** The hypothesis of the amended C4 holds of an array of two pixels. *)
Lemma applyGrainEffect_one_draw_per_pixel_witness :
  (applyGrainEffect sample_rng 100
     ([100; 100; 100; 255; 100; 100; 100; 255], O)).2 = 2%nat.
Proof.
  refine (proj1 (applyGrainEffect_one_draw_per_pixel sample_rng 100
                   [100; 100; 100; 255; 100; 100; 100; 255] O 2 _)).
  reflexivity.
Defined.

(** C4 fails as stated: the three channels of a pixel do not receive
    separate draws.  With the draws 3/4, 1/4, 1/4, ... and full opacity, a
    grey pixel (100, 100, 100) stays grey, (164, 164, 164), where separate
    draws would give (164, 36, 36). *)
Lemma applyGrainEffect_shares_noise :
  ¬ grain_per_channel sample_rng 100 ([100; 100; 100; 255], O).
Proof. unfold grain_per_channel. by vm_compute. Qed.

Example grain_noise_values :
  applyGrainEffect sample_rng 100 ([100; 100; 100; 255], O)
  = ([164; 164; 164; 255], 1%nat)
  ∧ grain_spec sample_rng 100 ([100; 100; 100; 255], O)
    = ([164; 36; 36; 255], 3%nat).
Proof. by vm_compute. Qed.

(** Two passes whose bytes turn on the rounding of the doubles.  With an
    opacity of 80 and a draw of 1/8 the noise is -76.50000000000001 and a
    byte of 100 becomes 23, where the exact sum 23.5 would be stored as 24;
    with the double 0.39215686274509776 as opacity and a draw of 0 a byte of
    5 becomes 4. *)
Example grain_rounding_values :
  applyGrainEffect (λ _, 1 # 8) 80 ([100; 100; 100; 255], O)
  = ([23; 23; 23; 255], 1%nat)
  ∧ applyGrainEffect (λ _, 0%Q) (1766117500929605 # 4503599627370496)
      ([5; 5; 5; 255], O)
    = ([4; 4; 4; 255], 1%nat).
Proof. by vm_compute. Qed.

(** ** Gamma *)

(** [k] is the largest number of [0 .. n] that is 0 or passes [test]. *)
Lemma largest_below_spec (test : Z → bool) (fuel : nat) :
  let k := largest_below fuel test in
  0 ≤ k ≤ Z.of_nat fuel
  ∧ (k = 0 ∨ test k = true)
  ∧ ∀ j, k < j ≤ Z.of_nat fuel → test j = false.
Proof.
  induction fuel as [|n IH]; cbn zeta.
  - cbn. split; [lia|]. split; [by left|]. intros; lia.
  - cbn [largest_below]. destruct (test (Z.of_nat (S n))) eqn:E.
    + split; [lia|]. split; [by right|]. intros; lia.
    + destruct IH as (Hk & Ht & Hj). split; [lia|]. split; [done|].
      intros j Hjr. destruct (decide (j = Z.of_nat (S n))) as [->|]; [done|].
      apply Hj. lia.
Qed.

(** The byte of the gamma pass, by the two integer comparisons that
    bracket it. *)
Lemma pow_byte_bracket gamma v :
  0 < Qnum gamma → 1 ≤ v →
  let a := Qnum gamma in
  let b := Zpos (Qden gamma) in
  let k := pow_byte gamma (Some v) in
  0 ≤ k ≤ 255
  ∧ (1 ≤ k → (2 * k - 1) ^ a * 255 ^ b < v ^ b * 510 ^ a)
  ∧ (k < 255 → v ^ b * 510 ^ a < (2 * k + 1) ^ a * 255 ^ b).
Proof.
  intros Ha Hv a b k. subst k. unfold pow_byte. fold a b.
  destruct (Z.eqb_spec a 0); [lia|].
  destruct (Z.ltb_spec a 0); [lia|].
  destruct (Z.leb_spec v 0); [lia|]. cbn zeta.
  set (test := λ k, _ <=? _).
  destruct (largest_below_spec test 255) as (H1 & H2 & H3).
  set (k := largest_below 255 test) in *. change (Z.of_nat 255) with 255 in *.
  split; [done|]. split.
  - intros Hk. destruct H2 as [H2|H2]; [lia|].
    unfold test in H2. apply Z.leb_le in H2.
    assert (Z.odd ((2 * k - 1) ^ a * 255 ^ b) = true) as Hodd.
    { rewrite Z.odd_mul, !Z.odd_pow by lia.
      replace (2 * k - 1) with (1 + 2 * (k - 1)) by lia.
      by rewrite Z.odd_add_mul_2. }
    assert (Z.odd (v ^ b * 510 ^ a) = false) as Heven.
    { rewrite Z.odd_mul, (Z.odd_pow 510) by lia. apply andb_false_r. }
    destruct (decide ((2 * k - 1) ^ a * 255 ^ b = v ^ b * 510 ^ a)) as [E|];
      [|lia].
    rewrite E in Hodd. congruence.
  - intros Hk. specialize (H3 (k + 1)). unfold test in H3.
    rewrite Z.leb_gt in H3. replace (2 * (k + 1) - 1) with (2 * k + 1) in H3 by lia.
    apply H3. lia.
Qed.

(** An order between [n]-th powers of non-negative reals is the order
    between the reals. *)
Lemma pow_lt_inv (x y : R) (n : nat) :
  (0 <= x)%R → (0 <= y)%R → (x ^ n < y ^ n)%R → (x < y)%R.
Proof.
  intros Hx Hy H. destruct (Rlt_le_dec x y) as [|Hle]; [done|].
  assert (y ^ n <= x ^ n)%R by (apply pow_incr; by split).
  Lra.lra.
Qed.

(** [pow_byte] is the byte nearest to the real number
    [255 * (v / 255) ^ (1 / gamma)] that the source computes with
    [Math.pow]: the model of the gamma pass rounds the exact real value. *)
Lemma pow_byte_real gamma v :
  0 < Qnum gamma → 1 ≤ v ≤ 255 →
  let y := (255 * Rpower (IZR v / 255) (/ Q2R gamma))%R in
  let k := pow_byte gamma (Some v) in
  (IZR k - 1 / 2 < y < IZR k + 1 / 2)%R.
Proof.
  intros Ha Hv y k.
  destruct (pow_byte_bracket gamma v Ha) as (Hk & Hlo & Hhi); [lia|].
  fold k in Hk, Hlo, Hhi. cbn zeta in Hlo, Hhi.
  set (a := Qnum gamma) in *. set (b := Z.pos (Qden gamma)) in *.
  set (n := Z.to_nat a). set (m := Z.to_nat b).
  assert (a = Z.of_nat n) as Ea by lia.
  assert (b = Z.of_nat m) as Eb by lia.
  set (x := (IZR v / 255)%R).
  assert (0 < x <= 1)%R as Hx.
  { subst x. assert (1 <= IZR v <= 255)%R as [? ?]
      by (split; apply IZR_le; lia).
    split; [apply Rdiv_lt_0_compat; Lra.lra|].
    apply Rmult_le_reg_r with 255%R; [Lra.lra|].
    unfold Rdiv. rewrite Rmult_assoc, Rinv_l by Lra.lra. Lra.lra. }
  set (t := Rpower x (/ Q2R gamma)).
  assert (0 < t)%R as Ht by apply exp_pos.
  assert (0 < INR n)%R as Hn by (apply lt_0_INR; lia).
  assert (Q2R gamma = INR n / INR m)%R as Eg.
  { unfold Q2R. fold a. rewrite Ea, <- INR_IZR_INZ.
    replace (IZR (Z.pos (Qden gamma))) with (INR m); [done|].
    rewrite INR_IZR_INZ. f_equal. lia. }
  assert (0 < INR m)%R as Hm by (apply lt_0_INR; lia).
  assert (t ^ n = x ^ m)%R as Epow.
  { rewrite <- !Rpower_pow by tauto. unfold t.
    rewrite Rpower_mult. f_equal. rewrite Eg. field. split; Lra.lra. }
  assert (t <= 1)%R as Ht1.
  { destruct (Rle_lt_dec t 1) as [|Hgt]; [done|].
    assert (1 < t ^ n)%R by (apply Rlt_pow_R1; [done|lia]).
    assert (x ^ m <= 1)%R.
    { rewrite <- (pow1 m). apply pow_incr. Lra.lra. }
    Lra.lra. }
  assert (0 < 255 ^ m)%R as HB by (apply pow_lt; Lra.lra).
  assert (0 < 510 ^ n)%R as HD by (apply pow_lt; Lra.lra).
  assert (∀ z : Z, ((IZR z / 510) ^ n
                    = IZR z ^ n * 255 ^ m / (255 ^ m * 510 ^ n))%R) as Eleft.
  { intros z. unfold Rdiv at 1. rewrite Rpow_mult_distr, pow_inv.
    field. split; Lra.lra. }
  assert (t ^ n = IZR v ^ m * 510 ^ n / (255 ^ m * 510 ^ n))%R as Eright.
  { rewrite Epow. unfold x, Rdiv at 1. rewrite Rpow_mult_distr, pow_inv.
    field. split; Lra.lra. }
  assert (0 < / (255 ^ m * 510 ^ n))%R as Hinv
    by (apply Rinv_0_lt_compat, Rmult_lt_0_compat; done).
  rewrite Ea, Eb in Hlo, Hhi.
  split.
  - destruct (decide (1 ≤ k)) as [Hk1|Hk0].
    + specialize (Hlo Hk1). apply IZR_lt in Hlo.
      rewrite !mult_IZR, <- !pow_IZR in Hlo.
      assert ((IZR (2 * k - 1) / 510) ^ n < t ^ n)%R as Hp.
      { rewrite Eleft, Eright. unfold Rdiv.
        by apply Rmult_lt_compat_r. }
      apply pow_lt_inv in Hp; [| |Lra.lra].
      * rewrite minus_IZR, mult_IZR in Hp. subst y. fold x t. Lra.lra.
      * assert (1 <= IZR (2 * k - 1))%R by (apply IZR_le; lia).
        apply Rlt_le, Rdiv_lt_0_compat; Lra.lra.
    + assert (k = 0) as -> by lia. subst y. fold x t. Lra.lra.
  - destruct (decide (k < 255)) as [Hk1|Hk0].
    + specialize (Hhi Hk1). apply IZR_lt in Hhi.
      rewrite !mult_IZR, <- !pow_IZR in Hhi.
      assert (t ^ n < (IZR (2 * k + 1) / 510) ^ n)%R as Hp.
      { rewrite Eleft, Eright. unfold Rdiv.
        by apply Rmult_lt_compat_r. }
      apply pow_lt_inv in Hp; [|Lra.lra|].
      * rewrite plus_IZR, mult_IZR in Hp. subst y. fold x t. Lra.lra.
      * assert (1 <= IZR (2 * k + 1))%R by (apply IZR_le; lia).
        apply Rlt_le, Rdiv_lt_0_compat; Lra.lra.
    + assert (k = 255) as -> by lia. subst y. fold x t. Lra.lra.
Qed.

Lemma gamma_loop (gamma : Q) (data0 : list Z) (n : Z) :
  len data0 = 4 * n →
  let out := for_step4 (len data0) (gamma_pixel gamma) data0 in
  len out = len data0
  ∧ ∀ p, 0 ≤ p < n →
      rdZ out (4 * p) = Some (pow_byte gamma (rdZ data0 (4 * p)))
      ∧ rdZ out (4 * p + 1) = Some (pow_byte gamma (rdZ data0 (4 * p + 1)))
      ∧ rdZ out (4 * p + 2) = Some (pow_byte gamma (rdZ data0 (4 * p + 2)))
      ∧ rdZ out (4 * p + 3) = rdZ data0 (4 * p + 3).
Proof.
  intros Hlen out. pose proof (len_nonneg data0).
  cut (len out = len data0
       ∧ (∀ j, 4 * n ≤ j → rdZ out j = rdZ data0 j)
       ∧ ∀ p, 0 ≤ p < n →
           rdZ out (4 * p) = Some (pow_byte gamma (rdZ data0 (4 * p)))
           ∧ rdZ out (4 * p + 1) = Some (pow_byte gamma (rdZ data0 (4 * p + 1)))
           ∧ rdZ out (4 * p + 2) = Some (pow_byte gamma (rdZ data0 (4 * p + 2)))
           ∧ rdZ out (4 * p + 3) = rdZ data0 (4 * p + 3)); [tauto|].
  subst out.
  apply (for_step4_inv (λ k s,
    len s = len data0
    ∧ (∀ j, 4 * k ≤ j → rdZ s j = rdZ data0 j)
    ∧ ∀ p, 0 ≤ p < k →
        rdZ s (4 * p) = Some (pow_byte gamma (rdZ data0 (4 * p)))
        ∧ rdZ s (4 * p + 1) = Some (pow_byte gamma (rdZ data0 (4 * p + 1)))
        ∧ rdZ s (4 * p + 2) = Some (pow_byte gamma (rdZ data0 (4 * p + 2)))
        ∧ rdZ s (4 * p + 3) = rdZ data0 (4 * p + 3)) _ n); [done|lia| |].
  - repeat split; intros; try done; lia.
  - intros k s Hk (Hl & Hrest & Hdone).
    unfold gamma_pixel. cbn zeta.
    rewrite !rdZ_wrZ_ne by lia. rewrite !Hrest by lia.
    split; [by rewrite !len_wrZ|]. split.
    + intros j Hj. rd_simpl. apply Hrest. lia.
    + intros p Hp. destruct (decide (p = k)) as [->|].
      * repeat split; rd_simpl. apply Hrest. lia.
      * destruct (Hdone p) as (?&?&?&?); [lia|].
        repeat split; rd_simpl.
Qed.

(** The gamma pass on a valid buffer, byte by byte. *)
Lemma applyGamma_bytes (img : ImageData) (gamma : Q) p :
  valid img → 0 ≤ p < width img * height img →
  let out := applyGamma img gamma in
  rdZ (data out) (4 * p + 3) = rdZ (data img) (4 * p + 3)
  ∧ ∀ c, 0 ≤ c < 3 →
      ∃ v, rdZ (data img) (4 * p + c) = Some v ∧ 0 ≤ v ≤ 255
           ∧ rdZ (data out) (4 * p + c) = Some (pow_byte gamma (Some v)).
Proof.
  intros [Hw Hh Hlen Hb] Hp out.
  assert (len (data img) = 4 * (width img * height img)) as Hlen4 by lia.
  destruct (gamma_loop gamma (data img) _ Hlen4) as [_ Hout].
  destruct (Hout p Hp) as (H0 & H1 & H2 & H3).
  split; [done|]. intros c Hc.
  destruct (rdZ_in_range (data img) (4 * p + c)) as [v Hv]; [lia|].
  exists v. split; [done|]. split; [by eapply rdZ_bytes|].
  rewrite <- Hv.
  assert (c = 0 ∨ c = 1 ∨ c = 2) as [-> | [-> | ->]] by lia;
    rewrite ?Z.add_0_r; done.
Qed.

Lemma pow_byte_range gamma v : 0 ≤ pow_byte gamma v ≤ 255.
Proof.
  unfold pow_byte. destruct v as [v|]; [|lia].
  repeat case_match; try lia.
  match goal with |- context [largest_below 255 ?t] =>
    destruct (largest_below_spec t 255) as [Hr _] end.
  cbn zeta in Hr. lia.
Qed.

(** The gamma pass keeps a valid buffer valid. *)
Lemma applyGamma_valid (img : ImageData) (gamma : Q) :
  valid img → valid (applyGamma img gamma).
Proof.
  intros Hv. pose proof Hv as [Hw Hh Hlen Hb].
  assert (len (data img) = 4 * (width img * height img)) as Hlen4 by lia.
  destruct (gamma_loop gamma (data img) _ Hlen4) as [Hl Hout].
  split; cbn [applyGamma width height data]; [done|done|lia|].
  apply bytes_rdZ. intros j v Hj.
  pose proof (rdZ_Some_range _ _ _ Hj) as Hr.
  destruct (pixel_channel j) as [Ej Hc].
  destruct (Hout (j `div` 4)) as (H0 & H1 & H2 & H3); [lia|].
  rewrite Ej in Hj.
  assert (j `mod` 4 = 0 ∨ j `mod` 4 = 1 ∨ j `mod` 4 = 2 ∨ j `mod` 4 = 3)
    as [E | [E | [E | E]]] by lia; rewrite E, ?Z.add_0_r in Hj.
  - rewrite H0 in Hj. injection Hj as <-. apply pow_byte_range.
  - rewrite H1 in Hj. injection Hj as <-. apply pow_byte_range.
  - rewrite H2 in Hj. injection Hj as <-. apply pow_byte_range.
  - rewrite H3 in Hj. by eapply rdZ_bytes.
Qed.

(** Powers of a base in (0, 1]. *)
Lemma Rpower_le_1 (u e : R) :
  (0 < u <= 1)%R → (0 <= e)%R → (Rpower u e <= 1)%R.
Proof.
  intros Hu He. apply Rle_trans with (Rpower 1 e).
  - by apply Rle_Rpower_l.
  - unfold Rpower. rewrite ln_1, Rmult_0_r, exp_0. Lra.lra.
Qed.

Lemma Rpower_le_base (u e : R) :
  (0 < u <= 1)%R → (1 <= e)%R → (Rpower u e <= u)%R.
Proof.
  intros Hu He. replace e with (1 + (e - 1))%R by Lra.lra.
  rewrite Rpower_plus, Rpower_1 by tauto.
  assert (Rpower u (e - 1) <= 1)%R by (apply Rpower_le_1; [done|Lra.lra]).
  assert (0 < Rpower u (e - 1))%R by apply exp_pos.
  Lra.nra.
Qed.

(** On (0, 1] the power function of exponent [e >= 1] is monotone and
    [e]-Lipschitz (mean value theorem). *)
Lemma Rpower_lipschitz (a b e : R) :
  (1 <= e)%R → (0 < a)%R → (a <= b)%R → (b <= 1)%R →
  (0 <= Rpower b e - Rpower a e <= e * (b - a))%R.
Proof.
  intros He Ha Hab Hb.
  destruct (Req_dec a b) as [->|Hne]; [Lra.lra|].
  destruct (MVT_cor2 (λ x, Rpower x e) (λ x, (e * Rpower x (e - 1))%R) a b)
    as (c & Hc & Hac); [Lra.lra| |].
  { intros c Hc. apply derivable_pt_lim_power. Lra.lra. }
  assert (0 < Rpower c (e - 1))%R by apply exp_pos.
  assert (Rpower c (e - 1) <= 1)%R by (apply Rpower_le_1; Lra.lra).
  assert (0 <= e * (b - a))%R as Hpos by (apply Rmult_le_pos; Lra.lra).
  rewrite Hc. split.
  - apply Rmult_le_pos; [|Lra.lra]. apply Rmult_le_pos; Lra.lra.
  - replace (e * Rpower c (e - 1) * (b - a))%R
      with (e * (b - a) * Rpower c (e - 1))%R by ring.
    rewrite <- (Rmult_1_r (e * (b - a))) at 2.
    by apply Rmult_le_compat_l.
Qed.

(** For a base in (0, 1] a larger exponent gives a smaller power. *)
Lemma Rpower_antitone (u e1 e2 : R) :
  (0 < u <= 1)%R → (e1 <= e2)%R → (Rpower u e2 <= Rpower u e1)%R.
Proof.
  intros Hu He. replace e2 with (e1 + (e2 - e1))%R by Lra.lra.
  rewrite Rpower_plus.
  assert (Rpower u (e2 - e1) <= 1)%R by (apply Rpower_le_1; [done|Lra.lra]).
  assert (0 < Rpower u e1)%R by apply exp_pos.
  assert (0 < Rpower u (e2 - e1))%R by apply exp_pos.
  Lra.nra.
Qed.

(** Away from 0 the power function of exponent [e <= 1] is monotone and
    Lipschitz with the slope at the left end (mean value theorem). *)
Lemma Rpower_lipschitz_low (a b a0 e : R) :
  (0 < e <= 1)%R → (0 < a0 <= a)%R → (a <= b)%R →
  (0 <= Rpower b e - Rpower a e <= e * Rpower a0 (e - 1) * (b - a))%R.
Proof.
  intros He Ha Hab.
  assert (0 < Rpower a0 (e - 1))%R as Hs by apply exp_pos.
  destruct (Req_dec a b) as [->|Hne].
  { rewrite Rminus_diag. Lra.nra. }
  destruct (MVT_cor2 (λ x, Rpower x e) (λ x, (e * Rpower x (e - 1))%R) a b)
    as (c & Hc & Hac); [Lra.lra| |].
  { intros c Hc. apply derivable_pt_lim_power. Lra.lra. }
  assert (0 < Rpower c (e - 1))%R by apply exp_pos.
  assert (Rpower c (e - 1) <= Rpower a0 (e - 1))%R as Hslope.
  { assert (Rpower a0 (1 - e) <= Rpower c (1 - e))%R as Hle
      by (apply Rle_Rpower_l; Lra.lra).
    replace (e - 1)%R with (- (1 - e))%R by ring.
    rewrite !Rpower_Ropp. apply Rinv_le_contravar; [apply exp_pos|done]. }
  rewrite Hc. split.
  - apply Rmult_le_pos; [|Lra.lra]. apply Rmult_le_pos; Lra.lra.
  - apply Rmult_le_compat_r; [Lra.lra|].
    apply Rmult_le_compat_l; Lra.lra.
Qed.

Lemma pow_lt_mono (x y : R) (n : nat) :
  (0 <= x)%R → (x < y)%R → (0 < n)%nat → (x ^ n < y ^ n)%R.
Proof.
  intros Hx Hxy Hn. destruct n as [|n]; [lia|]. clear Hn.
  induction n as [|n IH]; [Lra.lra|].
  change (x ^ S (S n))%R with (x * x ^ S n)%R.
  change (y ^ S (S n))%R with (y * y ^ S n)%R.
  assert (0 <= x ^ S n)%R by (apply pow_le; Lra.lra).
  Lra.nra.
Qed.

Lemma Rpower_root_le (x y : R) (n : nat) (e : R) :
  (0 < x)%R → (0 < y)%R → (0 < n)%nat →
  (Rpower x (e * INR n) <= y ^ n)%R → (Rpower x e <= y)%R.
Proof.
  intros Hx Hy Hn Hle.
  destruct (Rle_lt_dec (Rpower x e) y) as [|Hgt]; [done|]. exfalso.
  assert (0 < Rpower x e)%R as Hz by apply exp_pos.
  assert (Rpower x (e * INR n) = Rpower x e ^ n)%R as E.
  { rewrite <- Rpower_mult. by rewrite Rpower_pow. }
  rewrite E in Hle.
  assert (y ^ n < Rpower x e ^ n)%R; [|Lra.lra].
  apply pow_lt_mono; [Lra.lra|done|done].
Qed.

(** The slope bound of the inverse curve for a gamma between 0.8 and 1. *)
Lemma slope_510 (G : R) :
  (4 / 5 <= G)%R → (G <= 1)%R → (G * Rpower 510 (1 - G) <= 3)%R.
Proof.
  intros HG1 HG2.
  assert (0 < Rpower 510 (1 - G))%R by apply exp_pos.
  destruct (Rle_lt_dec G (17 / 20)) as [Hlow|Hhigh].
  - assert (Rpower 510 (1 - G) <= 7 / 2)%R; [|Lra.nra].
    apply Rle_trans with (Rpower 510 (/ 5)).
    + apply Rle_Rpower; Lra.lra.
    + apply (Rpower_root_le 510 (7 / 2) 5); [Lra.lra|Lra.lra|lia|].
      replace (/ 5 * INR 5)%R with 1%R by (cbn; Lra.lra).
      rewrite Rpower_1 by Lra.lra. Lra.lra.
  - assert (Rpower 510 (1 - G) <= 3)%R; [|Lra.nra].
    apply Rle_trans with (Rpower 510 (3 / 20)).
    + apply Rle_Rpower; Lra.lra.
    + apply (Rpower_root_le 510 3 20); [Lra.lra|Lra.lra|lia|].
      replace (3 / 20 * INR 20)%R with (INR 3) by (cbn; Lra.lra).
      rewrite Rpower_pow by Lra.lra. Lra.lra.
Qed.

(** With an exponent of at most 5/4, the byte 2 is not sent below 1/2. *)
Lemma low_bytes (e : R) :
  (1 <= e)%R → (e <= 5 / 4)%R → (/ 510 <= Rpower (2 / 255) e)%R.
Proof.
  intros He1 He2.
  apply Rle_trans with (Rpower (2 / 255) (5 / 4)).
  - destruct (Rle_lt_dec (/ 510) (Rpower (2 / 255) (5 / 4))) as [|Hgt]; [done|].
    exfalso.
    assert (0 < Rpower (2 / 255) (5 / 4))%R as Hz by apply exp_pos.
    assert (Rpower (2 / 255) (5 / 4) ^ 4 < (/ 510) ^ 4)%R as Hlt
      by (apply pow_lt_mono; [Lra.lra|done|lia]).
    rewrite <- Rpower_pow in Hlt by done. rewrite Rpower_mult in Hlt.
    replace (5 / 4 * INR 4)%R with (INR 5) in Hlt by (cbn; Lra.lra).
    rewrite Rpower_pow in Hlt by Lra.lra.
    Lra.lra.
  - apply Rpower_antitone; Lra.lra.
Qed.

(** The round trip of one byte, for a gamma between 1 and 3: the inverse
    curve is [g]-Lipschitz. *)
Lemma gamma_round_trip_high (g : Q) (v : Z) :
  (1 <= g)%Q → (g <= 3)%Q → 0 ≤ v ≤ 255 →
  v - 1 ≤ pow_byte (/ g) (Some (pow_byte g (Some v))) ≤ v + 1.
Proof.
  intros Hg1 Hg2 Hv.
  assert (0 < Qnum g) as Ha.
  { unfold Qle in Hg1. cbn in Hg1. lia. }
  assert (0 < Qnum (/ g)) as Ha'.
  { destruct g as [[|p|p] d]; cbn in *; lia. }
  destruct (decide (v = 0)) as [->|Hv0].
  { assert (pow_byte g (Some 0) = 0) as ->.
    { unfold pow_byte. destruct (Z.eqb_spec (Qnum g) 0); [done|].
      destruct (Z.ltb_spec (Qnum g) 0); [lia|done]. }
    assert (pow_byte (/ g) (Some 0) = 0) as ->; [|lia].
    unfold pow_byte. destruct (Z.eqb_spec (Qnum (/ g)) 0); [done|].
    destruct (Z.ltb_spec (Qnum (/ g)) 0); [lia|done]. }
  assert (1 <= Q2R g <= 3)%R as [HG1 HG2].
  { apply Qle_Rle in Hg1, Hg2.
    rewrite RMicromega.Q2R_1 in Hg1.
    replace (Q2R 3) with 3%R in Hg2 by (unfold Q2R; cbn; Lra.lra). done. }
  set (G := Q2R g) in *.
  pose proof (pow_byte_real g v Ha ltac:(lia)) as H1. cbn zeta in H1.
  pose proof (pow_byte_range g (Some v)) as Hk1.
  set (k1 := pow_byte g (Some v)) in *. fold G in H1.
  set (x := (IZR v / 255)%R) in *.
  assert (/ 255 <= x <= 1)%R as Hx.
  { subst x. assert (1 <= IZR v <= 255)%R as [? ?]
      by (split; apply IZR_le; lia). split; Lra.lra. }
  set (u := Rpower x (/ G)) in *.
  assert (0 < u)%R as Hu0 by apply exp_pos.
  assert (u <= 1)%R as Hu1.
  { apply Rpower_le_1; [Lra.lra|]. apply Rlt_le, Rinv_0_lt_compat. Lra.lra. }
  assert (Rpower u G = x) as Eux.
  { unfold u. rewrite Rpower_mult, Rinv_l by Lra.lra. apply Rpower_1. Lra.lra. }
  assert (1 ≤ k1) as Hk1pos.
  { destruct (decide (1 ≤ k1)) as [|Hk0]; [done|]. exfalso.
    assert (k1 = 0) as E by lia. rewrite E in H1.
    assert (Rpower u G <= u)%R by (apply Rpower_le_base; Lra.lra).
    Lra.lra. }
  pose proof (pow_byte_real (/ g) k1 Ha' ltac:(lia)) as H2. cbn zeta in H2.
  rewrite Q2R_inv in H2 by (unfold Qeq; cbn; lia).
  rewrite Rinv_inv in H2. fold G in H2.
  set (k2 := pow_byte (/ g) (Some k1)) in *.
  set (w := (IZR k1 / 255)%R) in *.
  assert (0 < w <= 1)%R as Hw.
  { subst w. assert (1 <= IZR k1 <= 255)%R as [? ?]
      by (split; apply IZR_le; lia). split; Lra.lra. }
  assert (IZR v = 255 * Rpower u G)%R as Ev by (rewrite Eux; subst x; Lra.lra).
  assert (- (3 / 2) < 255 * Rpower w G - IZR v < 3 / 2)%R as Hclose.
  { rewrite Ev. destruct (Rle_lt_dec u w) as [Hle|Hlt].
    - pose proof (Rpower_lipschitz u w G HG1 Hu0 Hle ltac:(tauto)).
      subst w. Lra.nra.
    - pose proof (Rpower_lipschitz w u G HG1 ltac:(tauto) ltac:(Lra.lra) Hu1).
      subst w. Lra.nra. }
  assert (IZR (v - 2) < IZR k2 < IZR (v + 2))%R as [Hlo Hhi].
  { rewrite minus_IZR, plus_IZR. Lra.lra. }
  apply lt_IZR in Hlo, Hhi. lia.
Qed.

(** The round trip of one byte, for a gamma between 0.8 and 1: the inverse
    curve is steep near 0, but the bytes 0 and 1 are the only ones that the
    first pass stores as 0, and from 1/2 on its slope stays below 3. *)
Lemma gamma_round_trip_low (g : Q) (v : Z) :
  (4 # 5 <= g)%Q → (g <= 1)%Q → 0 ≤ v ≤ 255 →
  v - 1 ≤ pow_byte (/ g) (Some (pow_byte g (Some v))) ≤ v + 1.
Proof.
  intros Hg1 Hg2 Hv.
  assert (0 < Qnum g) as Ha.
  { unfold Qle in Hg1. cbn in Hg1. lia. }
  assert (0 < Qnum (/ g)) as Ha'.
  { destruct g as [[|p|p] d]; cbn in *; lia. }
  assert (pow_byte (/ g) (Some 0) = 0) as Hzero.
  { unfold pow_byte. destruct (Z.eqb_spec (Qnum (/ g)) 0); [done|].
    destruct (Z.ltb_spec (Qnum (/ g)) 0); [lia|done]. }
  destruct (decide (v = 0)) as [->|Hv0].
  { assert (pow_byte g (Some 0) = 0) as ->; [|lia].
    unfold pow_byte. destruct (Z.eqb_spec (Qnum g) 0); [done|].
    destruct (Z.ltb_spec (Qnum g) 0); [lia|done]. }
  assert (4 / 5 <= Q2R g <= 1)%R as [HG1 HG2].
  { apply Qle_Rle in Hg1, Hg2.
    rewrite RMicromega.Q2R_1 in Hg2.
    replace (Q2R (4 # 5)) with (4 / 5)%R in Hg1 by (unfold Q2R; cbn; Lra.lra).
    done. }
  set (G := Q2R g) in *.
  assert (1 <= / G <= 5 / 4)%R as HE.
  { split.
    - rewrite <- Rinv_1. apply Rinv_le_contravar; Lra.lra.
    - replace (5 / 4)%R with (/ (4 / 5))%R by Lra.lra.
      apply Rinv_le_contravar; Lra.lra. }
  pose proof (pow_byte_real g v Ha ltac:(lia)) as H1. cbn zeta in H1.
  pose proof (pow_byte_range g (Some v)) as Hk1.
  set (k1 := pow_byte g (Some v)) in *. fold G in H1.
  set (x := (IZR v / 255)%R) in *.
  assert (/ 255 <= x <= 1)%R as Hx.
  { subst x. assert (1 <= IZR v <= 255)%R as [? ?]
      by (split; apply IZR_le; lia). split; Lra.lra. }
  set (u := Rpower x (/ G)) in *.
  assert (0 < u)%R as Hu0 by apply exp_pos.
  assert (Rpower u G = x) as Eux.
  { unfold u. rewrite Rpower_mult, Rinv_l by Lra.lra. apply Rpower_1. Lra.lra. }
  destruct (decide (k1 = 0)) as [Hk0|Hk0].
  { (* only the byte 1 is stored as 0 *)
    rewrite Hk0, Hzero. rewrite Hk0 in H1.
    destruct (decide (v ≤ 1)) as [|Hv2]; [lia|]. exfalso.
    assert (2 / 255 <= x)%R as Hx2.
    { subst x. assert (2 <= IZR v)%R by (apply IZR_le; lia). Lra.lra. }
    assert (Rpower (2 / 255) (/ G) <= u)%R
      by (apply Rle_Rpower_l; Lra.lra).
    pose proof (low_bytes (/ G) ltac:(tauto) ltac:(tauto)).
    Lra.lra. }
  pose proof (pow_byte_real (/ g) k1 Ha' ltac:(lia)) as H2. cbn zeta in H2.
  rewrite Q2R_inv in H2 by (unfold Qeq; cbn; lia).
  rewrite Rinv_inv in H2. fold G in H2.
  set (k2 := pow_byte (/ g) (Some k1)) in *.
  set (w := (IZR k1 / 255)%R) in *.
  assert (/ 510 < w)%R as Hw.
  { subst w. assert (1 <= IZR k1)%R by (apply IZR_le; lia). Lra.lra. }
  assert (/ 510 < u)%R as Hu.
  { assert (1 <= IZR k1)%R by (apply IZR_le; lia). Lra.lra. }
  assert (IZR v = 255 * Rpower u G)%R as Ev by (rewrite Eux; subst x; Lra.lra).
  assert (Rpower (/ 510) (G - 1) = Rpower 510 (1 - G)) as Eslope.
  { unfold Rpower. rewrite ln_Rinv by Lra.lra. f_equal. ring. }
  pose proof (slope_510 G HG1 HG2) as Hslope.
  assert (0 < Rpower 510 (1 - G))%R as Hpos by apply exp_pos.
  assert (- (3 / 2) < 255 * Rpower w G - IZR v < 3 / 2)%R as Hclose.
  { rewrite Ev. destruct (Rle_lt_dec u w) as [Hle|Hlt].
    - pose proof (Rpower_lipschitz_low u w (/ 510) G ltac:(Lra.lra)
                    ltac:(Lra.lra) Hle) as HL.
      rewrite Eslope in HL.
      assert (0 <= w - u < / 510)%R by (subst w; Lra.lra).
      assert (G * Rpower 510 (1 - G) * (w - u) <= 3 * (w - u))%R
        by (apply Rmult_le_compat_r; Lra.lra).
      Lra.lra.
    - pose proof (Rpower_lipschitz_low w u (/ 510) G ltac:(Lra.lra)
                    ltac:(Lra.lra) ltac:(Lra.lra)) as HL.
      rewrite Eslope in HL.
      assert (0 <= u - w < / 510)%R by (subst w; Lra.lra).
      assert (G * Rpower 510 (1 - G) * (u - w) <= 3 * (u - w))%R
        by (apply Rmult_le_compat_r; Lra.lra).
      Lra.lra. }
  assert (IZR (v - 2) < IZR k2 < IZR (v + 2))%R as [Hlo Hhi].
  { rewrite minus_IZR, plus_IZR. Lra.lra. }
  apply lt_IZR in Hlo, Hhi. lia.
Qed.

(** The round trip of one byte, for a gamma between 0.8 and 3. *)
Lemma gamma_round_trip_byte (g : Q) (v : Z) :
  (4 # 5 <= g)%Q → (g <= 3)%Q → 0 ≤ v ≤ 255 →
  v - 1 ≤ pow_byte (/ g) (Some (pow_byte g (Some v))) ≤ v + 1.
Proof.
  intros Hg1 Hg2 Hv. destruct (Qlt_le_dec g 1) as [Hlt|Hge].
  - apply gamma_round_trip_low; [done|lra|done].
  - by apply gamma_round_trip_high.
Qed.

(** C2, as amended.  For every gamma between 0.8 and 3 (the values 0.8,
    0.9, ..., 3.0 of the slider are in this range, the default 1.2 among
    them): on
    a valid buffer, the gamma pass with parameter [g] followed by the pass
    with parameter [1 / g] brings every red, green and blue byte back within
    1 of the original and leaves every alpha byte untouched. *)
Theorem applyGamma_round_trip (img : ImageData) (g : Q) :
  valid img → (4 # 5 <= g)%Q → (g <= 3)%Q → gamma_round_trip img g.
Proof.
  intros Hv Hg1 Hg2 p Hp.
  pose proof (applyGamma_valid img g Hv) as Hv1.
  destruct (applyGamma_bytes img g p Hv Hp) as [Ha1 Hc1].
  destruct (applyGamma_bytes (applyGamma img g) (/ g) p Hv1 Hp) as [Ha2 Hc2].
  split; [congruence|]. intros c Hc.
  destruct (Hc1 c Hc) as (v & Hr & Hrange & Hw).
  destruct (Hc2 c Hc) as (v1 & Hr1 & _ & Hw1).
  exists v, (pow_byte (/ g) (Some v1)).
  split; [done|]. split; [done|].
  assert (v1 = pow_byte g (Some v)) as -> by congruence.
  by apply gamma_round_trip_byte.
Qed.

(** The hypotheses of the amended C2 hold of the sample image and the
    default gamma 1.2; the red byte 10 of the first pixel goes to 17 and
    comes back as 10. *)
Lemma applyGamma_round_trip_witness :
  ∃ v v', rdZ (data sample_image) (4 * 0 + 0) = Some v
          ∧ rdZ (data (applyGamma (applyGamma sample_image (6 # 5)) (/ (6 # 5))))
              (4 * 0 + 0) = Some v'
          ∧ v - 1 ≤ v' ≤ v + 1.
Proof.
  assert (valid sample_image) as Hv.
  { split; [reflexivity | reflexivity | reflexivity | ].
    unfold bytes. repeat constructor; lia. }
  assert (4 # 5 <= 6 # 5)%Q as Hg1 by discriminate.
  assert (6 # 5 <= 3)%Q as Hg2 by discriminate.
  assert (0 ≤ 0 < width sample_image * height sample_image) as Hp
    by (split; [lia | reflexivity]).
  assert (0 ≤ 0 < 3) as Hc by lia.
  exact (proj2 (applyGamma_round_trip sample_image (6 # 5) Hv Hg1 Hg2 0 Hp) 0 Hc).
Defined.

(** C2 fails as stated: with g = 1/2 the first pass squares the normalised
    value, so the byte 10 becomes 255 * (10/255)^2 = 0.39..., stored as 0,
    and the pass with 1/g = 2 maps 0 to 0. *)
Lemma applyGamma_round_trip_fails :
  ¬ gamma_round_trip (mkImageData [10; 20; 30; 255] 1 1) (1 # 2).
Proof.
  intros H. destruct (H 0) as [_ Hc]; [done|].
  destruct (Hc 0) as (v & v' & Hv & Hv' & Hr); [done|].
  vm_compute in Hv, Hv'. injection Hv as <-. injection Hv' as <-. lia.
Qed.

Example gamma_half_values :
  data (applyGamma (mkImageData [10; 20; 30; 255] 1 1) (1 # 2)) = [0; 2; 4; 255]
  ∧ data (applyGamma (applyGamma (mkImageData [10; 20; 30; 255] 1 1) (1 # 2)) (/ (1 # 2)))
    = [0; 23; 32; 255].
Proof. by vm_compute. Qed.

(** Below 0.8 the bound is lost at the next value of the slider: with
    g = 0.7 the bytes 2 and 3 are stored as 0 by the first pass and the
    byte 7 comes back as 5. *)
Example gamma_07_values :
  data (applyGamma (applyGamma (mkImageData [2; 3; 7; 255] 1 1) (7 # 10)) (/ (7 # 10)))
  = [0; 0; 5; 255].
Proof. by vm_compute. Qed.

(** ** The pipeline *)

Lemma for_range_preserve {St : Type} (P : St → Prop) lo hi (body : Z → St → St) s :
  (∀ i s, P s → P (body i s)) → P s → P (for_range lo hi body s).
Proof.
  intros Hstep. unfold for_range. revert s.
  induction (seqZ lo (hi - lo)) as [|i l IH]; intros s Hs; [done|].
  cbn. apply IH, Hstep, Hs.
Qed.

Lemma for_step4_preserve {St : Type} (P : St → Prop) n (body : Z → St → St) s :
  (∀ i s, P s → P (body i s)) → P s → P (for_step4 n body s).
Proof.
  intros Hstep. rewrite for_step4_range. apply for_range_preserve.
  intros i s'. apply Hstep.
Qed.

(** Every effect keeps the dimensions and the length of the image. *)
Lemma apply_effect_shape (img : ImageData) (effect : ImageEffect) :
  same_shape img (apply_effect img effect).
Proof.
  unfold apply_effect, same_shape.
  destruct (enabled effect); cbn [negb]; [|done].
  destruct (type effect); try done; cbn [width height data applyGamma
    applyThreshold applyEdgeDetection applyRGBShift applyDithering];
    (split; [done|]); (split; [done|]).
  - apply (for_step4_preserve (λ s, len s = len (data img))); [|done].
    intros i s Hs. unfold gamma_pixel. by rewrite !len_wrZ.
  - apply (for_step4_preserve (λ s, len s = len (data img))); [|done].
    intros i s Hs. unfold threshold_pixel. by rewrite !len_wrZ.
  - apply (for_range_preserve (λ s, len s = len (data img)));
      [|apply len_zeros, len_nonneg].
    intros y s Hs. apply for_range_preserve; [|done].
    intros x s' Hs'. unfold edge_pixel. destruct (sobel_at _ _ _ _).
    by rewrite !len_wrZ.
  - apply (for_range_preserve (λ s, len s = len (data img)));
      [|apply len_zeros, len_nonneg].
    intros y s Hs. apply for_range_preserve; [|done].
    intros x s' Hs'. unfold rgbshift_pixel. by rewrite !len_wr.
  - apply (for_range_preserve (λ s, len s = len (data img))); [|done].
    intros y s Hs. apply for_range_preserve; [|done].
    intros x s' Hs'. apply for_range_preserve; [|done].
    intros c s'' Hs''. by rewrite len_dither_channel.
Qed.

Lemma effects_shape (effects : list ImageEffect) (img : ImageData) :
  same_shape img (foldl apply_effect img effects).
Proof.
  revert img. induction effects as [|e l IH]; intros img; [done|].
  cbn [foldl]. destruct (apply_effect_shape img e) as (Hw & Hh & Hl).
  destruct (IH (apply_effect img e)) as (Hw' & Hh' & Hl').
  unfold same_shape. split; [congruence|]. split; congruence.
Qed.

(** A chain with nothing enabled leaves the image alone. *)
Lemma effects_disabled (effects : list ImageEffect) (img : ImageData) :
  Forall (λ e, enabled e = false) effects →
  foldl apply_effect img effects = img.
Proof.
  induction 1 as [|e l He _ IH]; [done|].
  cbn [foldl]. unfold apply_effect at 2. by rewrite He.
Qed.

Lemma canvas_filters_disabled (effects : list ImageEffect) :
  Forall (λ e, enabled e = false) effects → canvas_filters effects = [].
Proof.
  unfold canvas_filters. generalize (@nil Q).
  intros acc H. revert acc.
  induction H as [|e l He _ IH]; intros acc; [done|].
  cbn [foldl]. rewrite He. apply IH.
Qed.

(** Putting an image of the canvas's own dimensions replaces the bitmap. *)
Lemma putImageData_whole (img : ImageData) (cv : Canvas) :
  0 < cv_width cv →
  width img = cv_width cv → height img = cv_height cv →
  len (data img) = cv_width cv * cv_height cv * 4 →
  len (cv_pixels cv) = cv_width cv * cv_height cv * 4 →
  putImageData img cv
  = mkCanvas (cv_width cv) (cv_height cv) (data img) (cv_ctx2d cv) (cv_filter cv).
Proof.
  intros Hw Ew Eh Hl Hlc. unfold putImageData. f_equal.
  apply list_eq. intros i.
  rewrite list_lookup_fmap.
  destruct (decide (Z.of_nat i < len (cv_pixels cv))) as [Hi|Hi].
  - rewrite lookup_seqZ_lt by done. cbn [fmap option_fmap option_map].
    rewrite Z.add_0_l. set (j := Z.of_nat i) in *.
    assert (0 ≤ j) by lia.
    set (p := j `div` 4).
    assert (0 ≤ p < cv_width cv * cv_height cv) as Hp by (subst p; zdiv).
    assert (p `div` cv_width cv * width img + p `mod` cv_width cv = p) as Ep.
    { rewrite Ew. pose proof (Z.div_mod p (cv_width cv)). lia. }
    assert (p `mod` cv_width cv < width img) as Hx
      by (rewrite Ew; apply Z.mod_pos_bound; lia).
    assert (p `div` cv_width cv < height img) as Hy.
    { rewrite Eh. apply Z.div_lt_upper_bound; lia. }
    rewrite decide_True by done. rewrite Ep.
    replace (p * 4 + j `mod` 4) with j by (subst p; zdiv).
    destruct (rdZ_in_range (data img) j) as [v Hv]; [lia|].
    rewrite Hv. cbn. unfold rdZ in Hv. rewrite decide_True in Hv by lia.
    subst j. by rewrite Nat2Z.id in Hv.
  - rewrite lookup_seqZ_ge by lia. cbn. symmetry.
    apply lookup_ge_None. unfold len in *. lia.
Qed.

(** The call on a canvas that has a 2d context and a bitmap that is not
    empty: a new canvas is created, the input canvas and every other canvas
    of the document stay as they were, and the new canvas carries the
    processed pixels. *)
Lemma applyEffectsToCanvas_normal canvas effects doc cv :
  canvases doc !! canvas = Some cv →
  cv_ctx2d cv = true → cv_width cv ≠ 0 → cv_height cv ≠ 0 →
  let r := fresh (dom (canvases doc)) in
  let img := foldl apply_effect
               (mkImageData (cv_pixels cv) (cv_width cv) (cv_height cv)) effects in
  let blank := mkCanvas (cv_width cv) (cv_height cv)
                 (zeros (cv_width cv * cv_height cv * 4)) (new_ctx2d doc) [] in
  ∃ doc',
    applyEffectsToCanvas canvas effects doc = Normal (r, doc')
    ∧ r ≠ canvas
    ∧ canvases doc !! r = None
    ∧ (∀ c, c ≠ r → canvases doc' !! c = canvases doc !! c)
    ∧ canvases doc' !! r
      = Some (if new_ctx2d doc
              then applyCanvasEffects effects (putImageData img blank)
              else blank).
Proof.
  intros Hc Hctx Hw Hh r img blank.
  assert (canvases doc !! r = None) as Hr.
  { apply not_elem_of_dom. apply is_fresh. }
  assert (r ≠ canvas) as Hne by (intros ->; congruence).
  unfold applyEffectsToCanvas. rewrite Hc, Hctx. cbn [negb].
  unfold getImageData. rewrite decide_False by tauto.
  cbn [data width height createCanvas new_ctx2d canvases].
  fold r. fold blank. fold img.
  destruct (new_ctx2d doc) eqn:Hnew.
  - eexists. split; [reflexivity|]. cbn [canvases].
    split; [done|]. split; [done|]. split.
    + intros c Hcr. rewrite lookup_alter_ne by done.
      by rewrite lookup_insert_ne by done.
    + by rewrite lookup_alter_eq, lookup_insert_eq.
  - eexists. split; [reflexivity|]. cbn [canvases].
    split; [done|]. split; [done|]. split.
    + intros c Hcr. by rewrite lookup_insert_ne by done.
    + by rewrite lookup_insert_eq.
Qed.

(** C1, as amended.  For a canvas with a 2d context and a bitmap that is
    not empty, in a document where new canvases have a 2d context, the call
    with an empty chain, or with a chain in which nothing is enabled, returns
    a canvas that did not exist before (not the input canvas), whose
    dimensions and pixel data are identical to the input's; the input canvas
    is unchanged.  The canvas itself is handed on only by the download
    caller, which skips the call when nothing is enabled. *)
Theorem applyEffectsToCanvas_nothing_enabled canvas effects doc cv :
  canvases doc !! canvas = Some cv →
  canvas_ok cv → 0 < cv_width cv → 0 < cv_height cv →
  cv_ctx2d cv = true → new_ctx2d doc = true →
  Forall (λ e, enabled e = false) effects →
  ∃ r doc',
    applyEffectsToCanvas canvas effects doc = Normal (r, doc')
    ∧ r ≠ canvas
    ∧ canvases doc !! r = None
    ∧ canvases doc' !! canvas = Some cv
    ∧ canvases doc' !! r
      = Some (mkCanvas (cv_width cv) (cv_height cv) (cv_pixels cv) true [])
    ∧ finalCanvas canvas effects doc = Normal (canvas, doc).
Proof.
  intros Hc [Hw0 Hh0 Hlen] Hw Hh Hctx Hnew Hoff.
  destruct (applyEffectsToCanvas_normal canvas effects doc cv Hc Hctx)
    as (doc' & Hrun & Hne & Hfresh & Hframe & Hr); [lia|lia|].
  exists (fresh (dom (canvases doc))), doc'.
  split; [done|]. split; [done|]. split; [done|]. split; [|split].
  - rewrite Hframe by done. done.
  - rewrite Hr, Hnew. rewrite effects_disabled by done.
    rewrite putImageData_whole; cbn [cv_width cv_height cv_pixels data width height];
      [|try done..].
    + unfold applyCanvasEffects. rewrite canvas_filters_disabled by done.
      by rewrite decide_False by (cbn; lia).
    + apply len_zeros. nia.
  - unfold finalCanvas.
    assert (existsb enabled effects = false) as ->; [|done].
    clear -Hoff. induction Hoff as [|e l He _ IH]; [done|].
    cbn. by rewrite He, IH.
Qed.

(** The hypotheses of the amended C1 hold of a one-pixel canvas and the
    empty chain. *)
Lemma applyEffectsToCanvas_nothing_enabled_witness :
  ∃ r doc',
    applyEffectsToCanvas 0 [] one_pixel_doc = Normal (r, doc')
    ∧ r ≠ 0%nat
    ∧ canvases one_pixel_doc !! r = None
    ∧ canvases doc' !! 0%nat = Some (mkCanvas 1 1 [10; 20; 30; 255] true [])
    ∧ canvases doc' !! r = Some (mkCanvas 1 1 [10; 20; 30; 255] true [])
    ∧ finalCanvas 0 [] one_pixel_doc = Normal (0%nat, one_pixel_doc).
Proof.
  apply (applyEffectsToCanvas_nothing_enabled 0 [] one_pixel_doc
           (mkCanvas 1 1 [10; 20; 30; 255] true [])).
  - reflexivity.
  - split; [cbn; lia | cbn; lia | reflexivity].
  - reflexivity.
  - reflexivity.
  - reflexivity.
  - reflexivity.
  - constructor.
Defined.

(** C1 fails as stated: on a one-pixel canvas the empty chain returns a new
    canvas, not the canvas it was given. *)
Lemma applyEffectsToCanvas_copies :
  ¬ passes_through 0 [] one_pixel_doc.
Proof.
  unfold passes_through. intros H.
  destruct (applyEffectsToCanvas_normal 0 [] one_pixel_doc
              (mkCanvas 1 1 [10; 20; 30; 255] true []))
    as (doc' & Hrun & Hne & _); [reflexivity | reflexivity | done | done |].
  rewrite Hrun in H. injection H as H _. by apply Hne.
Qed.

(** A canvas with a 2d context and an empty bitmap makes the call throw
    the [IndexSizeError] of [getImageData]. *)
Lemma throw_iff canvas effects doc cv name :
  canvases doc !! canvas = Some cv →
  applyEffectsToCanvas canvas effects doc = Throw name
  ↔ name = "IndexSizeError" ∧ cv_ctx2d cv = true
    ∧ (cv_width cv = 0 ∨ cv_height cv = 0).
Proof.
  intros Hc. unfold applyEffectsToCanvas. rewrite Hc.
  destruct (cv_ctx2d cv); cbn [negb].
  - unfold getImageData. case_decide as Hz.
    + split; [intros [= <-]; done | intros (-> & _ & _); done].
    + cbn [createCanvas]. split; [|tauto].
      by destruct (new_ctx2d _).
  - split; [done | intros (_ & ? & _); done].
Qed.

(** The new canvas carries the pixels of the processed image. *)
Lemma applyEffectsToCanvas_output canvas effects doc cv r doc' :
  canvases doc !! canvas = Some cv →
  canvas_ok cv → cv_ctx2d cv = true → new_ctx2d doc = true →
  applyEffectsToCanvas canvas effects doc = Normal (r, doc') →
  ∃ out, canvases doc' !! r = Some out
         ∧ cv_width out = cv_width cv ∧ cv_height out = cv_height cv
         ∧ cv_pixels out
           = data (foldl apply_effect
                     (mkImageData (cv_pixels cv) (cv_width cv) (cv_height cv))
                     effects).
Proof.
  intros Hc [Hw0 Hh0 Hlen] Hctx Hnew Hrun.
  destruct (decide (cv_width cv = 0 ∨ cv_height cv = 0)) as [Hz|Hz].
  { rewrite (proj2 (throw_iff canvas effects doc cv "IndexSizeError" Hc))
      in Hrun by done. done. }
  destruct (applyEffectsToCanvas_normal canvas effects doc cv Hc Hctx)
    as (doc1 & Hrun1 & _ & _ & _ & Hr); [tauto|tauto|].
  rewrite Hrun1 in Hrun. injection Hrun as <- <-.
  rewrite Hr, Hnew.
  set (img0 := mkImageData (cv_pixels cv) (cv_width cv) (cv_height cv)).
  destruct (effects_shape effects img0) as (Ew & Eh & El).
  cbn [img0 width height data] in Ew, Eh, El.
  rewrite putImageData_whole;
    cbn [cv_width cv_height cv_pixels cv_ctx2d cv_filter];
    [|lia|done|done|lia|apply len_zeros; nia].
  unfold applyCanvasEffects. case_decide; eexists; repeat split; reflexivity.
Qed.

(** C6, as amended.  The call performs no validation of its own and never
    raises an [InvalidBufferError]: it throws exactly when the canvas has a
    2d context and a zero width or height, and what it throws is the
    [IndexSizeError] of [getImageData].  When it returns, nothing has been
    truncated or padded: the bitmap of the new canvas has the dimensions of
    the input and four bytes per pixel. *)
Theorem applyEffectsToCanvas_throws canvas effects doc cv :
  canvases doc !! canvas = Some cv →
  (∀ name,
     applyEffectsToCanvas canvas effects doc = Throw name
     ↔ name = "IndexSizeError" ∧ cv_ctx2d cv = true
       ∧ (cv_width cv = 0 ∨ cv_height cv = 0))
  ∧ (∀ r doc',
       applyEffectsToCanvas canvas effects doc = Normal (r, doc') →
       canvas_ok cv → cv_ctx2d cv = true → new_ctx2d doc = true →
       ∃ out, canvases doc' !! r = Some out
              ∧ cv_width out = cv_width cv ∧ cv_height out = cv_height cv
              ∧ len (cv_pixels out) = cv_width cv * cv_height cv * 4).
Proof.
  intros Hc. split.
  - intros name. unfold applyEffectsToCanvas. rewrite Hc.
    destruct (cv_ctx2d cv) eqn:Hctx; cbn [negb].
    + unfold getImageData. destruct (decide _) as [Hz|Hz].
      * split; [intros [= <-]; done | by intros (-> & _ & _)].
      * cbn [createCanvas]. split; [by destruct (new_ctx2d _)|tauto].
    + split; [done | by intros (_ & ? & _)].
  - intros r doc' Hrun Hok Hctx Hnew.
    destruct (applyEffectsToCanvas_output canvas effects doc cv r doc'
                Hc Hok Hctx Hnew Hrun) as (out & Hout & Hw & Hh & Hpx).
    exists out. split; [done|]. split; [done|]. split; [done|].
    rewrite Hpx.
    destruct (effects_shape effects
                (mkImageData (cv_pixels cv) (cv_width cv) (cv_height cv)))
      as (_ & _ & El).
    cbn [data] in El. rewrite El. by destruct Hok.
Qed.

(** The hypothesis of the amended C6 holds of the empty canvas. *)
Lemma applyEffectsToCanvas_throws_witness :
  applyEffectsToCanvas 0 [] empty_canvas_doc = Throw "IndexSizeError".
Proof.
  apply (proj1 (applyEffectsToCanvas_throws 0 [] empty_canvas_doc
                  (mkCanvas 0 0 [] true []) eq_refl)).
  split; [reflexivity|]. split; [reflexivity|]. by left.
Defined.

(** C6 fails as stated: the empty canvas is malformed, and the call fails
    with the DOM's [IndexSizeError], not with an [InvalidBufferError]. *)
Lemma applyEffectsToCanvas_no_InvalidBufferError :
  ¬ rejects_malformed 0 [] empty_canvas_doc.
Proof.
  intros H. specialize (H (mkCanvas 0 0 [] true []) eq_refl).
  rewrite (proj2 (throw_iff 0 [] empty_canvas_doc
                    (mkCanvas 0 0 [] true []) "IndexSizeError" eq_refl)) in H.
  - discriminate H. left. reflexivity.
  - split; [reflexivity|]. split; [reflexivity|]. by left.
Qed.

(** C9.  Whatever the chain, when the call returns, every canvas that the
    document held before the call, the input canvas among them, is exactly
    as it was: same dimensions, same pixel data.  The returned canvas is the
    input itself (when it has no 2d context, the document being unchanged)
    or a canvas that did not exist before; when the canvases have a 2d
    context it is a new canvas that holds the processed pixels. *)
Theorem applyEffectsToCanvas_input_unchanged canvas effects doc r doc' :
  applyEffectsToCanvas canvas effects doc = Normal (r, doc') →
  (∀ c cv, canvases doc !! c = Some cv → canvases doc' !! c = Some cv)
  ∧ (r = canvas ∧ doc' = doc ∨ canvases doc !! r = None)
  ∧ (∀ cv, canvases doc !! canvas = Some cv → canvas_ok cv →
       cv_ctx2d cv = true → new_ctx2d doc = true →
       canvases doc !! r = None
       ∧ ∃ out, canvases doc' !! r = Some out
                ∧ cv_pixels out
                  = data (foldl apply_effect
                            (mkImageData (cv_pixels cv) (cv_width cv) (cv_height cv))
                            effects)).
Proof.
  intros Hrun.
  destruct (canvases doc !! canvas) as [cv|] eqn:Hc;
    [|unfold applyEffectsToCanvas in Hrun; by rewrite Hc in Hrun].
  destruct (cv_ctx2d cv) eqn:Hctx.
  - destruct (decide (cv_width cv = 0 ∨ cv_height cv = 0)) as [Hz|Hz].
    { rewrite (proj2 (throw_iff canvas effects doc cv "IndexSizeError" Hc))
        in Hrun by done. done. }
    destruct (applyEffectsToCanvas_normal canvas effects doc cv Hc Hctx)
      as (doc1 & Hrun1 & Hne & Hfresh & Hframe & _); [tauto|tauto|].
    pose proof Hrun as Hrun'.
    rewrite Hrun1 in Hrun. injection Hrun as <- <-.
    split; [|split; [by right|]].
    + intros c cv' Hcv'. rewrite Hframe; [done|]. intros ->. congruence.
    + intros cv' [= <-] Hok _ Hnew. split; [done|].
      destruct (applyEffectsToCanvas_output canvas effects doc cv _ _
                  Hc Hok Hctx Hnew Hrun') as (out & Hout & _ & _ & Hpx).
      by exists out.
  - unfold applyEffectsToCanvas in Hrun. rewrite Hc, Hctx in Hrun.
    injection Hrun as <- <-. split; [done|]. split; [by left|].
    intros cv' [= <-]. congruence.
Qed.

(** The hypothesis of C9 holds of a one-pixel canvas under a chain that
    thresholds and dithers it. *)
Lemma applyEffectsToCanvas_input_unchanged_witness :
  match applyEffectsToCanvas 0
          [createDefaultEffect 0 Threshold; createDefaultEffect 1 Dithering]
          one_pixel_doc with
  | Normal (r, doc') =>
      canvases doc' !! 0%nat = Some (mkCanvas 1 1 [10; 20; 30; 255] true [])
      ∧ canvases doc' !! r = Some (mkCanvas 1 1 [0; 0; 0; 255] true [])
  | Throw _ => False
  end.
Proof.
  destruct (applyEffectsToCanvas 0 _ one_pixel_doc) as [[r doc']|name] eqn:E.
  - split.
    + exact (proj1 (applyEffectsToCanvas_input_unchanged _ _ _ _ _ E)
               0%nat _ eq_refl).
    + vm_compute in E. injection E as <- <-. reflexivity.
  - vm_compute in E. discriminate E.
Defined.

(** ** The gamma default *)

Lemma pow_byte_one v : 0 ≤ v ≤ 255 → pow_byte 1 (Some v) = v.
Proof.
  intros Hv. destruct (decide (v = 0)) as [->|Hv0]; [done|].
  destruct (pow_byte_bracket 1 v) as (Hk & Hlo & Hhi); [done|lia|].
  change (Qnum 1) with 1 in *. change (Z.pos (Qden 1)) with 1 in *.
  rewrite !Z.pow_1_r in *.
  destruct (decide (1 ≤ pow_byte 1 (Some v)));
    destruct (decide (pow_byte 1 (Some v) < 255)); lia.
Qed.

Lemma applyGamma_one (img : ImageData) : valid img → applyGamma img 1 = img.
Proof.
  intros Hv. pose proof Hv as [Hw Hh Hlen Hb].
  destruct img as [d w h]. cbn [data width height] in *.
  unfold applyGamma. cbn [data width height]. f_equal.
  assert (len d = 4 * (w * h)) as Hlen4 by lia.
  destruct (gamma_loop 1 d _ Hlen4) as [Hl Hout]. cbn zeta in Hl, Hout.
  apply rdZ_ext. intros j.
  destruct (decide (0 ≤ j < len d)) as [Hj|Hj];
    [|rewrite !rdZ_out_of_range; [done|lia..]].
  destruct (pixel_channel j) as [Ej Hc].
  destruct (Hout (j `div` 4)) as (H0 & H1 & H2 & H3); [lia|].
  destruct (rdZ_in_range d j) as [v Hvj]; [done|].
  pose proof (rdZ_bytes _ _ _ Hb Hvj) as Hr.
  rewrite Hvj. rewrite Ej in Hvj |- *.
  assert (j `mod` 4 = 0 ∨ j `mod` 4 = 1 ∨ j `mod` 4 = 2 ∨ j `mod` 4 = 3)
    as [E | [E | [E | E]]] by lia; rewrite E, ?Z.add_0_r in Hvj |- *.
  - by rewrite H0, Hvj, pow_byte_one.
  - by rewrite H1, Hvj, pow_byte_one.
  - by rewrite H2, Hvj, pow_byte_one.
  - by rewrite H3.
Qed.

(** C10.  An enabled gamma descriptor whose config has no gamma entry, or
    a gamma entry of value 0, makes the pipeline run the gamma pass with
    parameter 1, which leaves a valid buffer unchanged; the value 1.2 is in
    the config only of a descriptor made by [createDefaultEffect], for which
    the pass runs with 1.2. *)
Theorem gamma_fallback_is_one (effect : ImageEffect) (img : ImageData) :
  type effect = Gamma → enabled effect = true →
  (cfg_gamma (config effect) = None
   ∨ ∃ q, cfg_gamma (config effect) = Some q ∧ q == 0) →
  valid img →
  foldl apply_effect img [effect] = applyGamma img 1
  ∧ applyGamma img 1 = img
  ∧ ∀ now,
      cfg_gamma (config (createDefaultEffect now Gamma)) = Some (6 # 5)
      ∧ foldl apply_effect img [createDefaultEffect now Gamma]
        = applyGamma img (6 # 5).
Proof.
  intros Ht He Hcfg Hv. split; [|split; [by apply applyGamma_one|done]].
  cbn [foldl]. unfold apply_effect. rewrite He, Ht. cbn [negb].
  destruct Hcfg as [-> | (q & -> & Hq)]; [done|].
  unfold or_default. apply Qeq_bool_iff in Hq. by rewrite Hq.
Qed.

(** The hypotheses of C10 hold of a gamma descriptor without a gamma entry
    and the sample image. *)
Lemma gamma_fallback_is_one_witness :
  foldl apply_effect sample_image [bare_gamma] = sample_image.
Proof.
  assert (valid sample_image) as Hv.
  { split; [reflexivity | reflexivity | reflexivity | ].
    unfold bytes, sample_image. cbn [data]. repeat constructor; lia. }
  destruct (gamma_fallback_is_one bare_gamma sample_image eq_refl eq_refl
              (or_introl eq_refl) Hv) as (H1 & H2 & _).
  by rewrite H1.
Defined.

(** With the default 1.2 the pass does change the image. *)
Example gamma_default_changes :
  data (foldl apply_effect sample_image [createDefaultEffect 0 Gamma])
  = [17; 31; 43; 255; 208; 208; 208; 128; 0; 107; 145; 0; 255; 143; 145; 7].
Proof. by vm_compute. Qed.

(** * Further properties of the effects *)

(** The sample images are valid. *)
Lemma valid_sample_image : valid sample_image.
Proof.
  split; [reflexivity | reflexivity | reflexivity | ].
  unfold bytes. repeat constructor; lia.
Defined.

Lemma valid_bw_image : valid bw_image.
Proof.
  split; [reflexivity | reflexivity | reflexivity | ].
  unfold bytes. repeat constructor; lia.
Defined.

Lemma valid_step_image : valid step_image.
Proof.
  split; [reflexivity | reflexivity | reflexivity | ].
  unfold bytes. repeat constructor; lia.
Defined.


(** ** Every effect returns a valid image *)

Lemma bytes_wrZ (l : list Z) i v : bytes l → 0 ≤ v ≤ 255 → bytes (wrZ l i v).
Proof.
  intros Hl Hv. unfold wrZ. case_decide; [|done].
  by apply Forall_insert.
Qed.

Lemma bytes_wr (l : list Z) i n : bytes l → bytes (wr l i n).
Proof. intros. apply bytes_wrZ; [done|apply ToUint8Clamp_range]. Qed.

Lemma bytes_zeros n : bytes (zeros n).
Proof. apply Forall_replicate. lia. Qed.

Lemma sqrt_byte_range n : 0 ≤ sqrt_byte n ≤ 255.
Proof.
  destruct n as [|q]; [done|]. unfold sqrt_byte.
  destruct (Qle_bool 0 q); [|lia].
  pose proof (Z.sqrt_nonneg (Qfloor (4 * q))).
  set (m := Z.sqrt (Qfloor (4 * q))) in *.
  destruct (Z.leb_spec 510 m); [lia|].
  assert (0 ≤ m `div` 2 ≤ 254) by zdiv.
  repeat case_match; lia.
Qed.

Lemma applyGamma_keeps_bytes (img : ImageData) (gamma : Q) :
  bytes (data img) → bytes (data (applyGamma img gamma)).
Proof.
  intros Hb. apply (for_step4_preserve bytes); [|done].
  intros i s Hs. unfold gamma_pixel.
  repeat apply bytes_wrZ; try done; apply pow_byte_range.
Qed.

Lemma applyThreshold_keeps_bytes (img : ImageData) (t : Q) :
  bytes (data img) → bytes (data (applyThreshold img t)).
Proof.
  intros Hb. apply (for_step4_preserve bytes); [|done].
  intros i s Hs. unfold threshold_pixel.
  repeat apply bytes_wrZ; try done; destruct (Num.gt _ _); lia.
Qed.

Lemma applyEdgeDetection_bytes (img : ImageData) :
  bytes (data (applyEdgeDetection img)).
Proof.
  apply (for_range_preserve bytes); [|apply bytes_zeros].
  intros y s Hs. apply for_range_preserve; [|done].
  intros x s' Hs'. unfold edge_pixel. destruct (sobel_at _ _ _ _).
  repeat apply bytes_wrZ; try done; try lia; apply sqrt_byte_range.
Qed.

Lemma applyRGBShift_bytes (img : ImageData) (amount : Z) :
  bytes (data (applyRGBShift img amount)).
Proof.
  apply (for_range_preserve bytes); [|apply bytes_zeros].
  intros y s Hs. apply for_range_preserve; [|done].
  intros x s' Hs'. unfold rgbshift_pixel. by repeat apply bytes_wr.
Qed.

Lemma applyDithering_keeps_bytes (img : ImageData) :
  bytes (data img) → bytes (data (applyDithering img)).
Proof.
  intros Hb. apply (for_range_preserve bytes); [|done].
  intros y s Hs. apply for_range_preserve; [|done].
  intros x s' Hs'. apply for_range_preserve; [|done].
  intros c s'' Hs''. unfold dither_channel, diffuse.
  assert (bytes (wrZ s'' ((y * width img + x) * 4 + c)
                   (if Num.gt (rd s'' ((y * width img + x) * 4 + c)) 128
                    then 255 else 0))) as H0
    by (apply bytes_wrZ; [done|destruct (Num.gt _ _); lia]).
  repeat case_decide; by repeat apply bytes_wr.
Qed.

Lemma apply_effect_bytes (img : ImageData) (effect : ImageEffect) :
  bytes (data img) → bytes (data (apply_effect img effect)).
Proof.
  intros Hb. unfold apply_effect.
  destruct (enabled effect); cbn [negb]; [|done].
  destruct (type effect); try done.
  - by apply applyGamma_keeps_bytes.
  - by apply applyThreshold_keeps_bytes.
  - apply applyEdgeDetection_bytes.
  - apply applyRGBShift_bytes.
  - by apply applyDithering_keeps_bytes.
Qed.

(** X1.  Every effect descriptor, whatever its kind, its parameters and its
    enabled flag, maps a valid image to a valid image of the same
    dimensions; so does every chain. *)
Theorem effects_keep_valid (effects : list ImageEffect) (img : ImageData) :
  valid img →
  valid (foldl apply_effect img effects)
  ∧ width (foldl apply_effect img effects) = width img
  ∧ height (foldl apply_effect img effects) = height img.
Proof.
  intros [Hw Hh Hlen Hb].
  destruct (effects_shape effects img) as (Ew & Eh & El).
  split; [|by split].
  split; [lia|lia|lia|].
  clear -Hb. revert img Hb.
  induction effects as [|e l IH]; intros img Hb; [done|].
  cbn [foldl]. apply IH. by apply apply_effect_bytes.
Qed.

(** The hypothesis of X1 holds of the sample image under a chain of the five
    raster effects. *)
Lemma effects_keep_valid_witness :
  valid (foldl apply_effect sample_image
           [createDefaultEffect 0 Gamma; createDefaultEffect 1 RgbShift;
            createDefaultEffect 2 EdgeDetection; createDefaultEffect 3 Dithering;
            createDefaultEffect 4 Threshold]).
Proof.
  refine (proj1 (effects_keep_valid _ sample_image _)).
  split; [reflexivity | reflexivity | reflexivity | ].
  unfold bytes. repeat constructor; lia.
Defined.

(** ** Which descriptors of a chain count *)

(** The call depends on the chain only through the image transformation
    and the list of filters. *)
Lemma applyEffectsToCanvas_ext canvas (effects effects' : list ImageEffect) doc :
  (∀ img, foldl apply_effect img effects = foldl apply_effect img effects') →
  canvas_filters effects = canvas_filters effects' →
  applyEffectsToCanvas canvas effects doc = applyEffectsToCanvas canvas effects' doc.
Proof.
  intros Hf Hc. unfold applyEffectsToCanvas, applyCanvasEffects.
  destruct (canvases doc !! canvas) as [cv|]; [|done].
  destruct (negb (cv_ctx2d cv)); [done|].
  destruct (getImageData cv) as [imageData|]; [|done].
  by rewrite Hc, Hf.
Qed.

Lemma foldl_filter_skip {A B : Type} (f : A → B → A) (keep : B → bool) (l : list B) :
  (∀ a b, keep b = false → f a b = a) →
  ∀ a, foldl f a l = foldl f a (List.filter keep l).
Proof.
  intros Hskip. induction l as [|b l IH]; intros a; [done|].
  cbn [foldl List.filter]. destruct (keep b) eqn:Hb.
  - cbn [foldl]. apply IH.
  - rewrite Hskip by done. apply IH.
Qed.

Lemma canvas_filters_skip (keep : ImageEffect → bool) (effects : list ImageEffect) :
  (∀ e, keep e = false → enabled e = false ∨ is_blur (type e) = false) →
  canvas_filters effects = canvas_filters (List.filter keep effects).
Proof.
  intros Hskip. unfold canvas_filters. apply foldl_filter_skip.
  intros acc e He. destruct (Hskip e He) as [->|Hb]; [done|].
  destruct (enabled e); [|done]. cbn [negb]. by destruct (type e).
Qed.

Lemma enabled_only canvas (effects : list ImageEffect) doc :
  applyEffectsToCanvas canvas effects doc
  = applyEffectsToCanvas canvas (List.filter enabled effects) doc.
Proof.
  apply applyEffectsToCanvas_ext.
  - apply foldl_filter_skip. intros img e He. unfold apply_effect. by rewrite He.
  - apply canvas_filters_skip. intros e He. by left.
Qed.

(** X2.  A disabled descriptor is skipped wherever it stands in the chain:
    the call gives the same result as on the chain of the enabled
    descriptors alone. *)
Theorem applyEffectsToCanvas_skips_disabled canvas (effects : list ImageEffect) doc :
  applyEffectsToCanvas canvas effects doc
  = applyEffectsToCanvas canvas (List.filter enabled effects) doc.
Proof. apply enabled_only. Qed.

(** X3.  The grain, stippling, halftone, vignette, crt-screen and
    led-screen descriptors are ignored by the call, enabled or not and
    whatever their parameters: removing them from the chain does not change
    the result. *)
Theorem applyEffectsToCanvas_ignored_kinds canvas (effects : list ImageEffect) doc :
  applyEffectsToCanvas canvas effects doc
  = applyEffectsToCanvas canvas
      (List.filter (λ e, negb (ignored (type e))) effects) doc.
Proof.
  apply applyEffectsToCanvas_ext.
  - apply foldl_filter_skip. intros img e He. unfold apply_effect.
    destruct (enabled e); [|done]. cbn [negb].
    by destruct (type e).
  - apply canvas_filters_skip. intros e He. right. by destruct (type e).
Qed.

Lemma canvas_filters_from (acc : list Q) (effects : list ImageEffect) :
  foldl (λ filters effect,
           if negb (enabled effect) then filters
           else match type effect with
                | Blur => filters ++ [or_default (cfg_blur (config effect)) 2]
                | _ => filters
                end) acc effects
  = acc ++ blur_radii effects.
Proof.
  unfold blur_radii. revert acc.
  induction effects as [|e l IH]; intros acc.
  - cbn. by rewrite app_nil_r.
  - cbn [foldl List.filter]. rewrite IH.
    destruct (enabled e); cbn [negb andb]; [|done].
    destruct (type e); cbn [is_blur]; try done.
    cbn [fmap list_fmap]. by rewrite <- app_assoc.
Qed.

Lemma canvas_filters_radii (effects : list ImageEffect) :
  canvas_filters effects = blur_radii effects.
Proof. apply canvas_filters_from. Qed.

(** X4.  On a canvas with a 2d context and a bitmap, the canvas returned
    holds the image obtained by running, in chain order, the enabled gamma,
    threshold, edge-detection, rgb-shift and dithering descriptors only (a
    blur descriptor leaves the pixels alone), and its CSS filter lists one
    blur radius per enabled blur descriptor, in chain order, with 2 for a
    missing or zero radius. *)
Theorem applyEffectsToCanvas_result canvas (effects : list ImageEffect) doc cv r doc' :
  canvases doc !! canvas = Some cv →
  canvas_ok cv → cv_ctx2d cv = true → new_ctx2d doc = true →
  applyEffectsToCanvas canvas effects doc = Normal (r, doc') →
  canvases doc' !! r
  = Some (mkCanvas (cv_width cv) (cv_height cv)
            (data (foldl apply_effect
                     (mkImageData (cv_pixels cv) (cv_width cv) (cv_height cv))
                     (raster_chain effects)))
            true (blur_radii effects)).
Proof.
  intros Hc [Hw0 Hh0 Hlen] Hctx Hnew Hrun.
  destruct (decide (cv_width cv = 0 ∨ cv_height cv = 0)) as [Hz|Hz].
  { rewrite (proj2 (throw_iff canvas effects doc cv "IndexSizeError" Hc))
      in Hrun by done. done. }
  destruct (applyEffectsToCanvas_normal canvas effects doc cv Hc Hctx)
    as (doc1 & Hrun1 & _ & _ & _ & Hr); [tauto|tauto|].
  rewrite Hrun1 in Hrun. injection Hrun as <- <-.
  rewrite Hr, Hnew.
  set (img0 := mkImageData (cv_pixels cv) (cv_width cv) (cv_height cv)).
  destruct (effects_shape effects img0) as (Ew & Eh & El).
  cbn [img0 width height data] in Ew, Eh, El.
  rewrite putImageData_whole;
    cbn [cv_width cv_height cv_pixels cv_ctx2d cv_filter];
    [|lia|done|done|lia|apply len_zeros; nia].
  assert (foldl apply_effect img0 effects
          = foldl apply_effect img0 (raster_chain effects)) as <-.
  { apply foldl_filter_skip. intros img e He. unfold apply_effect.
    destruct (enabled e); [|done]. cbn [negb andb] in *.
    by destruct (type e). }
  unfold applyCanvasEffects. rewrite canvas_filters_radii.
  case_decide as Hf; [done|].
  destruct (blur_radii effects); [done|cbn in Hf; lia].
Qed.

(** The hypotheses of X4 hold of a one-pixel canvas under a chain of a blur,
    a disabled threshold, a grain and a gamma descriptor. *)
Lemma applyEffectsToCanvas_result_witness :
  ∃ r doc',
    applyEffectsToCanvas 0
      [createDefaultEffect 0 Blur;
       mkImageEffect (Threshold, 1) Threshold false (defaultConfigs Threshold);
       createDefaultEffect 2 Grain; createDefaultEffect 3 Gamma]
      one_pixel_doc = Normal (r, doc')
    ∧ canvases doc' !! r
      = Some (mkCanvas 1 1
                (data (applyGamma (mkImageData [10; 20; 30; 255] 1 1) (6 # 5)))
                true [2%Q]).
Proof.
  assert (canvas_ok (mkCanvas 1 1 [10; 20; 30; 255] true [])) as Hok
    by (split; [cbn; lia | cbn; lia | reflexivity]).
  eexists _, _. split; [reflexivity|].
  exact (applyEffectsToCanvas_result 0 _ one_pixel_doc
           (mkCanvas 1 1 [10; 20; 30; 255] true []) _ _
           eq_refl Hok eq_refl eq_refl eq_refl).
Defined.

(** ** RGB shift, for every amount *)

Lemma wr_rd_copied (data s : list Z) i j :
  bytes data → wr s i (rd data j) = wrZ s i (copied data j).
Proof.
  intros Hb. unfold copied. destruct (rdZ data j) as [v|] eqn:Hj.
  - cbn. by apply wr_rd_byte.
  - unfold wr, rd. by rewrite Hj.
Qed.

Lemma shifting_step (img : ImageData) (amount x y : Z) (s : list Z) :
  valid img →
  0 ≤ x < width img → 0 ≤ y < height img → shifting img amount y x s →
  shifting img amount y (x + 1)
    (rgbshift_pixel (data img) (width img) amount x y s).
Proof.
  intros [Hw Hh Hlen Hb] Hx Hy [Hl Hs].
  set (w := width img) in *.
  assert (0 ≤ y * w ∧ y * w + w ≤ w * height img) as Hrow by nia.
  destruct (rdZ_in_range (data img) ((y * w + x) * 4 + 1)) as [vg Hvg]; [lia|].
  destruct (rdZ_in_range (data img) ((y * w + x) * 4 + 3)) as [va Hva]; [lia|].
  unfold rgbshift_pixel. cbn zeta.
  rewrite !(wr_rd_copied (data img)) by done.
  split; [by rewrite !len_wrZ|].
  intros x' y' Hx' Hy' Hvis.
  destruct (decide (x' = x ∧ y' = y)) as [[-> ->]|Hne].
  - unfold pixel_of, shift_copied. cbn zeta. fold w.
    assert (copied (data img) ((y * w + x) * 4 + 1) = vg) as ->
      by (unfold copied; by rewrite Hvg).
    assert (copied (data img) ((y * w + x) * 4 + 3) = va) as ->
      by (unfold copied; by rewrite Hva).
    rewrite Hvg, Hva. repeat f_equal; rd_simpl.
  - assert (y' * w + x' ≠ y * w + x) as Hne'.
    { intros E. apply pixel_index_inj in E; [tauto|lia..]. }
    rewrite <- Hs by (try done; lia). unfold pixel_of. cbn zeta.
    by rewrite !rdZ_wrZ_ne by lia.
Qed.

Lemma shifting_loop (img : ImageData) (amount : Z) :
  valid img →
  shifting img amount (height img) 0
    (for_range 0 (height img) (λ y,
       for_range 0 (width img)
         (λ x, rgbshift_pixel (data img) (width img) amount x y))
       (zeros (len (data img)))).
Proof.
  intros Hvalid. destruct (Hvalid) as [Hw Hh Hlen Hb].
  apply (for_range_inv (λ y s, shifting img amount y 0 s)); [lia| |].
  - split; [apply len_zeros, len_nonneg|]. intros; lia.
  - intros y s Hy Hs.
    assert (shifting img amount y (width img)
              (for_range 0 (width img)
                 (λ x, rgbshift_pixel (data img) (width img) amount x y) s))
      as [Hl Hrow].
    { apply (for_range_inv (λ x s, shifting img amount y x s)); [lia|done|].
      intros x s' Hx Hs'. by apply shifting_step. }
    split; [done|]. intros x' y' ? ? ?. apply Hrow; lia.
Qed.

(** X5.  On a valid image and for every shift amount, negative ones
    included, [applyRGBShift] leaves the green and the alpha byte of every
    pixel as they were; the red byte is the one at column
    [min (width - 1) (x + amount)] and the blue byte the one at column
    [max 0 (x - amount)] of the same row, a read that falls outside the
    array being stored as 0. *)
Theorem applyRGBShift_any_amount (img : ImageData) (amount x y : Z) :
  valid img → 0 ≤ x < width img → 0 ≤ y < height img →
  pixel_at (applyRGBShift img amount) x y = shift_copied img amount x y.
Proof.
  intros Hv Hx Hy. destruct (shifting_loop img amount Hv) as [_ Hs].
  apply (Hs x y); [done|done|lia].
Qed.

(** The hypotheses of X5 hold of the sample image shifted by -5: the red
    read of pixel (0, 0) falls before the array and 0 is stored. *)
Lemma applyRGBShift_any_amount_witness :
  pixel_at (applyRGBShift sample_image (-5)) 0 0
  = [Some 0; Some 20; Some 0; Some 255].
Proof.
  assert (valid sample_image) as Hv.
  { split; [reflexivity | reflexivity | reflexivity | ].
    unfold bytes. repeat constructor; lia. }
  assert (0 ≤ 0 < width sample_image) as Hx by (split; [lia | reflexivity]).
  assert (0 ≤ 0 < height sample_image) as Hy by (split; [lia | reflexivity]).
  exact (applyRGBShift_any_amount sample_image (-5) 0 0 Hv Hx Hy).
Defined.

(** Two arrays of the same length with the same pixels are equal. *)
Lemma pixels_ext (a b : list Z) (w h : Z) :
  0 < w → 0 < h → len a = w * h * 4 → len b = len a →
  (∀ x y, 0 ≤ x < w → 0 ≤ y < h → pixel_of a w x y = pixel_of b w x y) →
  a = b.
Proof.
  intros Hw Hh Hla Hlb Hpix. apply rdZ_ext. intros j.
  destruct (decide (0 ≤ j < len a)) as [Hj|Hj];
    [|by rewrite !rdZ_out_of_range by lia].
  destruct (pixel_channel j) as [Ej Hc].
  set (p := j `div` 4) in *. set (c := j `mod` 4) in *.
  assert (0 ≤ p < w * h) as Hp by lia.
  assert (0 ≤ p `mod` w < w) as Hx by (apply Z.mod_pos_bound; lia).
  assert (0 ≤ p `div` w < h) as Hy.
  { split; [apply Z.div_pos; lia | apply Z.div_lt_upper_bound; lia]. }
  specialize (Hpix (p `mod` w) (p `div` w) Hx Hy).
  unfold pixel_of in Hpix. cbn zeta in Hpix.
  replace (p `div` w * w + p `mod` w) with p in Hpix
    by (pose proof (Z.div_mod p w); lia).
  injection Hpix as H0 H1 H2 H3.
  assert (c = 0 ∨ c = 1 ∨ c = 2 ∨ c = 3) as [E | [E | [E | E]]] by lia;
    rewrite Ej, E; [rewrite Z.add_0_r| | |];
    replace (4 * p) with (p * 4) by lia; done.
Qed.

(** X6.  A shift by 0 is the identity on a valid image: the new array has
    the bytes of the old one.  (The pipeline never passes 0: its fallback
    [|| 3] replaces it.) *)
Theorem applyRGBShift_zero (img : ImageData) :
  valid img → data (applyRGBShift img 0) = data img.
Proof.
  intros Hv. destruct (shifting_loop img 0 Hv) as [Hl Hs].
  pose proof Hv as [Hw Hh Hlen Hb].
  symmetry. apply (pixels_ext _ _ (width img) (height img)); [done..| |].
  - cbn. by rewrite Hl.
  - intros x y Hx Hy. cbn [applyRGBShift data].
    rewrite (Hs x y) by (try done; lia).
    unfold shift_copied, pixel_of, redX, blueX. cbn zeta.
    rewrite Z.add_0_r, Z.sub_0_r, Z.min_r, Z.max_r by lia.
    assert (0 ≤ y * width img ∧ y * width img + width img ≤ width img * height img)
      by nia.
    destruct (rdZ_in_range (data img) ((y * width img + x) * 4)) as [vr Hvr]; [lia|].
    destruct (rdZ_in_range (data img) ((y * width img + x) * 4 + 2)) as [vb Hvb]; [lia|].
    unfold copied. by rewrite Hvr, Hvb.
Qed.

Lemma applyRGBShift_zero_witness :
  data (applyRGBShift sample_image 0) = data sample_image.
Proof.
  apply applyRGBShift_zero.
  split; [reflexivity | reflexivity | reflexivity | ].
  unfold bytes. repeat constructor; lia.
Defined.

(** ** Dithering of an image that is already black and white *)

Lemma wrZ_same (l : list Z) i v : rdZ l i = Some v → wrZ l i v = l.
Proof.
  unfold rdZ, wrZ. case_decide; [|done]. apply list_insert_id.
Qed.

Lemma wrZ_outside (l : list Z) i v : rdZ l i = None → wrZ l i v = l.
Proof.
  unfold rdZ, wrZ. case_decide; [|done]. intros Hn.
  apply list_insert_ge. by apply lookup_ge_None.
Qed.

Lemma ToUint8Clamp_Qeq (q q' : Q) :
  q == q' → ToUint8Clamp (Fin q) = ToUint8Clamp (Fin q').
Proof.
  intros E. unfold ToUint8Clamp. cbn zeta.
  assert (Qmin 255 (Qmax 0 q) == Qmin 255 (Qmax 0 q')) as E' by (by rewrite E).
  rewrite (Qfloor_comp _ _ E').
  by rewrite (Qcompare_comp _ _ E' _ _ (Qeq_refl _)).
Qed.

(** Diffusing an error of zero changes nothing. *)
Lemma diffuse_zero (l : list Z) i (e : Q) k :
  bytes l → e == 0 → diffuse l i (Fin e) k = l.
Proof.
  intros Hb He. unfold diffuse, wr, rd.
  destruct (rdZ l i) as [v|] eqn:Hv; [|by apply wrZ_outside].
  apply wrZ_same. rewrite Hv. f_equal.
  pose proof (rdZ_bytes _ _ _ Hb Hv) as Hr.
  transitivity (ToUint8Clamp (of_Z v)); [by rewrite ToUint8Clamp_byte|].
  unfold of_Z. cbn [Num.min Num.max Num.add Num.mul Num.div lift2].
  assert (0 <= inject_Z v)%Q by (change 0%Q with (inject_Z 0); rewrite <- Zle_Qle; lia).
  assert (inject_Z v <= 255)%Q
    by (change 255%Q with (inject_Z 255); rewrite <- Zle_Qle; lia).
  apply ToUint8Clamp_Qeq.
  assert (inject_Z v + e * inject_Z k / inject_Z 16 == inject_Z v) as ->.
  { rewrite He. field. }
  change (inject_Z 0) with 0%Q. change (inject_Z 255) with 255%Q.
  rewrite Q.max_r by done. by rewrite Q.min_r.
Qed.

Lemma dither_channel_binary w h x y c (s : list Z) :
  bytes s →
  rdZ s ((y * w + x) * 4 + c) = Some 0 ∨ rdZ s ((y * w + x) * 4 + c) = Some 255 →
  dither_channel w h x y c s = s.
Proof.
  intros Hb Hv. unfold dither_channel. cbn zeta.
  assert (∃ v, rdZ s ((y * w + x) * 4 + c) = Some v
               ∧ (if Num.gt (of_Z v) 128 then 255 else 0) = v
               ∧ (inject_Z v - inject_Z v == 0)%Q) as (v & Hr & Hn & He).
  { destruct Hv as [Hv|Hv]; eexists; (split; [exact Hv|]); by split. }
  rewrite (rd_Some _ _ _ Hr). fold (of_Z v). rewrite Hn.
  rewrite (wrZ_same _ _ _ Hr).
  unfold of_Z. cbn [Num.sub lift2].
  assert (∀ i k, diffuse s i (Fin (inject_Z v - inject_Z v)) k = s) as Hd
    by (intros; by apply diffuse_zero).
  repeat case_decide; by rewrite ?Hd.
Qed.

Lemma for_range_fixed {St : Type} lo hi (body : Z → St → St) (s : St) :
  (∀ i, lo ≤ i < hi → body i s = s) → for_range lo hi body s = s.
Proof.
  intros Hfix. destruct (decide (lo ≤ hi)) as [Hle|Hgt].
  - apply (for_range_inv (λ _ s', s' = s)); [done|done|].
    intros i s' Hi ->. by apply Hfix.
  - unfold for_range. by rewrite seqZ_nil by lia.
Qed.

Lemma dither_binary_data (w h : Z) (s : list Z) :
  0 < w → 0 < h → len s = w * h * 4 → bytes s →
  (∀ p c, 0 ≤ p < w * h → 0 ≤ c < 3 →
     rdZ s (4 * p + c) = Some 0 ∨ rdZ s (4 * p + c) = Some 255) →
  for_range 0 h (λ y,
    for_range 0 w (λ x,
      for_range 0 3 (λ c, dither_channel w h x y c))) s = s.
Proof.
  intros Hw Hh Hlen Hb Hbin.
  apply for_range_fixed. intros y Hy.
  apply for_range_fixed. intros x Hx.
  apply for_range_fixed. intros c Hc.
  apply dither_channel_binary; [done|].
  replace ((y * w + x) * 4 + c) with (4 * (y * w + x) + c) by lia.
  apply Hbin; [nia|done].
Qed.

(** X7.  A valid image whose red, green and blue bytes are all 0 or 255 is
    returned unchanged by [applyDithering]: every quantisation error is 0
    and diffusing it changes no byte. *)
Theorem applyDithering_fixes_binary (img : ImageData) :
  valid img → binary img → applyDithering img = img.
Proof.
  intros [Hw Hh Hlen Hb] Hbin. unfold applyDithering. cbn zeta.
  rewrite dither_binary_data by done. by destruct img.
Qed.

Lemma applyDithering_fixes_binary_witness : applyDithering bw_image = bw_image.
Proof.
  apply applyDithering_fixes_binary; [exact valid_bw_image|].
  intros p c Hp Hc.
  assert (p = 0 ∨ p = 1) as [-> | ->] by (cbn in Hp; lia);
    assert (c = 0 ∨ c = 1 ∨ c = 2) as [-> | [-> | ->]] by lia;
    cbn; auto.
Defined.

(** X8.  [applyDithering] is idempotent on valid images. *)
Theorem applyDithering_idempotent (img : ImageData) :
  valid img → applyDithering (applyDithering img) = applyDithering img.
Proof.
  intros [Hw Hh Hlen Hb].
  destruct (dither_loop (width img) (height img) (data img) Hw Hh Hlen)
    as (Hl & Hbin & _).
  pose proof (applyDithering_keeps_bytes img Hb) as Hb'.
  unfold applyDithering in *. cbn zeta in *. cbn [data width height] in *.
  rewrite dither_binary_data; [done|done|done|lia|done|].
  intros p c Hp Hc. by apply Hbin.
Qed.

Lemma applyDithering_idempotent_witness :
  applyDithering (applyDithering sample_image) = applyDithering sample_image.
Proof. apply applyDithering_idempotent. exact valid_sample_image. Defined.

(** X9.  Dithering after thresholding changes nothing: on a valid image,
    whatever the threshold, the thresholded image is a fixed point of
    [applyDithering]. *)
Theorem applyDithering_after_threshold (img : ImageData) (t : Q) :
  valid img → applyDithering (applyThreshold img t) = applyThreshold img t.
Proof.
  intros [Hw Hh Hlen Hb].
  set (n := width img * height img).
  assert (len (data img) = 4 * n) as Hlen4 by (subst n; lia).
  destruct (threshold_loop t (data img) n Hlen4) as [Hl1 H1].
  pose proof (applyThreshold_keeps_bytes img t Hb) as Hb'.
  unfold applyDithering, applyThreshold in *. cbn zeta in *.
  cbn [data width height] in *.
  rewrite dither_binary_data; [done|done|done|lia|done|].
  intros p c Hp Hc. destruct (H1 p Hp) as (E0 & E1 & E2 & _).
    assert (c = 0 ∨ c = 1 ∨ c = 2) as [-> | [-> | ->]] by lia;
      rewrite ?Z.add_0_r, ?E0, ?E1, ?E2;
      unfold threshold_value; destruct (Num.gt _ _); auto.
Qed.

Lemma applyDithering_after_threshold_witness :
  applyDithering (applyThreshold sample_image 128) = applyThreshold sample_image 128.
Proof. apply applyDithering_after_threshold. exact valid_sample_image. Defined.

(** ** Edge detection on any image *)

Lemma edge_pixel_magnitude (img : ImageData) x y (s : list Z) :
  edge_pixel (data img) (width img) x y s
  = let idx := (y * width img + x) * 4 in
    let m := magnitude_at img x y in
    wrZ (wrZ (wrZ (wrZ s idx m) (idx + 1) m) (idx + 2) m) (idx + 3) 255.
Proof.
  unfold edge_pixel, magnitude_at. by destruct (sobel_at _ _ _ _).
Qed.

(** The condition of [edging] only matters through its truth value. *)
Lemma edging_weaken (img : ImageData) (Y X Y' X' : Z) (s : list Z) :
  (∀ x y, 1 ≤ x < width img - 1 → 1 ≤ y < height img - 1 →
     (y < Y ∨ y = Y ∧ x < X) ↔ (y < Y' ∨ y = Y' ∧ x < X')) →
  edging img Y X s → edging img Y' X' s.
Proof.
  intros Hiff [Hl Hs]. split; [done|].
  intros x y Hx Hy. rewrite Hs by done.
  destruct (decide (1 ≤ x < width img - 1 ∧ 1 ≤ y < height img - 1)) as [[Hx1 Hy1]|Hout].
  - specialize (Hiff x y Hx1 Hy1).
    destruct (decide (_ ∧ (y < Y ∨ _))), (decide (_ ∧ (y < Y' ∨ _))); try done; tauto.
  - rewrite !decide_False by tauto. done.
Qed.

Lemma edging_step (img : ImageData) x y (s : list Z) :
  valid img → interior img x y → edging img y x s →
  edging img y (x + 1) (edge_pixel (data img) (width img) x y s).
Proof.
  intros [Hw Hh Hlen _] [Hx Hy] [Hl Hs]. rewrite edge_pixel_magnitude. cbn zeta.
  assert (0 ≤ y * width img + x < width img * height img) as Hp by nia.
  split; [by rewrite !len_wrZ|].
  intros x' y' Hx' Hy'.
  destruct (decide (x' = x ∧ y' = y)) as [[-> ->]|Hne].
  - rewrite decide_True by lia. unfold pixel_of. cbn zeta.
    repeat f_equal; rd_simpl.
  - assert (y' * width img + x' ≠ y * width img + x) as Hne'.
    { intros E. apply pixel_index_inj in E; [tauto|lia..]. }
    unfold pixel_of in *. cbn zeta in *.
    rewrite !rdZ_wrZ_ne by lia. rewrite Hs by done.
    destruct (decide (_ ∧ (y' < y ∨ y' = y ∧ x' < x))),
      (decide (_ ∧ (y' < y ∨ y' = y ∧ x' < x + 1))); try done; exfalso; lia.
Qed.

Lemma edging_row (img : ImageData) y (s : list Z) :
  valid img →
  1 ≤ y < height img - 1 → edging img y 0 s →
  edging img (y + 1) 0
    (for_range 1 (width img - 1)
       (λ x, edge_pixel (data img) (width img) x y) s).
Proof.
  intros Hv Hy Hs.
  destruct (decide (1 ≤ width img - 1)) as [Hw1|Hw1].
  - apply (edging_weaken img y (width img - 1)); [intros; lia|].
    apply (for_range_inv (λ x s, edging img y x s)); [lia| |].
    + apply (edging_weaken img y 0); [intros; lia|done].
    + intros x s' Hx Hs'. apply edging_step; [done| |done].
      unfold interior. lia.
  - rewrite for_range_nil by lia.
    apply (edging_weaken img y 0); [intros; lia|done].
Qed.

Lemma edging_loop (img : ImageData) :
  valid img →
  edging img (height img - 1) 0
    (for_range 1 (height img - 1) (λ y,
       for_range 1 (width img - 1)
         (λ x, edge_pixel (data img) (width img) x y))
       (zeros (len (data img)))).
Proof.
  intros Hv. pose proof Hv as [Hw Hh Hlen _].
  assert (edging img 1 0 (zeros (len (data img)))) as Hzero.
  { split; [apply len_zeros, len_nonneg|].
    intros x y Hx Hy. rewrite decide_False by lia.
    unfold pixel_of. cbn zeta. by rewrite !rdZ_zeros by nia. }
  destruct (decide (1 ≤ height img - 1)) as [Hh1|Hh1].
  - apply (for_range_inv (λ y s, edging img y 0 s)); [lia|done|].
    intros y s Hy Hs. by apply edging_row.
  - rewrite for_range_nil by lia.
    apply (edging_weaken img 1 0); [intros; lia|done].
Qed.

(** X10.  On every valid image [applyEdgeDetection] returns a gray image:
    each pixel at least one cell away from the border gets the same byte, the
    stored Sobel magnitude of its 3x3 neighbourhood, in its red, green and
    blue channels and the alpha 255, whatever the input alpha was; the four
    bytes of every pixel of the border are 0. *)
Theorem applyEdgeDetection_pixels (img : ImageData) (x y : Z) :
  valid img → 0 ≤ x < width img → 0 ≤ y < height img →
  pixel_at (applyEdgeDetection img) x y
  = if decide (interior img x y)
    then [Some (magnitude_at img x y); Some (magnitude_at img x y);
          Some (magnitude_at img x y); Some 255]
    else [Some 0; Some 0; Some 0; Some 0].
Proof.
  intros Hv Hx Hy. destruct (edging_loop img Hv) as [_ Hs].
  unfold pixel_at, applyEdgeDetection. cbn [data width].
  rewrite Hs by done. unfold interior.
  destruct (decide (_ ∧ (y < height img - 1 ∨ _))), (decide (_ ∧ _));
    try done; exfalso; lia.
Qed.

Lemma applyEdgeDetection_pixels_witness :
  pixel_at (applyEdgeDetection step_image) 1 1
  = [Some 120; Some 120; Some 120; Some 255].
Proof.
  assert (0 ≤ 1 < width step_image) as Hx by (split; [lia | reflexivity]).
  assert (0 ≤ 1 < height step_image) as Hy by (split; [lia | reflexivity]).
  exact (applyEdgeDetection_pixels step_image 1 1 valid_step_image Hx Hy).
Defined.

(** X11.  An image less than three pixels wide or high has no interior:
    [applyEdgeDetection] returns an array of zero bytes of the same length,
    so the image becomes fully transparent. *)
Theorem applyEdgeDetection_small (img : ImageData) :
  width img < 3 ∨ height img < 3 →
  data (applyEdgeDetection img) = zeros (len (data img)).
Proof.
  intros Hsmall. unfold applyEdgeDetection. cbn [data].
  destruct (decide (height img < 3)) as [Hh|Hh].
  - by rewrite for_range_nil by lia.
  - apply for_range_fixed. intros y Hy. apply for_range_nil. lia.
Qed.

Lemma applyEdgeDetection_small_witness :
  data (applyEdgeDetection sample_image) = zeros (len (data sample_image)).
Proof.
  apply applyEdgeDetection_small. left. reflexivity.
Defined.

(** ** The gamma curve *)

Lemma pow_byte_zero gamma : 0 < Qnum gamma → pow_byte gamma (Some 0) = 0.
Proof.
  intros Ha. unfold pow_byte.
  destruct (Z.eqb_spec (Qnum gamma) 0); [lia|].
  destruct (Z.ltb_spec (Qnum gamma) 0); [lia|]. done.
Qed.

Lemma Q2R_pos gamma : 0 < Qnum gamma → (0 < Q2R gamma)%R.
Proof.
  intros Ha. unfold Q2R. apply Rmult_lt_0_compat.
  - by apply IZR_lt.
  - apply Rinv_0_lt_compat, IZR_lt. lia.
Qed.

Lemma byte_ratio v : 1 ≤ v ≤ 255 → (0 < IZR v / 255 <= 1)%R.
Proof.
  intros Hv. assert (1 <= IZR v <= 255)%R as [? ?] by (split; apply IZR_le; lia).
  split; [apply Rdiv_lt_0_compat; Lra.lra|].
  apply Rmult_le_reg_r with 255%R; [Lra.lra|].
  unfold Rdiv. rewrite Rmult_assoc, Rinv_l by Lra.lra. Lra.lra.
Qed.

Lemma IZR_half_lt (k k' : Z) : (IZR k - 1 / 2 < IZR k' + 1 / 2)%R → k ≤ k'.
Proof.
  intros H. assert (IZR k < IZR (k' + 1))%R as Hlt by (rewrite plus_IZR; Lra.lra).
  apply lt_IZR in Hlt. lia.
Qed.

(** The curve is monotone. *)
Lemma pow_byte_mono gamma v v' :
  0 < Qnum gamma → 0 ≤ v → v ≤ v' → v' ≤ 255 →
  pow_byte gamma (Some v) ≤ pow_byte gamma (Some v').
Proof.
  intros Ha Hv Hvv Hv'.
  destruct (decide (v = 0)) as [->|Hv0].
  { rewrite pow_byte_zero by done.
    pose proof (pow_byte_range gamma (Some v')). lia. }
  pose proof (pow_byte_real gamma v Ha) as H1.
  pose proof (pow_byte_real gamma v' Ha) as H2.
  cbn zeta in H1, H2. specialize (H1 ltac:(lia)). specialize (H2 ltac:(lia)).
  apply IZR_half_lt.
  assert (Rpower (IZR v / 255) (/ Q2R gamma) <= Rpower (IZR v' / 255) (/ Q2R gamma))%R.
  { apply Rle_Rpower_l.
    - apply Rlt_le, Rinv_0_lt_compat, Q2R_pos, Ha.
    - split; [apply byte_ratio; lia|].
      unfold Rdiv. apply Rmult_le_compat_r; [Lra.lra|]. by apply IZR_le. }
  Lra.lra.
Qed.

(** White stays white. *)
Lemma pow_byte_white gamma : 0 < Qnum gamma → pow_byte gamma (Some 255) = 255.
Proof.
  intros Ha. pose proof (pow_byte_real gamma 255 Ha) as H. cbn zeta in H.
  specialize (H ltac:(lia)).
  replace (255 / 255)%R with 1%R in H by Lra.lra.
  unfold Rpower in H. rewrite ln_1, Rmult_0_r, exp_0 in H.
  pose proof (pow_byte_range gamma (Some 255)).
  set (k := pow_byte gamma (Some 255)) in *.
  assert (IZR k - 1 / 2 < IZR 255 + 1 / 2)%R as H1 by Lra.lra.
  assert (IZR 255 - 1 / 2 < IZR k + 1 / 2)%R as H2 by Lra.lra.
  apply IZR_half_lt in H1, H2. lia.
Qed.

(** A gamma of 1 or more brightens, a gamma of 1 or less darkens. *)
Lemma pow_byte_brightens gamma v :
  (1 <= gamma)%Q → 0 ≤ v ≤ 255 → v ≤ pow_byte gamma (Some v).
Proof.
  intros Hg Hv.
  pose proof (pow_byte_range gamma (Some v)) as Hrange.
  destruct (decide (v = 0)) as [Hv0|Hv0]; [lia|].
  assert (0 < Qnum gamma) as Ha.
  { assert (0 < gamma)%Q as Hpos by lra. unfold Qlt in Hpos. cbn in Hpos. lia. }
  pose proof (pow_byte_real gamma v Ha) as H. cbn zeta in H.
  specialize (H ltac:(lia)).
  apply Qle_Rle in Hg. change (Q2R 1) with (1 * / 1)%R in Hg.
  assert (1 <= Q2R gamma)%R as Hg1 by Lra.lra.
  pose proof (byte_ratio v ltac:(lia)) as Hx.
  set (x := (IZR v / 255)%R) in *. set (e := (/ Q2R gamma)%R) in *.
  assert (0 < e <= 1)%R as He.
  { subst e. split; [apply Rinv_0_lt_compat; Lra.lra|].
    rewrite <- Rinv_1. apply Rinv_le_contravar; Lra.lra. }
  assert (x <= Rpower x e)%R as Hle.
  { assert (0 < Rpower x e)%R as Ht by apply exp_pos.
    assert (Rpower x e <= 1)%R as Ht1 by (apply Rpower_le_1; [done|Lra.lra]).
    assert (Rpower (Rpower x e) (/ e) = x) as Ex.
    { rewrite Rpower_mult, Rinv_r by Lra.lra. apply Rpower_1. tauto. }
    rewrite <- Ex at 1. apply Rpower_le_base; [done|].
    rewrite <- Rinv_1. apply Rinv_le_contravar; Lra.lra. }
  apply IZR_half_lt.
  assert (IZR v = 255 * x)%R as Ev by (subst x; field).
  Lra.lra.
Qed.

Lemma pow_byte_darkens gamma v :
  0 < Qnum gamma → (gamma <= 1)%Q → 0 ≤ v ≤ 255 → pow_byte gamma (Some v) ≤ v.
Proof.
  intros Ha Hg Hv.
  destruct (decide (v = 0)) as [->|Hv0]; [by rewrite pow_byte_zero|].
  pose proof (pow_byte_real gamma v Ha) as H. cbn zeta in H.
  specialize (H ltac:(lia)).
  apply Qle_Rle in Hg. change (Q2R 1) with (1 * / 1)%R in Hg.
  pose proof (Q2R_pos gamma Ha) as Hpos.
  pose proof (byte_ratio v ltac:(lia)) as Hx.
  set (x := (IZR v / 255)%R) in *.
  assert (Rpower x (/ Q2R gamma) <= x)%R as Hle.
  { apply Rpower_le_base; [done|].
    rewrite <- Rinv_1. apply Rinv_le_contravar; Lra.lra. }
  apply IZR_half_lt.
  assert (IZR v = 255 * x)%R as Ev by (subst x; field).
  Lra.lra.
Qed.

(** X12.  For a positive gamma the pass is monotone on the colour bytes of a
    valid image: of two colour bytes, the one that was not brighter before
    is not brighter after, and black (0) stays 0.  White (255) stays 255 for
    a gamma of at least 2^-1022, the smallest normal double; the bound keeps
    the exponent [1 / gamma] of the code finite (for a gamma below 2^-1024
    it is [Infinity], [Math.pow(1, Infinity)] is [NaN] and white is stored
    as 0, which the exact exponent of the embedding does not show). *)
Theorem applyGamma_monotone (img : ImageData) (gamma : Q) (p c p' c' : Z) :
  valid img → (0 < gamma)%Q →
  0 ≤ p < width img * height img → 0 ≤ c < 3 →
  0 ≤ p' < width img * height img → 0 ≤ c' < 3 →
  let out := applyGamma img gamma in
  ∃ v v' w w',
    rdZ (data img) (4 * p + c) = Some v ∧ rdZ (data img) (4 * p' + c') = Some v'
    ∧ rdZ (data out) (4 * p + c) = Some w ∧ rdZ (data out) (4 * p' + c') = Some w'
    ∧ (v ≤ v' → w ≤ w')
    ∧ (v = 0 → w = 0)
    ∧ ((2 ^ (-1022) <= gamma)%Q → v = 255 → w = 255).
Proof.
  intros Hv Hg Hp Hc Hp' Hc' out.
  assert (0 < Qnum gamma) as Ha by (unfold Qlt in Hg; cbn in Hg; lia).
  destruct (applyGamma_bytes img gamma p Hv Hp) as [_ H1].
  destruct (applyGamma_bytes img gamma p' Hv Hp') as [_ H2].
  destruct (H1 c Hc) as (v & Ev & Hr & Ew).
  destruct (H2 c' Hc') as (v' & Ev' & Hr' & Ew').
  exists v, v', (pow_byte gamma (Some v)), (pow_byte gamma (Some v')).
  split; [exact Ev|]. split; [exact Ev'|]. split; [exact Ew|]. split; [exact Ew'|].
  split; [|split].
  - intros Hle. apply pow_byte_mono; lia.
  - intros E. rewrite E. apply pow_byte_zero, Ha.
  - intros _ E. rewrite E. apply pow_byte_white, Ha.
Qed.

Lemma applyGamma_monotone_witness :
  let out := applyGamma sample_image (6 # 5) in
  ∃ v v' w w',
    rdZ (data sample_image) (4 * 0 + 0) = Some v
    ∧ rdZ (data sample_image) (4 * 1 + 0) = Some v'
    ∧ rdZ (data out) (4 * 0 + 0) = Some w ∧ rdZ (data out) (4 * 1 + 0) = Some w'
    ∧ (v ≤ v' → w ≤ w')
    ∧ (v = 0 → w = 0)
    ∧ ((2 ^ (-1022) <= 6 # 5)%Q → v = 255 → w = 255).
Proof.
  apply (applyGamma_monotone sample_image (6 # 5) 0 0 1 0).
  - exact valid_sample_image.
  - reflexivity.
  - split; [lia | reflexivity].
  - lia.
  - split; [lia | reflexivity].
  - lia.
Defined.

(** X13.  A gamma of at least 1 never darkens a colour byte of a valid image
    and a positive gamma of at most 1 never brightens one. *)
Theorem applyGamma_direction (img : ImageData) (gamma : Q) (p c : Z) :
  valid img → (0 < gamma)%Q →
  0 ≤ p < width img * height img → 0 ≤ c < 3 →
  let out := applyGamma img gamma in
  ∃ v w,
    rdZ (data img) (4 * p + c) = Some v ∧ rdZ (data out) (4 * p + c) = Some w
    ∧ ((1 <= gamma)%Q → v ≤ w) ∧ ((gamma <= 1)%Q → w ≤ v).
Proof.
  intros Hv Hg Hp Hc out.
  assert (0 < Qnum gamma) as Ha by (unfold Qlt in Hg; cbn in Hg; lia).
  destruct (applyGamma_bytes img gamma p Hv Hp) as [_ H1].
  destruct (H1 c Hc) as (v & Ev & Hr & Ew).
  exists v, (pow_byte gamma (Some v)).
  split; [exact Ev|]. split; [exact Ew|]. split.
  - intros Hg1. apply pow_byte_brightens; [exact Hg1|exact Hr].
  - intros Hg1. apply pow_byte_darkens; [exact Ha|exact Hg1|exact Hr].
Qed.

Lemma applyGamma_direction_witness :
  let out := applyGamma sample_image (6 # 5) in
  ∃ v w,
    rdZ (data sample_image) (4 * 1 + 2) = Some v
    ∧ rdZ (data out) (4 * 1 + 2) = Some w
    ∧ ((1 <= 6 # 5)%Q → v ≤ w) ∧ ((6 # 5 <= 1)%Q → w ≤ v).
Proof.
  apply (applyGamma_direction sample_image (6 # 5) 1 2).
  - exact valid_sample_image.
  - reflexivity.
  - split; [lia | reflexivity].
  - lia.
Defined.

(** ** Grain: how far a byte can move *)

(** The stored byte is within 1/2 of the clamped value. *)
Lemma ToUint8Clamp_near (q : Q) :
  let c := Qmin 255 (Qmax 0 q) in
  (c - (1 # 2) <= inject_Z (ToUint8Clamp (Fin q)) <= c + (1 # 2))%Q.
Proof.
  intros c. unfold ToUint8Clamp. cbn zeta. fold c.
  pose proof (Qfloor_le c) as Hlo. pose proof (Qlt_floor c) as Hhi.
  rewrite inject_Z_plus in Hhi. change (inject_Z 1) with 1%Q in Hhi.
  destruct (Qcompare_spec c (inject_Z (Qfloor c) + (1 # 2))) as [E|E|E].
  - destruct (Z.even _); rewrite ?inject_Z_plus; change (inject_Z 1) with 1%Q;
      revert E Hlo Hhi; generalize (inject_Z (Qfloor c)); intros; lra.
  - revert E Hlo Hhi; generalize (inject_Z (Qfloor c)); intros; lra.
  - rewrite inject_Z_plus. change (inject_Z 1) with 1%Q.
    revert E Hlo Hhi; generalize (inject_Z (Qfloor c)); intros; lra.
Qed.

Lemma inject_Z_byte v : 0 ≤ v ≤ 255 → (0 <= inject_Z v <= 255)%Q.
Proof.
  intros Hv. split.
  - change 0%Q with (inject_Z 0). rewrite <- Zle_Qle. lia.
  - change 255%Q with (inject_Z 255). rewrite <- Zle_Qle. lia.
Qed.

(** *** Rounding to a double *)

Lemma round_half_even_near (q : Q) :
  (q - (1 # 2) <= inject_Z (round_half_even q) <= q + (1 # 2))%Q.
Proof.
  unfold round_half_even. cbn zeta.
  pose proof (Qfloor_le q) as Hlo. pose proof (Qlt_floor q) as Hhi.
  rewrite inject_Z_plus in Hhi. change (inject_Z 1) with 1%Q in Hhi.
  destruct (Qcompare_spec q (inject_Z (Qfloor q) + (1 # 2))) as [E|E|E].
  - destruct (Z.even _); rewrite ?inject_Z_plus; change (inject_Z 1) with 1%Q;
      revert E Hlo Hhi; generalize (inject_Z (Qfloor q)); intros; lra.
  - revert E Hlo Hhi; generalize (inject_Z (Qfloor q)); intros; lra.
  - rewrite inject_Z_plus. change (inject_Z 1) with 1%Q.
    revert E Hlo Hhi; generalize (inject_Z (Qfloor q)); intros; lra.
Qed.

Lemma pow2_Z (e : Z) : 0 ≤ e → (2 ^ e == inject_Z (2 ^ e))%Q.
Proof. intros. by rewrite Zpower_Qpower. Qed.

(** The exponent is not above the binary logarithm. *)
Lemma exponent_le (q : Q) : ¬ (q == 0)%Q → (2 ^ exponent q <= Qabs q)%Q.
Proof.
  intros Hq. unfold exponent. cbn zeta.
  assert (0 < Qabs q)%Q as Ha.
  { pose proof (Qabs_nonneg q). destruct (Qeq_dec (Qabs q) 0) as [E|E]; [|lra].
    exfalso. apply Hq. revert E. apply Qabs_case; intros; lra. }
  destruct (Qle_bool 1 (Qabs q)) eqn:E1.
  - apply Qle_bool_iff in E1.
    assert (1 ≤ Qfloor (Qabs q)) as Hn.
    { change 1 with (Qfloor 1). by apply Qfloor_resp_le. }
    destruct (Z.log2_spec (Qfloor (Qabs q))) as [Hlo _]; [lia|].
    rewrite pow2_Z by apply Z.log2_nonneg.
    apply Qle_trans with (inject_Z (Qfloor (Qabs q))); [|apply Qfloor_le].
    by rewrite <- Zle_Qle.
  - set (m := Qceiling (/ Qabs q)).
    assert (/ Qabs q <= inject_Z m)%Q as Hm by apply Qle_ceiling.
    assert (0 < / Qabs q)%Q as Hi by (by apply Qinv_lt_0_compat).
    assert (m ≤ 2 ^ Z.log2_up m) as Hup.
    { destruct (decide (1 < m)) as [H1|H1].
      - by destruct (Z.log2_up_spec m H1).
      - rewrite Z.log2_up_eqn0 by lia. cbn. lia. }
    rewrite Qpower_opp. rewrite pow2_Z by apply Z.log2_up_nonneg.
    assert (inject_Z m <= inject_Z (2 ^ Z.log2_up m))%Q as Hm2
      by (by rewrite <- Zle_Qle).
    assert (0 < inject_Z (2 ^ Z.log2_up m))%Q as Hp by lra.
    apply Qle_shift_inv_r; [done|].
    assert (Qabs q * / Qabs q == 1)%Q as E by (apply Qmult_inv_r; lra).
    rewrite Qmult_comm.
    assert (Qabs q * / Qabs q <= Qabs q * inject_Z (2 ^ Z.log2_up m))%Q; [|lra].
    apply Qmult_le_l; [done|lra].
Qed.

(** ... and the next power of 2 is above. *)
Lemma exponent_lt (q : Q) : ¬ (q == 0)%Q → (Qabs q < 2 ^ (exponent q + 1))%Q.
Proof.
  intros Hq. unfold exponent. cbn zeta.
  assert (0 < Qabs q)%Q as Ha.
  { pose proof (Qabs_nonneg q). destruct (Qeq_dec (Qabs q) 0) as [E|E]; [|lra].
    exfalso. apply Hq. revert E. apply Qabs_case; intros; lra. }
  destruct (Qle_bool 1 (Qabs q)) eqn:E1.
  - apply Qle_bool_iff in E1.
    assert (1 ≤ Qfloor (Qabs q)) as Hn.
    { change 1 with (Qfloor 1). by apply Qfloor_resp_le. }
    destruct (Z.log2_spec (Qfloor (Qabs q))) as [_ Hhi]; [lia|].
    rewrite pow2_Z by (pose proof (Z.log2_nonneg (Qfloor (Qabs q))); lia).
    apply Qlt_le_trans with (inject_Z (Qfloor (Qabs q) + 1)); [apply Qlt_floor|].
    rewrite <- Zle_Qle. replace (Z.log2 (Qfloor (Qabs q)) + 1) with
      (Z.succ (Z.log2 (Qfloor (Qabs q)))) by lia. lia.
  - assert (¬ (1 <= Qabs q)%Q) as Hlt.
    { intros H. apply Qle_bool_iff in H. congruence. }
    apply Qnot_le_lt in Hlt.
    set (m := Qceiling (/ Qabs q)).
    assert (inject_Z (m - 1) < / Qabs q)%Q as Hm.
    { apply Qceiling_lt. }
    assert (1 < / Qabs q)%Q as Hi.
    { apply Qlt_shift_inv_l; [done|]. lra. }
    assert (1 < m) as Hm1.
    { assert (inject_Z 1 < inject_Z m)%Q as H; [|by rewrite <- Zlt_Qlt in H].
      apply Qlt_le_trans with (/ Qabs q)%Q; [done|apply Qle_ceiling]. }
    destruct (Z.log2_up_spec m Hm1) as [Hlo _].
    set (L := Z.log2_up m) in *.
    assert (0 < L) as HL by (apply Z.log2_up_pos; lia).
    replace (- L + 1) with (- (L - 1)) by lia.
    replace (Z.pred L) with (L - 1) in Hlo by lia.
    rewrite Qpower_opp. rewrite pow2_Z by lia.
    assert (inject_Z (2 ^ (L - 1)) <= inject_Z (m - 1))%Q as H2
      by (rewrite <- Zle_Qle; lia).
    assert (0 < inject_Z (2 ^ (L - 1)))%Q as Hp.
    { change 0%Q with (inject_Z 0). rewrite <- Zlt_Qlt. lia. }
    apply Qlt_shift_inv_l; [done|].
    assert (Qabs q * inject_Z (2 ^ (L - 1)) < Qabs q * / Qabs q)%Q as H3.
    { apply Qmult_lt_l; [done|lra]. }
    rewrite Qmult_inv_r in H3 by lra. done.
Qed.

Lemma binary64_zero (q : Q) : (q == 0)%Q → binary64 q = 0%Q.
Proof. intros E. unfold binary64. by rewrite (proj2 (Qeq_bool_iff q 0) E). Qed.

(** The rounding error of a number of moderate size. *)
Lemma binary64_error (q : Q) :
  (Qabs q <= 1024)%Q →
  (q - (1 # 2 ^ 43) <= binary64 q <= q + (1 # 2 ^ 43))%Q.
Proof.
  intros Hq. unfold binary64.
  destruct (Qeq_bool q 0) eqn:E0.
  { apply Qeq_bool_iff in E0. rewrite E0. split; discriminate. }
  assert (¬ (q == 0)%Q) as Hne.
  { intros E. apply Qeq_bool_iff in E. congruence. }
  cbn zeta. set (e := Z.max (exponent q) (-1022)).
  set (u := (2 ^ (e - 52))%Q).
  assert (0 < u)%Q as Hu by (apply Qpower_0_lt; reflexivity).
  assert (u <= 1 # 2 ^ 42)%Q as Hsmall.
  { assert (e ≤ 10) as He.
    { subst e. apply Z.max_lub; [|lia].
      apply (Qpower_le_compat_l_inv 2); [|reflexivity].
      apply Qle_trans with (Qabs q); [by apply exponent_le|].
      by change (2 ^ 10)%Q with 1024%Q. }
    change (1 # 2 ^ 42)%Q with (2 ^ (-42))%Q.
    apply Qpower_le_compat_l; [lia|discriminate]. }
  pose proof (round_half_even_near (q / u)) as Hr.
  assert (q / u * u == q)%Q as Equ by (field; lra).
  revert Hr Equ. generalize (inject_Z (round_half_even (q / u))) (q / u)%Q.
  intros r x Hr Equ.
  assert ((1 # 2 ^ 43) == (1 # 2) * (1 # 2 ^ 42))%Q as -> by reflexivity.
  revert Hsmall. generalize (1 # 2 ^ 42)%Q. intros t Ht.
  split; nra.
Qed.

(** The doubles written 0.1 and 0.3, and a tie: 2^53 + 1 lies halfway
    between two doubles and goes to the even one. *)
Example binary64_values :
  (binary64 (1 # 10) == 3602879701896397 # 36028797018963968)%Q
  ∧ (binary64 (3 # 10) == 5404319552844595 # 18014398509481984)%Q
  ∧ (binary64 (inject_Z (2 ^ 53 + 1)) == inject_Z (2 ^ 53))%Q
  ∧ (binary64 (inject_Z (2 ^ 53 + 3)) == inject_Z (2 ^ 53 + 4))%Q.
Proof. by vm_compute. Qed.

(** A product of two bounded numbers. *)
Lemma Qmult_bounded (x y X Y : Q) :
  (- X <= x <= X)%Q → (- Y <= y <= Y)%Q → (- (X * Y) <= x * y <= X * Y)%Q.
Proof. intros [? ?] [? ?]. split; nra. Qed.

Lemma binary64_bounded (q B : Q) :
  (- B <= q <= B)%Q → (B <= 1024)%Q →
  (q - (1 # 2 ^ 43) <= binary64 q <= q + (1 # 2 ^ 43))%Q.
Proof.
  intros [? ?] ?. apply binary64_error. apply Qabs_case; intros; lra.
Qed.

(** The byte stored for a channel is within 1/2 of the sum it rounds, and
    that sum is rounded once as a double. *)
Lemma grain_byte_bound (noise bound : Q) (v : Z) :
  (- bound <= noise)%Q → (noise <= bound)%Q → (bound <= 512)%Q → 0 ≤ v ≤ 255 →
  (inject_Z v - bound - (1 # 2) - (1 # 2 ^ 43)
   <= inject_Z (grain_byte (Fin noise) (of_Z v))
   <= inject_Z v + bound + (1 # 2) + (1 # 2 ^ 43))%Q.
Proof.
  intros Hlo Hhi Hb Hv. unfold grain_byte, of_Z.
  cbn [Num.max Num.min fadd lift2].
  change (inject_Z 0) with 0%Q. change (inject_Z 255) with 255%Q.
  destruct (inject_Z_byte v Hv) as [H0 H255].
  pose proof (binary64_bounded (inject_Z v + noise) 1024) as Hs.
  destruct Hs as [Hs1 Hs2]; [split; lra|lra|].
  revert Hs1 Hs2. generalize (binary64 (inject_Z v + noise)).
  assert (0 < 1 # 2 ^ 43)%Q as He by reflexivity.
  revert He. generalize (1 # 2 ^ 43)%Q. intros e He s Hs1 Hs2.
  set (q := Qmax 0 (Qmin 255 s)).
  pose proof (ToUint8Clamp_near q) as Hnear. cbn zeta in Hnear.
  assert (inject_Z v - bound - e <= q <= inject_Z v + bound + e)%Q as Hq.
  { subst q. clear Hnear. split.
    - apply Qle_trans with (Qmin 255 s); [|apply Q.le_max_r].
      apply Q.min_glb; lra.
    - apply Q.max_lub; [lra|].
      apply Qle_trans with s; [apply Q.le_min_r|lra]. }
  assert (Qmin 255 (Qmax 0 q) == q) as Eq.
  { assert (0 <= q)%Q by apply Q.le_max_l.
    assert (q <= 255)%Q.
    { subst q. apply Q.max_lub; [done|apply Q.le_min_l]. }
    rewrite Q.max_r by done. by rewrite Q.min_r. }
  rewrite Eq in Hnear.
  revert Hq Hnear. generalize (inject_Z (ToUint8Clamp (Fin q))). intros. lra.
Qed.

(** Adding a noise of 0 stores the byte that was read. *)
Lemma grain_byte_zero (v : Z) :
  0 ≤ v ≤ 255 → grain_byte (Fin 0) (of_Z v) = v.
Proof.
  intros Hv.
  destruct (grain_byte_bound 0 0 v) as [Hlo Hhi]; [discriminate..|done|].
  set (w := grain_byte (Fin 0) (of_Z v)) in *.
  assert (1 # 2 ^ 43 < 1 # 2)%Q as He by reflexivity.
  revert He Hlo Hhi. generalize (1 # 2 ^ 43)%Q. intros e He Hlo Hhi.
  assert (inject_Z (v - 1) < inject_Z w)%Q as H1.
  { unfold Z.sub. rewrite inject_Z_plus, inject_Z_opp.
    change (inject_Z 1) with 1%Q.
    revert Hlo. generalize (inject_Z v) (inject_Z w). intros. lra. }
  assert (inject_Z w < inject_Z (v + 1))%Q as H2.
  { rewrite inject_Z_plus. change (inject_Z 1) with 1%Q.
    revert Hhi. generalize (inject_Z v) (inject_Z w). intros. lra. }
  rewrite <- Zlt_Qlt in H1, H2. lia.
Qed.

(** The noise of a draw in [0, 1), for an opacity up to 200: the four
    roundings of its computation add less than [2^-33] to the exact
    bound. *)
Lemma grain_noise_bound (rng : nat → Q) (opacity : Q) (k : nat) :
  (0 <= opacity)%Q → (opacity <= 200)%Q → (0 <= rng k)%Q → (rng k < 1)%Q →
  ∃ noise, grain_noise rng opacity k = Fin noise
           ∧ (- ((51 # 40) * opacity + (1 # 2 ^ 33)) <= noise)%Q
           ∧ (noise <= (51 # 40) * opacity + (1 # 2 ^ 33))%Q.
Proof.
  intros Ho Ho2 Hr0 Hr1. unfold grain_noise, of_Z.
  cbn [fsub fmul fdiv lift2]. eexists. split; [reflexivity|].
  change (inject_Z 100) with 100%Q. change (inject_Z 255) with 255%Q.
  generalize dependent (rng k). intros r Hr0 Hr1.
  destruct (binary64_bounded (r - (1 # 2)) 1024) as [Ha1 Ha2];
    [split; lra|lra|].
  revert Ha1 Ha2. generalize (binary64 (r - (1 # 2))). intros a Ha1 Ha2.
  destruct (binary64_bounded (opacity / 100) 1024) as [Hb1 Hb2].
  { assert (opacity / 100 == opacity * (1 # 100))%Q as -> by field.
    split; lra. }
  { lra. }
  revert Hb1 Hb2. generalize (binary64 (opacity / 100)). intros b Hb1 Hb2.
  assert (opacity / 100 == opacity * (1 # 100))%Q as Eo by field.
  rewrite Eo in Hb1, Hb2. clear Eo.
  assert (∀ q B : Q, (- B <= q <= B)%Q → (B <= 1024)%Q →
            (q - (1 # 2 ^ 43) <= binary64 q <= q + (1 # 2 ^ 43))%Q) as Hround
    by apply binary64_bounded.
  assert ((1 # 2 ^ 33) == 1024 * (1 # 2 ^ 43))%Q as -> by reflexivity.
  assert (0 < 1 # 2 ^ 43)%Q as He by reflexivity.
  assert (1 # 2 ^ 43 <= 1 # 1000000)%Q as He' by discriminate.
  revert Ha1 Ha2 Hb1 Hb2 Hround He He'. generalize (1 # 2 ^ 43)%Q.
  intros e Ha1 Ha2 Hb1 Hb2 Hround He He'.
  (* the product of the two rounded factors *)
  assert (- (3 * e) <= a * b - (r - (1 # 2)) * (opacity * (1 # 100)) <= 3 * e)%Q
    as Hab.
  { assert (a * b - (r - (1 # 2)) * (opacity * (1 # 100))
            == (a - (r - (1 # 2))) * b
               + (r - (1 # 2)) * (b - opacity * (1 # 100)))%Q as -> by ring.
    destruct (Qmult_bounded (a - (r - (1 # 2))) b e (2 + e)) as [? ?];
      [split; lra..|].
    destruct (Qmult_bounded (r - (1 # 2)) (b - opacity * (1 # 100)) (1 # 2) e)
      as [? ?]; [split; lra..|].
    assert (e * e <= e * (1 # 1000000))%Q by (apply Qmult_le_l; lra).
    split; lra. }
  assert (- ((1 # 200) * opacity) <= (r - (1 # 2)) * (opacity * (1 # 100))
          <= (1 # 200) * opacity)%Q as Hx.
  { destruct (Qmult_bounded (r - (1 # 2)) (opacity * (1 # 100))
                (1 # 2) (opacity * (1 # 100))) as [? ?]; [split; lra..|].
    split; lra. }
  destruct (Hround (a * b)%Q 1024%Q) as [Hc1 Hc2]; [split; lra|lra|].
  revert Hab Hc1 Hc2. generalize (a * b)%Q. intros ab Hab Hc1 Hc2.
  revert Hc1 Hc2. generalize (binary64 ab). intros c Hc1 Hc2.
  destruct (Hround (c * 255)%Q 1024%Q) as [Hd1 Hd2]; [split; lra|lra|].
  revert Hd1 Hd2. generalize (binary64 (c * 255)). intros d Hd1 Hd2.
  revert Hx Hab. generalize ((r - (1 # 2)) * (opacity * (1 # 100)))%Q.
  intros x Hx Hab. split; lra.
Qed.

Lemma grain_noise_zero (rng : nat → Q) (k : nat) : grain_noise rng 0 k = Fin 0.
Proof.
  unfold grain_noise, of_Z. cbn [fsub fmul fdiv lift2].
  rewrite (binary64_zero (0 / inject_Z 100)) by reflexivity.
  rewrite (binary64_zero (_ * 0)) by ring.
  by rewrite (binary64_zero (0 * _)) by ring.
Qed.

(** X14.  With an opacity of 0 the grain pass returns the array of a valid
    buffer unchanged; it still consumes one draw per pixel. *)
Theorem applyGrainEffect_opacity_zero rng (data0 : list Z) (k0 : nat) (n : Z) :
  len data0 = 4 * n → bytes data0 →
  applyGrainEffect rng 0 (data0, k0) = (data0, (k0 + Z.to_nat n)%nat).
Proof.
  intros Hlen Hb.
  destruct (grain_loop rng 0 data0 k0 n Hlen) as (Hk & Hl & Hp).
  destruct (applyGrainEffect rng 0 (data0, k0)) as [out k] eqn:E.
  cbn [fst snd] in *. f_equal; [|done].
  apply rdZ_ext. intros j.
  destruct (decide (0 ≤ j < len data0)) as [Hj|Hj];
    [|by rewrite !rdZ_out_of_range by lia].
  destruct (pixel_channel j) as [Ej Hc].
  set (p := j `div` 4) in *. set (c := j `mod` 4) in *.
  destruct (Hp p) as (H0 & H1 & H2 & H3); [lia|].
  assert (∀ i, 0 ≤ i < len data0 →
            Some (grain_byte (grain_noise rng 0 (k0 + Z.to_nat p)) (rd data0 i))
            = rdZ data0 i) as Hsame.
  { intros i Hi. destruct (rdZ_in_range data0 i Hi) as [v Hv].
    rewrite (rd_Some _ _ _ Hv), Hv. f_equal. fold (of_Z v).
    rewrite grain_noise_zero. apply grain_byte_zero. by eapply rdZ_bytes. }
  assert (c = 0 ∨ c = 1 ∨ c = 2 ∨ c = 3) as [Ec | [Ec | [Ec | Ec]]] by lia;
    rewrite Ej, Ec, ?Z.add_0_r;
    rewrite ?H0, ?H1, ?H2, ?H3; try done; apply Hsame; lia.
Qed.

Lemma applyGrainEffect_opacity_zero_witness :
  applyGrainEffect sample_rng 0 ([100; 100; 100; 255; 1; 2; 3; 4], O)
  = ([100; 100; 100; 255; 1; 2; 3; 4], 2%nat).
Proof.
  apply (applyGrainEffect_opacity_zero sample_rng _ O 2).
  - reflexivity.
  - unfold bytes. repeat constructor; lia.
Defined.

(** X15.  Grain never tints a gray pixel: a pixel whose red, green and blue
    bytes are equal still has three equal colour bytes after the pass,
    whatever the draws and the opacity. *)
Theorem applyGrainEffect_keeps_gray rng opacity (data0 : list Z) (k0 : nat)
    (n p : Z) :
  len data0 = 4 * n → 0 ≤ p < n →
  rdZ data0 (4 * p + 1) = rdZ data0 (4 * p) →
  rdZ data0 (4 * p + 2) = rdZ data0 (4 * p) →
  let out := (applyGrainEffect rng opacity (data0, k0)).1 in
  rdZ out (4 * p + 1) = rdZ out (4 * p) ∧ rdZ out (4 * p + 2) = rdZ out (4 * p).
Proof.
  intros Hlen Hp Eg Eb out.
  destruct (grain_loop rng opacity data0 k0 n Hlen) as (_ & _ & Hpix).
  destruct (Hpix p Hp) as (H0 & H1 & H2 & _). subst out.
  rewrite H0, H1, H2. unfold rd. by rewrite Eg, Eb.
Qed.

Lemma applyGrainEffect_keeps_gray_witness :
  let out := (applyGrainEffect sample_rng 30 ([100; 100; 100; 255], O)).1 in
  rdZ out (4 * 0 + 1) = rdZ out (4 * 0) ∧ rdZ out (4 * 0 + 2) = rdZ out (4 * 0).
Proof.
  apply (applyGrainEffect_keeps_gray sample_rng 30 [100; 100; 100; 255] O 1 0).
  - reflexivity.
  - lia.
  - reflexivity.
  - reflexivity.
Defined.

(** The move of a byte, for every opacity that is not negative. *)
Lemma grain_byte_move (rng : nat → Q) (opacity : Q) (k : nat) (v : Z) :
  (0 <= opacity)%Q → (0 <= rng k)%Q → (rng k < 1)%Q → 0 ≤ v ≤ 255 →
  let v' := grain_byte (grain_noise rng opacity k) (of_Z v) in
  (inject_Z v - (51 # 40) * opacity - (1 # 2) - (1 # 2 ^ 32) <= inject_Z v')%Q
  ∧ (inject_Z v' <= inject_Z v + (51 # 40) * opacity + (1 # 2) + (1 # 2 ^ 32))%Q.
Proof.
  intros Ho Hr0 Hr1 Hv v'.
  assert (0 ≤ v' ≤ 255) as Hv' by apply ToUint8Clamp_range.
  destruct (inject_Z_byte v Hv) as [H0 H255].
  destruct (inject_Z_byte v' Hv') as [H0' H255'].
  assert (0 < 1 # 2 ^ 32)%Q as He by reflexivity.
  destruct (Qlt_le_dec 200 opacity) as [Hbig|Hsmall].
  { revert He H0 H255 H0' H255'.
    generalize (1 # 2 ^ 32)%Q (inject_Z v) (inject_Z v'). intros. split; lra. }
  destruct (grain_noise_bound rng opacity k Ho Hsmall Hr0 Hr1)
    as (noise & En & Hlo & Hhi).
  subst v'. rewrite En in *.
  assert ((51 # 40) * opacity + (1 # 2 ^ 33) <= 512)%Q as Hb.
  { assert (1 # 2 ^ 33 < 1)%Q as He3 by reflexivity.
    revert He3. generalize (1 # 2 ^ 33)%Q. intros. lra. }
  pose proof (grain_byte_bound noise _ v Hlo Hhi Hb Hv) as [H1 H2].
  assert ((1 # 2 ^ 33) + (1 # 2 ^ 43) <= 1 # 2 ^ 32)%Q as Hsum by discriminate.
  revert H1 H2 Hsum.
  generalize (1 # 2 ^ 32)%Q (1 # 2 ^ 33)%Q (1 # 2 ^ 43)%Q (inject_Z v)
    (inject_Z (grain_byte (Fin noise) (of_Z v))).
  intros. split; lra.
Qed.

(** Between integers, a bound that is a multiple of 1/40 absorbs a slack
    below 1/40. *)
Lemma bound_of_integers (a b o : Z) (e : Q) :
  (e < 1 # 40)%Q →
  (inject_Z a <= inject_Z b + (51 # 40) * inject_Z o + (1 # 2) + e)%Q →
  (inject_Z a <= inject_Z b + (51 # 40) * inject_Z o + (1 # 2))%Q.
Proof.
  intros He H.
  assert (inject_Z (40 * a) < inject_Z (40 * b + 51 * o + 20 + 1))%Q as Hz.
  { rewrite !inject_Z_plus, !inject_Z_mult.
    change (inject_Z 40) with 40%Q. change (inject_Z 51) with 51%Q.
    change (inject_Z 20) with 20%Q. change (inject_Z 1) with 1%Q.
    revert H. generalize (inject_Z a) (inject_Z b) (inject_Z o). intros. lra. }
  rewrite <- Zlt_Qlt in Hz.
  assert (40 * a ≤ 40 * b + 51 * o + 20) as Hz' by lia.
  rewrite Zle_Qle in Hz'.
  rewrite !inject_Z_plus, !inject_Z_mult in Hz'.
  change (inject_Z 40) with 40%Q in Hz'. change (inject_Z 51) with 51%Q in Hz'.
  change (inject_Z 20) with 20%Q in Hz'.
  revert Hz'. generalize (inject_Z a) (inject_Z b) (inject_Z o). intros. lra.
Qed.

(** X16.  With an opacity that is not negative and draws in [0, 1), the
    grain pass moves no colour byte of a valid buffer by more than
    1.275 * opacity + 1/2 + 2^-32, the last term covering the rounding of
    the doubles; when the opacity is an integer, as the slider gives it, the
    move is at most 1.275 * opacity + 1/2. *)
Theorem applyGrainEffect_bounded rng opacity (data0 : list Z) (k0 : nat)
    (n p c : Z) :
  len data0 = 4 * n → bytes data0 →
  (0 <= opacity)%Q → (∀ k, (0 <= rng k)%Q ∧ (rng k < 1)%Q) →
  0 ≤ p < n → 0 ≤ c < 3 →
  let out := (applyGrainEffect rng opacity (data0, k0)).1 in
  ∃ v v', rdZ data0 (4 * p + c) = Some v ∧ rdZ out (4 * p + c) = Some v'
    ∧ (inject_Z v - (51 # 40) * opacity - (1 # 2) - (1 # 2 ^ 32)
       <= inject_Z v')%Q
    ∧ (inject_Z v' <= inject_Z v + (51 # 40) * opacity + (1 # 2)
                      + (1 # 2 ^ 32))%Q
    ∧ ∀ o : Z, (opacity == inject_Z o)%Q →
        (inject_Z v - (51 # 40) * opacity - (1 # 2) <= inject_Z v')%Q
        ∧ (inject_Z v' <= inject_Z v + (51 # 40) * opacity + (1 # 2))%Q.
Proof.
  intros Hlen Hb Ho Hrng Hp Hc out.
  destruct (grain_loop rng opacity data0 k0 n Hlen) as (_ & _ & Hpix).
  destruct (Hpix p Hp) as (H0 & H1 & H2 & _). subst out.
  destruct (Hrng (k0 + Z.to_nat p)%nat) as [Hr0 Hr1].
  destruct (rdZ_in_range data0 (4 * p + c)) as [v Hv]; [lia|].
  pose proof (rdZ_bytes _ _ _ Hb Hv) as Hrange.
  destruct (grain_byte_move rng opacity (k0 + Z.to_nat p) v Ho Hr0 Hr1 Hrange)
    as [Hlo Hhi].
  revert Hlo Hhi.
  set (v' := grain_byte (grain_noise rng opacity (k0 + Z.to_nat p)) (of_Z v)).
  intros Hlo Hhi.
  exists v, v'.
  split; [done|]. split.
  { assert (c = 0 ∨ c = 1 ∨ c = 2) as [-> | [-> | ->]] by lia;
      rewrite ?Z.add_0_r in *; rewrite ?H0, ?H1, ?H2;
      by rewrite (rd_Some _ _ _ Hv). }
  split; [exact Hlo|]. split; [exact Hhi|].
  intros o Eo. rewrite Eo in Hlo, Hhi. rewrite Eo.
  assert (1 # 2 ^ 32 < 1 # 40)%Q as He by reflexivity.
  revert He Hlo Hhi. generalize (1 # 2 ^ 32)%Q. intros e He Hlo Hhi. split.
  - assert (inject_Z v <= inject_Z v' + (51 # 40) * inject_Z o + (1 # 2) + e)%Q
      as Hlo' by (revert Hlo; generalize (inject_Z v) (inject_Z v') (inject_Z o);
                  intros; lra).
    apply (bound_of_integers v v' o e He) in Hlo'.
    revert Hlo'. generalize (inject_Z v) (inject_Z v') (inject_Z o). intros. lra.
  - apply (bound_of_integers v' v o e He). exact Hhi.
Qed.

Lemma applyGrainEffect_bounded_witness :
  let out := (applyGrainEffect sample_rng 30 ([100; 100; 100; 255], O)).1 in
  ∃ v v', rdZ [100; 100; 100; 255] (4 * 0 + 1) = Some v
    ∧ rdZ out (4 * 0 + 1) = Some v'
    ∧ (inject_Z v - (51 # 40) * 30 - (1 # 2) - (1 # 2 ^ 32) <= inject_Z v')%Q
    ∧ (inject_Z v' <= inject_Z v + (51 # 40) * 30 + (1 # 2) + (1 # 2 ^ 32))%Q
    ∧ ∀ o : Z, (30 == inject_Z o)%Q →
        (inject_Z v - (51 # 40) * 30 - (1 # 2) <= inject_Z v')%Q
        ∧ (inject_Z v' <= inject_Z v + (51 # 40) * 30 + (1 # 2))%Q.
Proof.
  apply (applyGrainEffect_bounded sample_rng 30 [100; 100; 100; 255] O 1 0 1).
  - reflexivity.
  - unfold bytes. repeat constructor; lia.
  - discriminate.
  - intros [|k]; split; (discriminate || reflexivity).
  - lia.
  - lia.
Defined.

(** * The effects panel *)

Lemma findIndex_range i (effects : list ImageEffect) :
  -1 ≤ findIndex i effects < Z.of_nat (length effects).
Proof.
  induction effects as [|e l IH]; cbn [findIndex length]; [lia|].
  case_bool_decide; [lia|]. case_decide; lia.
Qed.

Lemma findIndex_absent i (effects : list ImageEffect) :
  findIndex i effects = -1 ↔ absent i effects.
Proof.
  unfold absent. induction effects as [|e l IH]; cbn [findIndex]; [by split|].
  pose proof (findIndex_range i l).
  rewrite Forall_cons. case_bool_decide as He.
  - split; [lia|tauto].
  - case_decide; [tauto|]. split; [lia|]. intros [_ H']. tauto.
Qed.

(** The first match: the chain splits around it. *)
Lemma findIndex_split i (effects : list ImageEffect) k :
  findIndex i effects = k → k ≠ -1 →
  ∃ front e back,
    effects = front ++ e :: back ∧ id e = i ∧ absent i front
    ∧ k = Z.of_nat (length front).
Proof.
  revert k. induction effects as [|e l IH]; intros k; cbn [findIndex]; [lia|].
  case_bool_decide as He.
  - intros <- _. exists [], e, l. repeat split; [done|constructor].
  - case_decide as Hk; [lia|]. intros <- _.
    destruct (IH _ eq_refl Hk) as (front & e' & back & -> & He' & Hf & Hlen).
    exists (e :: front), e', back. repeat split; [done|by constructor|].
    cbn [length]. lia.
Qed.

Lemma findIndex_first i (front back : list ImageEffect) e :
  absent i front → id e = i →
  findIndex i (front ++ e :: back) = Z.of_nat (length front).
Proof.
  intros Hf He. induction Hf as [|e' l He' _ IH]; cbn [findIndex app length].
  - by rewrite bool_decide_true.
  - rewrite bool_decide_false by done. rewrite IH.
    rewrite decide_False by lia. lia.
Qed.

Lemma swap_adjacent {A : Type} (front back : list A) (a b : A) :
  <[length front := b]> (<[S (length front) := a]> (front ++ a :: b :: back))
  = front ++ b :: a :: back.
Proof.
  induction front as [|x front IH]; [done|].
  cbn [length app]. cbn. f_equal. apply IH.
Qed.

Lemma swap_adjacent' {A : Type} (front back : list A) (a b : A) :
  <[S (length front) := a]> (<[length front := b]> (front ++ a :: b :: back))
  = front ++ b :: a :: back.
Proof.
  induction front as [|x front IH]; [done|].
  cbn [length app]. cbn. f_equal. apply IH.
Qed.

(** What [moveEffect] does, upwards and downwards. *)
Lemma moveEffect_up i (effects l' : list ImageEffect) :
  moveEffect i Up effects = Some l'
  ↔ ∃ front a b back,
      effects = front ++ a :: b :: back ∧ id b = i ∧ absent i (front ++ [a])
      ∧ l' = front ++ b :: a :: back.
Proof.
  unfold moveEffect. cbn zeta. split.
  - case_decide as Hk; [done|].
    destruct (findIndex_split i effects _ eq_refl Hk)
      as (front & b & back & -> & Hb & Hf & Hlen).
    rewrite Hlen. case_decide as Hr; [done|].
    destruct front as [|x front _] using rev_ind; [cbn in Hr; lia|].
    rewrite length_app in *. cbn [length] in *.
    replace (Z.to_nat (Z.of_nat (length front + 1) - 1)) with (length front) by lia.
    rewrite Nat2Z.id. rewrite <- !app_assoc. cbn [app].
    rewrite list_lookup_middle by done.
    replace (length front + 1)%nat with (S (length front)) by lia.
    rewrite (lookup_app_r front) by lia.
    replace (S (length front) - length front)%nat with 1%nat by lia.
    cbn [lookup list_lookup]. intros [= <-].
    exists front, x, b, back.
    repeat split; [done|done|].
    apply swap_adjacent.
  - intros (front & a & b & back & -> & Hb & Hf & ->).
    replace (front ++ a :: b :: back) with ((front ++ [a]) ++ b :: back)
      by (by rewrite <- app_assoc).
    rewrite findIndex_first by done.
    rewrite !length_app. cbn [length].
    rewrite decide_False by lia. rewrite decide_False by lia.
    replace (Z.to_nat (Z.of_nat (length front + 1) - 1)) with (length front) by lia.
    rewrite Nat2Z.id. rewrite <- !app_assoc. cbn [app].
    rewrite list_lookup_middle by done.
    replace (length front + 1)%nat with (S (length front)) by lia.
    rewrite (lookup_app_r front) by lia.
    replace (S (length front) - length front)%nat with 1%nat by lia.
    cbn [lookup list_lookup]. by rewrite swap_adjacent.
Qed.

Lemma moveEffect_down i (effects l' : list ImageEffect) :
  moveEffect i Down effects = Some l'
  ↔ ∃ front a b back,
      effects = front ++ a :: b :: back ∧ id a = i ∧ absent i front
      ∧ l' = front ++ b :: a :: back.
Proof.
  unfold moveEffect. cbn zeta. split.
  - case_decide as Hk; [done|].
    destruct (findIndex_split i effects _ eq_refl Hk)
      as (front & a & back & -> & Ha & Hf & Hlen).
    rewrite Hlen. case_decide as Hr; [done|].
    rewrite length_app in Hr. cbn [length] in Hr.
    destruct back as [|b back]; [cbn in Hr; lia|].
    replace (Z.to_nat (Z.of_nat (length front) + 1)) with (S (length front)) by lia.
    rewrite Nat2Z.id. rewrite (list_lookup_middle front _ a (length front)) by done.
    rewrite (lookup_app_r front) by lia.
    replace (S (length front) - length front)%nat with 1%nat by lia.
    cbn [lookup list_lookup]. intros [= <-].
    exists front, a, b, back. repeat split; [done|done|].
    apply swap_adjacent'.
  - intros (front & a & b & back & -> & Ha & Hf & ->).
    rewrite findIndex_first by done.
    rewrite !length_app. cbn [length].
    rewrite decide_False by lia. rewrite decide_False by lia.
    replace (Z.to_nat (Z.of_nat (length front) + 1)) with (S (length front)) by lia.
    rewrite Nat2Z.id. rewrite (list_lookup_middle front _ a (length front)) by done.
    rewrite (lookup_app_r front) by lia.
    replace (S (length front) - length front)%nat with 1%nat by lia.
    cbn [lookup list_lookup]. by rewrite swap_adjacent'.
Qed.

(** X17.  When [moveEffect] calls back, the new chain is the old one with
    two neighbours exchanged: the first descriptor that has the id and the
    one before it (up) or after it (down).  Nothing is lost or duplicated. *)
Theorem moveEffect_swaps_neighbours i direction (effects l' : list ImageEffect) :
  moveEffect i direction effects = Some l' →
  ∃ front a b back,
    effects = front ++ a :: b :: back ∧ l' = front ++ b :: a :: back
    ∧ absent i front
    ∧ match direction with
      | Up => id a ≠ i ∧ id b = i
      | Down => id a = i
      end.
Proof.
  destruct direction.
  - intros (front & a & b & back & -> & Hb & Hf & ->)%moveEffect_up.
    exists front, a, b, back. unfold absent in *.
    apply Forall_app in Hf as [Hf Ha]. rewrite Forall_singleton in Ha.
    split; [done|]. split; [done|]. split; [done|]. split; [exact Ha|exact Hb].
  - intros (front & a & b & back & -> & Ha & Hf & ->)%moveEffect_down.
    exists front, a, b, back.
    split; [done|]. split; [done|]. by split.
Qed.

Lemma moveEffect_swaps_neighbours_witness :
  ∃ front a b back,
    [createDefaultEffect 1 Blur; createDefaultEffect 2 Gamma]
    = front ++ a :: b :: back
    ∧ [createDefaultEffect 2 Gamma; createDefaultEffect 1 Blur]
      = front ++ b :: a :: back
    ∧ absent (Gamma, 2) front
    ∧ id a ≠ (Gamma, 2) ∧ id b = (Gamma, 2).
Proof.
  apply (moveEffect_swaps_neighbours (Gamma, 2) Up
           [createDefaultEffect 1 Blur; createDefaultEffect 2 Gamma]).
  reflexivity.
Defined.

(** X18.  [moveEffect] returns without calling back exactly when no
    descriptor has the id, or the first one that has it is already at the
    end it is moved towards. *)
Theorem moveEffect_refuses i direction (effects : list ImageEffect) :
  moveEffect i direction effects = None
  ↔ absent i effects
    ∨ match direction with
      | Up => ∃ e rest, effects = e :: rest ∧ id e = i
      | Down => ∃ front e, effects = front ++ [e] ∧ id e = i ∧ absent i front
      end.
Proof.
  destruct (decide (findIndex i effects = -1)) as [Hk|Hk].
  { split; [intros _; left; by apply findIndex_absent|].
    intros _. unfold moveEffect. by rewrite decide_True. }
  destruct (findIndex_split i effects _ eq_refl Hk)
    as (front & e & back & E & He & Hf & Hlen).
  assert (¬ absent i effects) as Hpresent by (by rewrite <- findIndex_absent).
  destruct direction.
  - destruct front as [|a front _] using rev_ind.
    + split; [intros _; right; by exists e, back|]. intros _.
      unfold moveEffect. cbn zeta. rewrite Hlen. cbn.
      rewrite decide_False by done. by rewrite decide_True by lia.
    + assert (moveEffect i Up effects = Some (front ++ e :: a :: back)) as Hm.
      { apply moveEffect_up. exists front, a, e, back.
        by rewrite E, <- app_assoc. }
      rewrite Hm. split; [done|]. intros [?|(e' & rest & E' & He')]; [done|].
      exfalso. subst effects. unfold absent in Hf.
      apply Forall_app in Hf as [Hf Ha]. rewrite Forall_singleton in Ha.
      destruct front; simplify_eq/=.
      apply Forall_cons in Hf as [? _]. done.
  - destruct back as [|b back].
    + split; [intros _; right; by exists front, e|]. intros _.
      unfold moveEffect. cbn zeta. rewrite Hlen, decide_False by lia.
      rewrite decide_True; [done|]. rewrite E, length_app. cbn. lia.
    + assert (moveEffect i Down effects = Some (front ++ b :: e :: back)) as Hm.
      { apply moveEffect_down. by exists front, e, b, back. }
      rewrite Hm. split; [done|]. intros [?|(front' & e' & E' & He' & Hf')]; [done|].
      exfalso. subst effects.
      assert (findIndex i (front ++ e :: b :: back) = Z.of_nat (length front)) as K1
        by (by apply findIndex_first).
      rewrite E' in K1.
      rewrite (findIndex_first i front' [] e') in K1 by done.
      apply (f_equal length) in E'. rewrite !length_app in E'. cbn in E'. lia.
Qed.

(** X19.  A move up that was carried out is undone by a move down with the
    same id, even when several descriptors share the id. *)
Theorem moveEffect_up_down i (effects l' : list ImageEffect) :
  moveEffect i Up effects = Some l' → moveEffect i Down l' = Some effects.
Proof.
  intros (front & a & b & back & -> & Hb & Hf & ->)%moveEffect_up.
  apply moveEffect_down. exists front, b, a, back.
  unfold absent in *. apply Forall_app in Hf as [Hf _]. done.
Qed.

Lemma moveEffect_up_down_witness :
  moveEffect (Gamma, 2) Down
    [createDefaultEffect 2 Gamma; createDefaultEffect 1 Blur]
  = Some [createDefaultEffect 1 Blur; createDefaultEffect 2 Gamma].
Proof.
  apply (moveEffect_up_down (Gamma, 2)
           [createDefaultEffect 1 Blur; createDefaultEffect 2 Gamma]).
  reflexivity.
Defined.

(** X20.  A move down that was carried out is undone by a move up with the
    same id, provided the descriptor it jumped over has another id (as
    when all ids of the chain are distinct). *)
Theorem moveEffect_down_up i (effects l' : list ImageEffect) :
  NoDup (id <$> effects) →
  moveEffect i Down effects = Some l' → moveEffect i Up l' = Some effects.
Proof.
  intros Hnd (front & a & b & back & -> & Ha & Hf & ->)%moveEffect_down.
  apply moveEffect_up. exists front, b, a, back.
  split; [done|]. split; [done|]. split; [|done].
  unfold absent. apply Forall_app. split; [done|]. apply Forall_singleton.
  rewrite fmap_app in Hnd. apply NoDup_app in Hnd as (_ & _ & Hnd).
  cbn in Hnd. apply NoDup_cons in Hnd as [Hnd _].
  intros Hb. apply Hnd. rewrite Ha, <- Hb. by left.
Qed.

Lemma moveEffect_down_up_witness :
  moveEffect (Blur, 1) Up
    [createDefaultEffect 2 Gamma; createDefaultEffect 1 Blur]
  = Some [createDefaultEffect 1 Blur; createDefaultEffect 2 Gamma].
Proof.
  apply (moveEffect_down_up (Blur, 1)
           [createDefaultEffect 1 Blur; createDefaultEffect 2 Gamma]).
  - apply (bool_decide_unpack _). reflexivity.
  - reflexivity.
Defined.

(** With two descriptors of the same id the move down is not undone: the
    move up finds the descriptor that was jumped over. *)
Example moveEffect_down_up_same_id :
  let chain := [createDefaultEffect 0 Dithering; createDefaultEffect 5 Blur;
                createDefaultEffect 5 Blur] in
  moveEffect (Blur, 5) Down chain = Some chain
  ∧ moveEffect (Blur, 5) Up chain
    = Some [createDefaultEffect 5 Blur; createDefaultEffect 0 Dithering;
            createDefaultEffect 5 Blur].
Proof. done. Qed.

(** X21.  Toggling the same id twice gives the chain back, whether or not
    the id occurs, once or several times. *)
Theorem toggleEffect_twice i (effects : list ImageEffect) :
  toggleEffect i (toggleEffect i effects) = effects.
Proof.
  unfold toggleEffect. rewrite <- list_fmap_compose.
  rewrite <- (list_fmap_id effects) at 2. apply list_fmap_ext.
  intros _ e _. cbn. destruct e as [ie te en ce]. cbn [id type enabled config].
  destruct (bool_decide (ie = i)) eqn:He; cbn [id type enabled config];
    rewrite He; [|done].
  by rewrite negb_involutive.
Qed.

Lemma filter_enabled_update i cfg (effects : list ImageEffect) :
  Forall (λ e, id e = i → enabled e = false) effects →
  List.filter enabled (updateEffectConfig i cfg effects)
  = List.filter enabled effects.
Proof.
  unfold updateEffectConfig.
  induction 1 as [|e l He _ IH]; [done|].
  rewrite fmap_cons. cbn [List.filter].
  case_bool_decide as Hi; cbn [enabled].
  - rewrite (He Hi). apply IH.
  - destruct (enabled e); by rewrite IH.
Qed.

(** X22.  Changing the configuration of a descriptor that is switched off
    does not change what the pipeline returns: when every descriptor that
    has the id is disabled, the call on the updated chain gives the result
    of the call on the chain before. *)
Theorem update_disabled_is_silent canvas i cfg (effects : list ImageEffect) doc :
  Forall (λ e, id e = i → enabled e = false) effects →
  applyEffectsToCanvas canvas (updateEffectConfig i cfg effects) doc
  = applyEffectsToCanvas canvas effects doc.
Proof.
  intros Hoff.
  rewrite (enabled_only canvas (updateEffectConfig i cfg effects)).
  rewrite (enabled_only canvas effects).
  by rewrite filter_enabled_update.
Qed.

Lemma update_disabled_is_silent_witness :
  applyEffectsToCanvas 0
    (updateEffectConfig (Threshold, 7) empty_config
       [createDefaultEffect 3 Gamma;
        mkImageEffect (Threshold, 7) Threshold false (defaultConfigs Threshold)])
    one_pixel_doc
  = applyEffectsToCanvas 0
      [createDefaultEffect 3 Gamma;
       mkImageEffect (Threshold, 7) Threshold false (defaultConfigs Threshold)]
      one_pixel_doc.
Proof.
  apply update_disabled_is_silent.
  repeat constructor. discriminate.
Defined.

Lemma filter_enabled_toggle i (effects : list ImageEffect) :
  Forall (λ e, id e = i → enabled e = true) effects →
  List.filter enabled (toggleEffect i effects)
  = List.filter enabled (removeEffect i effects).
Proof.
  unfold toggleEffect, removeEffect.
  induction 1 as [|e l He _ IH]; [done|].
  rewrite fmap_cons. cbn [List.filter].
  case_bool_decide as Hi; cbn [negb enabled List.filter].
  - rewrite (He Hi). cbn [negb]. apply IH.
  - destruct (enabled e); cbn [List.filter]; by rewrite IH.
Qed.

(** X23.  For the pipeline, switching a descriptor off is the same as
    removing it: when every descriptor that has the id is enabled, the call
    on the toggled chain gives the result of the call on the chain without
    them. *)
Theorem toggle_off_is_remove canvas i (effects : list ImageEffect) doc :
  Forall (λ e, id e = i → enabled e = true) effects →
  applyEffectsToCanvas canvas (toggleEffect i effects) doc
  = applyEffectsToCanvas canvas (removeEffect i effects) doc.
Proof.
  intros Hon.
  rewrite (enabled_only canvas (toggleEffect i effects)).
  rewrite (enabled_only canvas (removeEffect i effects)).
  by rewrite filter_enabled_toggle.
Qed.

Lemma toggle_off_is_remove_witness :
  applyEffectsToCanvas 0
    (toggleEffect (Threshold, 7)
       [createDefaultEffect 3 Gamma; createDefaultEffect 7 Threshold])
    one_pixel_doc
  = applyEffectsToCanvas 0
      (removeEffect (Threshold, 7)
         [createDefaultEffect 3 Gamma; createDefaultEffect 7 Threshold])
      one_pixel_doc.
Proof.
  apply toggle_off_is_remove.
  repeat constructor.
Defined.

Lemma removeEffect_absent i (effects : list ImageEffect) :
  absent i effects → removeEffect i effects = effects.
Proof.
  unfold removeEffect. induction 1 as [|e l He _ IH]; [done|].
  cbn [List.filter]. rewrite bool_decide_false by done. cbn [negb].
  by rewrite IH.
Qed.

(** X24.  Removing a descriptor that was just added gives the chain back,
    provided no descriptor of the chain already had its id, which is the
    kind followed by the time of creation; and in any case, for every chain
    and every id, [removeEffect] leaves no descriptor that has the id. *)
Theorem removeEffect_after_add now type (effects : list ImageEffect) :
  (absent (type, now) effects →
   removeEffect (type, now) (addEffect now type effects) = effects)
  ∧ ∀ i (chain : list ImageEffect), absent i (removeEffect i chain).
Proof.
  split.
  - intros Hf. unfold addEffect, removeEffect. cbn zeta.
    rewrite List.filter_app. fold (removeEffect (type, now) effects).
    rewrite removeEffect_absent by done.
    cbn. rewrite bool_decide_true by done. cbn. apply app_nil_r.
  - intros i chain. unfold absent, removeEffect.
    apply List.Forall_forall. intros e He%List.filter_In.
    destruct He as [_ He]. apply negb_true_iff in He.
    by apply bool_decide_eq_false in He.
Qed.

Lemma removeEffect_after_add_witness :
  removeEffect (Blur, 9) (addEffect 9 Blur [createDefaultEffect 3 Gamma])
  = [createDefaultEffect 3 Gamma].
Proof.
  refine (proj1 (removeEffect_after_add 9 Blur [createDefaultEffect 3 Gamma]) _).
  repeat constructor. discriminate.
Defined.

(** Two descriptors of one kind added within the same millisecond share
    their id: removing one removes both. *)
Example removeEffect_same_millisecond :
  removeEffect (Blur, 9) (addEffect 9 Blur (addEffect 9 Blur [])) = [].
Proof. done. Qed.

(** * The grid component *)









(** ** The CSS effects of the grid *)

Lemma css_loop (acc : list Q) (hv : bool) (effects : list ImageEffect) :
  foldl (λ '(filters, hasVignette) effect,
           if negb (enabled effect) then (filters, hasVignette)
           else match type effect with
                | Blur =>
                    (filters ++ [or_default (cfg_blur (config effect)) 2],
                     hasVignette)
                | Vignette => (filters, true)
                | _ => (filters, hasVignette)
                end) (acc, hv) effects
  = (acc ++ blur_radii effects,
     hv || existsb (λ e, is_vignette (type e) && enabled e) effects).
Proof.
  unfold blur_radii. revert acc hv.
  induction effects as [|e l IH]; intros acc hv.
  - cbn. by rewrite app_nil_r, orb_false_r.
  - cbn [foldl List.filter existsb].
    destruct (enabled e); cbn [negb andb].
    + destruct (type e); cbn [is_blur is_vignette andb orb]; rewrite IH;
        rewrite ?orb_true_r, ?orb_false_r; try done.
      cbn [fmap list_fmap]. by rewrite <- app_assoc.
    + rewrite IH, andb_false_r. done.
Qed.

Lemma find_existsb {A : Type} (f : A → bool) (l : list A) :
  existsb f l = bool_decide (is_Some (List.find f l)).
Proof.
  induction l as [|a l IH]; [done|]. cbn [existsb List.find].
  destruct (f a); [done|]. by rewrite IH.
Qed.

(** X28.  After [applyCSSEffects] on a container that has at most one
    vignette overlay, the container has exactly one overlay when some
    vignette descriptor is enabled and none otherwise; the strength of the
    overlay is that of the first enabled vignette descriptor of the chain
    (50 when it is missing or 0), later ones being ignored. *)
Theorem applyCSSEffects_overlay (effects : list ImageEffect) (cv : Canvas)
    (overlays : list Q) :
  (length overlays ≤ 1)%nat →
  (applyCSSEffects effects cv overlays).2
  = match vignette_strength effects with
    | Some strength => [strength]
    | None => []
    end.
Proof.
  intros Hone. unfold applyCSSEffects, vignette_strength.
  rewrite css_loop. cbn [orb]. rewrite find_existsb.
  assert (tail overlays = []) as ->.
  { destruct overlays as [|o [|o' l]]; [done|done|cbn in Hone; lia]. }
  destruct (List.find _ effects) as [v|]; cbn; done.
Qed.

Lemma applyCSSEffects_overlay_witness :
  (applyCSSEffects
     [createDefaultEffect 1 Blur;
      mkImageEffect (Vignette, 2) Vignette true
        (mkEffectConfig None None None None None None (Some 80%Q) None None None);
      createDefaultEffect 3 Vignette]
     (mkCanvas 1 1 [10; 20; 30; 255] true []) [50%Q]).2
  = [80%Q].
Proof.
  assert (length [50%Q] ≤ 1)%nat as Hone by (cbn; lia).
  exact (applyCSSEffects_overlay
           [createDefaultEffect 1 Blur;
            mkImageEffect (Vignette, 2) Vignette true
              (mkEffectConfig None None None None None None (Some 80%Q) None
                 None None);
            createDefaultEffect 3 Vignette]
           (mkCanvas 1 1 [10; 20; 30; 255] true []) [50%Q] Hone).
Defined.

(** X29.  The grid always overwrites the CSS filter of its canvas with the
    blur radii of the chain, so a chain without an enabled blur clears it;
    the pipeline's [applyCanvasEffects] writes the same list only when it is
    not empty and otherwise leaves the filter of the canvas as it was.
    Neither touches the bitmap. *)
Theorem css_filter_written (effects : list ImageEffect) (cv : Canvas)
    (overlays : list Q) :
  (applyCSSEffects effects cv overlays).1
  = mkCanvas (cv_width cv) (cv_height cv) (cv_pixels cv) (cv_ctx2d cv)
      (blur_radii effects)
  ∧ applyCanvasEffects effects cv
    = mkCanvas (cv_width cv) (cv_height cv) (cv_pixels cv) (cv_ctx2d cv)
        (match blur_radii effects with
         | [] => cv_filter cv
         | radii => radii
         end).
Proof.
  split.
  - unfold applyCSSEffects. rewrite css_loop. cbn [orb app].
    destruct (existsb _ effects); [|done].
    by destruct (List.find _ effects).
  - unfold applyCanvasEffects. rewrite canvas_filters_radii.
    destruct (blur_radii effects) as [|r l]; cbn [length].
    + rewrite decide_False by lia. by destruct cv.
    + by rewrite decide_True by lia.
Qed.

(** ** Threshold at the ends of the scale *)

(** X30.  On a valid image a threshold of 255 or more turns the colour
    bytes of every pixel to 0 and a negative threshold turns them to 255;
    the alpha byte stays. *)
Theorem applyThreshold_extremes (img : ImageData) (t : Q) (p : Z) :
  valid img → 0 ≤ p < width img * height img →
  let out := applyThreshold img t in
  rdZ (data out) (4 * p + 3) = rdZ (data img) (4 * p + 3)
  ∧ ((255 <= t)%Q →
       [rdZ (data out) (4 * p); rdZ (data out) (4 * p + 1);
        rdZ (data out) (4 * p + 2)] = [Some 0; Some 0; Some 0])
  ∧ ((t < 0)%Q →
       [rdZ (data out) (4 * p); rdZ (data out) (4 * p + 1);
        rdZ (data out) (4 * p + 2)] = [Some 255; Some 255; Some 255]).
Proof.
  intros [Hw Hh Hlen Hb] Hp out.
  set (n := width img * height img) in *.
  assert (len (data img) = 4 * n) as Hlen4 by (subst n; lia).
  destruct (threshold_loop t (data img) n Hlen4) as [_ H1].
  destruct (H1 p Hp) as (E0 & E1 & E2 & E3).
  subst out. cbn [applyThreshold data]. rewrite E0, E1, E2, E3.
  split; [done|].
  destruct (rdZ_in_range (data img) (4 * p)) as [r Hr]; [lia|].
  destruct (rdZ_in_range (data img) (4 * p + 1)) as [g Hg]; [lia|].
  destruct (rdZ_in_range (data img) (4 * p + 2)) as [b Hbl]; [lia|].
  rewrite (threshold_value_bytes t _ p r g b Hr Hg Hbl).
  pose proof (rdZ_bytes _ _ _ Hb Hr). pose proof (rdZ_bytes _ _ _ Hb Hg).
  pose proof (rdZ_bytes _ _ _ Hb Hbl).
  assert (0 <= inject_Z (r + g + b) <= 765)%Q as Hsum.
  { split.
    - change 0%Q with (inject_Z 0). rewrite <- Zle_Qle. lia.
    - change 765%Q with (inject_Z 765). rewrite <- Zle_Qle. lia. }
  revert Hsum. generalize (inject_Z (r + g + b)). intros s Hs.
  destruct (Qlt_le_dec t (s / 3)) as [Hlt|Hle]; rewrite Qdiv_3 in *.
  - split; [intros; exfalso; lra|done].
  - split; [done|intros; exfalso; lra].
Qed.

Lemma applyThreshold_extremes_witness :
  let out := applyThreshold sample_image 255 in
  rdZ (data out) (4 * 3 + 3) = rdZ (data sample_image) (4 * 3 + 3)
  ∧ ((255 <= 255)%Q →
       [rdZ (data out) (4 * 3); rdZ (data out) (4 * 3 + 1);
        rdZ (data out) (4 * 3 + 2)] = [Some 0; Some 0; Some 0])
  ∧ ((255 < 0)%Q →
       [rdZ (data out) (4 * 3); rdZ (data out) (4 * 3 + 1);
        rdZ (data out) (4 * 3 + 2)] = [Some 255; Some 255; Some 255]).
Proof.
  apply (applyThreshold_extremes sample_image 255 3).
  - exact valid_sample_image.
  - split; [lia | reflexivity].
Defined.
